(** * A labelled tree with unix-like navigation: tree.H, treeFunctors.H,
      treeCommands.H and treeNav.C, embedded and verified.

    Conventions of the embedding.
    - [size_t] is a 64-bit unsigned integer: a value of [N] below [2^64],
      with the wrap-around of [++] and [--] written out ([SizeT]).
    - A C string ([const char*], [std::string]) is a [string]: the
      characters before the terminating NUL, none of which is NUL.  A
      pointer into a C string is the suffix that starts at the pointer.
    - [std::map<string, TreeNode*>] is an association list kept in
      ascending key order; iterating the map is iterating the list.
    - A [TreeNode*] is the address of a node.  Nodes are allocated once and
      never move, so the address of a node is modelled by the list of keys
      that leads to it from the root ([NodePtr]); the root is at [[]].
      Dereferencing an address is [node_at]; an address with no node behind
      it is a dangling pointer, and using it is [Undefined].
    - [std::regex] is a library outside the repository: its constructor and
      [regex_match] are the two fields of [RegexEngine]. *)

From Stdlib Require Import String Ascii List NArith Bool Lia Arith.
Import ListNotations.
Local Open Scope string_scope.
Local Open Scope list_scope.

(** ** size_t *)

Module SizeT.
Definition modulus : N := 18446744073709551616%N.   (* 2^64 *)
Definition npos : N := 18446744073709551615%N.      (* -1ul *)
Definition incr (n : N) : N := ((n + 1) mod modulus)%N.
Definition decr (n : N) : N := ((n + modulus - 1) mod modulus)%N.
End SizeT.

(** ** Characters *)

Definition dquote : ascii := "034"%char.
Definition star : ascii := "*"%char.
Definition qmark : ascii := "?"%char.
Definition lbracket : ascii := "["%char.
Definition rbracket : ascii := "]"%char.
Definition dot : ascii := "."%char.

(** [isspace] in the "C" locale: space, \t, \n, \v, \f, \r. *)
Definition isspace (c : ascii) : bool :=
  let n := nat_of_ascii c in
  Nat.eqb n 32 || (Nat.leb 9 n && Nat.leb n 13).

(** [*w=='*' || *w=='?' || *w=='[' || *w==']'] *)
Definition is_wildcard (c : ascii) : bool :=
  Ascii.eqb c star || Ascii.eqb c qmark || Ascii.eqb c lbracket
  || Ascii.eqb c rbracket.

Definition empty (s : string) : bool :=
  match s with EmptyString => true | String _ _ => false end.

(** ** tree.H *)

Abbreviation Key := string.
Abbreviation NodePtr := (list string).

(** [template<class DataType, class KeyType = string> class TreeNode]. *)
#[warnings="-register-all"]
Inductive TreeNode (DataType : Type) : Type :=
  mkTreeNode (d : DataType) (cs : list (Key * TreeNode DataType)).
Arguments mkTreeNode {DataType} d cs.

Definition data {D} (n : TreeNode D) : D :=
  match n with mkTreeNode d _ => d end.
Definition children {D} (n : TreeNode D) : list (Key * TreeNode D) :=
  match n with mkTreeNode _ cs => cs end.

(** [children.find(key)]: the search follows the order of the keys. *)
Fixpoint map_find {V} (key : Key) (m : list (Key * V)) : option V :=
  match m with
  | [] => None
  | (k, v) :: m' =>
    match String.compare key k with
    | Eq => Some v
    | Lt => None
    | Gt => map_find key m'
    end
  end.

(** [children[key] = v]: the entry is overwritten, or added at its place in
    the order. *)
Fixpoint map_set {V} (key : Key) (v : V) (m : list (Key * V)) : list (Key * V) :=
  match m with
  | [] => [(key, v)]
  | (k, v') :: m' =>
    match String.compare key k with
    | Eq => (key, v) :: m'
    | Lt => (key, v) :: (k, v') :: m'
    | Gt => (k, v') :: map_set key v m'
    end
  end.

(** The keys of a map are in strictly ascending order. *)
Fixpoint ascending {V} (m : list (Key * V)) : Prop :=
  match m with
  | [] => True
  | (k, _) :: m' =>
    match m' with
    | [] => True
    | (k', _) :: _ => String.compare k k' = Lt
    end /\ ascending m'
  end.

(** The node an address points to, from the root. *)
Fixpoint node_at {D} (root : TreeNode D) (p : NodePtr) : option (TreeNode D) :=
  match p with
  | [] => Some root
  | key :: p' =>
    match map_find key (children root) with
    | Some child => node_at child p'
    | None => None
    end
  end.

(** Number of levels of a tree: a leaf has one. *)
Fixpoint height {D} (n : TreeNode D) : nat :=
  match n with
  | mkTreeNode _ cs =>
    S ((fix over (l : list (Key * TreeNode D)) : nat :=
          match l with
          | [] => O
          | (_, c) :: l' => Nat.max (height c) (over l')
          end) cs)
  end.

Fixpoint height_children {D} (l : list (Key * TreeNode D)) : nat :=
  match l with
  | [] => O
  | (_, c) :: l' => Nat.max (height c) (height_children l')
  end.

(** [class NodeFunction]: the visitor interface.  [St] is the state of the
    visitor object (the counters [level_], [idx_] of the base class and the
    members of the derived class).  [operator()] and [onExit] receive the
    node by reference: they see its address and its contents and may rewrite
    its [data]; the stock visitors never touch the child map, and the
    interface here does not let them. *)
Module NodeFunction.
Record t (D St : Type) : Type := mk {
  call : NodePtr -> TreeNode D -> St -> bool * D * St;     (* operator() *)
  onExit : NodePtr -> TreeNode D -> St -> bool * D * St;
  level : St -> N                                         (* level() *)
}.
Arguments mk {D St}.
Arguments call {D St}.
Arguments onExit {D St}.
Arguments level {D St}.

(** The members of the base class. *)
Record Base : Type := mkBase { level_ : N; idx_ : N }.
Definition init : Base := {| level_ := 0; idx_ := 0 |}.
Definition none : N := SizeT.npos.

(** The base class itself: both hooks return [true] and change nothing. *)
Definition base D : t D Base :=
  {| call := fun _ n s => (true, data n, s);
     onExit := fun _ n s => (true, data n, s);
     level := level_ |}.
End NodeFunction.

(** [DFS::operator()]: depth-first search, up to [maxLevel]. *)
Fixpoint DFS {D St} (func : NodeFunction.t D St) (maxLevel : N)
    (p : NodePtr) (node : TreeNode D) (s : St) {struct node} : TreeNode D * St :=
  match node with
  | mkTreeNode d0 cs0 =>
    if (NodeFunction.level func s <? maxLevel)%N then
      let '(cont, d1, s1) := NodeFunction.call func p node s in
      let '(cs1, s2) :=
        if cont then
          (fix each (l : list (Key * TreeNode D)) (s : St) {struct l}
             : list (Key * TreeNode D) * St :=
             match l with
             | [] => ([], s)
             | (key, child) :: l' =>
               let '(child', s') := DFS func maxLevel (p ++ [key]) child s in
               let '(l'', s'') := each l' s' in
               ((key, child') :: l'', s'')
             end) cs0 s1
        else (cs0, s1) in
      let '(_, d2, s3) := NodeFunction.onExit func p (mkTreeNode d1 cs1) s2 in
      (mkTreeNode d2 cs1, s3)
    else (node, s)
  end.

(** The loop over the child map inside [DFS], named. *)
Fixpoint DFS_children {D St} (func : NodeFunction.t D St) (maxLevel : N)
    (p : NodePtr) (l : list (Key * TreeNode D)) (s : St)
    : list (Key * TreeNode D) * St :=
  match l with
  | [] => ([], s)
  | (key, child) :: l' =>
    let '(child', s') := DFS func maxLevel (p ++ [key]) child s in
    let '(l'', s'') := DFS_children func maxLevel p l' s' in
    ((key, child') :: l'', s'')
  end.

(** *** Observing a traversal

    The calls a driver makes are observed by wrapping the visitor: the
    wrapper behaves as the visitor does and logs each call of [operator()]
    (with the address of the node and the value of [level()] at the call)
    and each call of [onExit]. *)
Inductive Event : Type :=
| Visit (p : NodePtr) (lvl : N)
| Exit (p : NodePtr).

Definition traced {D St} (func : NodeFunction.t D St)
  : NodeFunction.t D (St * list Event) :=
  {| NodeFunction.call := fun p n st =>
       let '(cont, d, s') := NodeFunction.call func p n (fst st) in
       (cont, d, (s', snd st ++ [Visit p (NodeFunction.level func (fst st))]));
     NodeFunction.onExit := fun p n st =>
       let '(r, d, s') := NodeFunction.onExit func p n (fst st) in
       (r, d, (s', snd st ++ [Exit p]));
     NodeFunction.level := fun st => NodeFunction.level func (fst st) |}.

(** The log of [dfs(node, func, maxLevel)], the node being at address [p]. *)
Definition DFS_log {D St} (func : NodeFunction.t D St) (maxLevel : N)
    (p : NodePtr) (node : TreeNode D) (s : St) : list Event :=
  snd (snd (DFS (traced func) maxLevel p node (s, []))).

Definition is_visit (e : Event) : bool :=
  match e with Visit _ _ => true | Exit _ => false end.
Definition is_exit (e : Event) : bool :=
  match e with Visit _ _ => false | Exit _ => true end.

(** A log in which every [Visit] is closed by the [Exit] of the same node,
    after the events of the nodes below it. *)
Inductive bracketed : list Event -> Prop :=
| bracketed_nil : bracketed []
| bracketed_node p lvl inner rest :
    bracketed inner -> bracketed rest ->
    bracketed (Visit p lvl :: inner ++ Exit p :: rest).

(** A visitor that counts its depth the way [Level], [NodeCounter] and
    [PrintNode] do: [operator()] increments [level_], [onExit] decrements
    it. *)
Definition counts_depth {D St} (func : NodeFunction.t D St) : Prop :=
  forall p n s,
    NodeFunction.level func (snd (NodeFunction.call func p n s))
    = SizeT.incr (NodeFunction.level func s)
    /\ NodeFunction.level func (snd (NodeFunction.onExit func p n s))
       = SizeT.decr (NodeFunction.level func s).

(** ** treeFunctors.H *)

(** [class TreeInfo], the concrete [TreeInfoConcept]. *)
Module TreeInfo.
Record t : Type := mk {
  name : string;
  parent : option NodePtr;     (* nullptr is None *)
  level : N;
  idx : N
}.
Definition delim : ascii := "/"%char.
Definition anyLevel : N := SizeT.npos.
Definition set_level (i : t) (l : N) : t :=
  {| name := name i; parent := parent i; level := l; idx := idx i |}.
Definition set_name (i : t) (s : string) : t :=
  {| name := s; parent := parent i; level := level i; idx := idx i |}.
End TreeInfo.

Abbreviation Node := (TreeNode TreeInfo.t).

(** [class Level]: call from DFS to set the node level. *)
Definition Level : NodeFunction.t TreeInfo.t NodeFunction.Base :=
  {| NodeFunction.call := fun _ node s =>
       (true,
        TreeInfo.set_level (data node) (NodeFunction.level_ s),
        {| NodeFunction.level_ := SizeT.incr (NodeFunction.level_ s);
           NodeFunction.idx_ := NodeFunction.idx_ s |});
     NodeFunction.onExit := fun _ node s =>
       (true,
        data node,
        {| NodeFunction.level_ := SizeT.decr (NodeFunction.level_ s);
           NodeFunction.idx_ := NodeFunction.idx_ s |});
     NodeFunction.level := NodeFunction.level_ |}.

(** [setLevel(root)]: [dfs(root, L)] with a fresh [Level] and the default
    [maxLevel = -1ul]; the tree is updated in place, here returned. *)
Definition setLevel (root : Node) : Node :=
  fst (DFS Level SizeT.npos [] root NodeFunction.init).

(** The true structural depth, stated on the tree: the root of a tree that
    hangs at depth [d] is stamped [d] and its children hang at [d + 1]. *)
#[warnings="-register-all"]
Inductive depth_is : N -> Node -> Prop :=
| depth_is_node d i cs :
    TreeInfo.level i = d ->
    Forall (fun kc => depth_is (d + 1) (snd kc)) cs ->
    depth_is d (mkTreeNode i cs).

(** What level numbering is to produce: every level field rewritten to the
    depth, nothing else touched. *)
Fixpoint relabel (d : N) (n : Node) : Node :=
  match n with
  | mkTreeNode i cs =>
    mkTreeNode (TreeInfo.set_level i d)
      ((fix over (l : list (Key * Node)) : list (Key * Node) :=
          match l with
          | [] => []
          | (k, c) :: l' => (k, relabel (d + 1) c) :: over l'
          end) cs)
  end.

Fixpoint relabel_children (d : N) (l : list (Key * Node)) : list (Key * Node) :=
  match l with
  | [] => []
  | (k, c) :: l' => (k, relabel d c) :: relabel_children d l'
  end.

(** ** Outcomes of the fallible operations *)

Inductive Outcome (A : Type) : Type :=
| Ok (a : A)
| Throw (msg : string)     (* [throw string(...)] *)
| RegexError               (* [std::regex_error], thrown by the [regex] constructor *)
| Abort                    (* a failed [assert] *)
| Undefined.               (* undefined behaviour: a read out of bounds, a dangling pointer *)
Arguments Ok {A} a.
Arguments Throw {A} msg.
Arguments RegexError {A}.
Arguments Abort {A}.
Arguments Undefined {A}.

Definition bind {A B} (o : Outcome A) (k : A -> Outcome B) : Outcome B :=
  match o with
  | Ok a => k a
  | Throw msg => Throw msg
  | RegexError => RegexError
  | Abort => Abort
  | Undefined => Undefined
  end.

Notation "x <- o ;; k" := (bind o (fun x => k))
  (at level 61, o at next level, right associativity).

(** [std::regex]: construction from a pattern (which throws on a malformed
    one) and [regex_match], a match of the whole string. *)
Class RegexEngine : Type := {
  regex : Type;
  regex_compile : string -> option regex;
  regex_match : string -> regex -> bool
}.

(** ** treeNav.C: insert *)

(** [getline(InStr, tok, delim)] on an [istringstream].  The stream is the
    text not yet read.  Characters are extracted up to the end or up to a
    delimiter, which is extracted and dropped. *)
Fixpoint getline_extract (delim : ascii) (s : string) : string * string :=
  match s with
  | EmptyString => (EmptyString, EmptyString)
  | String c s' =>
    if Ascii.eqb c delim then (EmptyString, s')
    else let '(tok, rest) := getline_extract delim s' in (String c tok, rest)
  end.

(** The call fails (the stream converts to [false]) when nothing is left to
    extract: either the end was hit by the call before, or the text ended
    with the delimiter the call before dropped. *)
Definition getline (InStr : string) (delim : ascii) : option (string * string) :=
  match InStr with
  | EmptyString => None
  | String _ _ => Some (getline_extract delim InStr)
  end.

(** The loop [while (getline(InStr, tok, pdelim) && !tok.empty())] of
    [insert].  The source walks down with [node=child] and writes through
    the pointer; here the subtree below [node] is rebuilt on the way back.
    [p] is the address of [node].  Each round extracts at least one
    character, so [fuel] above the length of the stream is never used up. *)
Fixpoint insert_loop (fuel : nat) (pdelim : ascii) (InStr : string)
    (p : NodePtr) (node : Node) : Node :=
  match fuel with
  | O => node                         (* not reached *)
  | S fuel' =>
    match getline InStr pdelim with
    | None => node
    | Some (tok, InStr') =>
      if empty tok then node
      else
        let child :=
          match map_find tok (children node) with
          | Some child => child
          | None =>
            mkTreeNode
              {| TreeInfo.name := tok;
                 TreeInfo.parent := Some p;
                 TreeInfo.level := SizeT.incr (TreeInfo.level (data node));
                 TreeInfo.idx := 0 |}
              []
          end in
        mkTreeNode (data node)
          (map_set tok (insert_loop fuel' pdelim InStr' (p ++ [tok]) child)
             (children node))
    end
  end.

(** [insert(root, path, pdelim)]: the returned flag and the tree. *)
Definition insert (root : Node) (path : string) (pdelim : ascii) : bool * Node :=
  if empty path then (false, root)
  else
    let '(tok, InStr) :=
      match getline path pdelim with
      | Some r => r
      | None => (EmptyString, EmptyString)
      end in
    if empty (TreeInfo.name (data root)) then
      let root' :=
        mkTreeNode
          (TreeInfo.set_name (data root)
             (if empty tok then String TreeInfo.delim EmptyString else tok))
          (children root) in
      (true, insert_loop (S (String.length InStr)) pdelim InStr [] root')
    else if negb (empty tok) && negb (String.eqb (TreeInfo.name (data root)) tok)
    then (false, root)
    else (true, insert_loop (S (String.length InStr)) pdelim InStr [] root).

(** ** treeFunctors.H: follow *)

(** The leading white space of the path is skipped. *)
Fixpoint skip_spaces (path : string) : string :=
  match path with
  | EmptyString => path
  | String c path' => if isspace c then skip_spaces path' else path
  end.

(** The delimiters in front of a token are skipped. *)
Fixpoint skip_delims (delim : ascii) (path : string) : string :=
  match path with
  | EmptyString => path
  | String c path' => if Ascii.eqb c delim then skip_delims delim path' else path
  end.

(** [pos=pv.find_first_of(delim)] (the size when there is none): the token
    [string tok(path, path+pos)] and the pointer [path+pos]. *)
Fixpoint first_token (delim : ascii) (path : string) : string * string :=
  match path with
  | EmptyString => (EmptyString, EmptyString)
  | String c path' =>
    if Ascii.eqb c delim then (EmptyString, path)
    else let '(tok, rest) := first_token delim path' in (String c tok, rest)
  end.

(** The main loop of [follow].  [Ok None] is the
    [nullptr] the source returns.  Each round consumes a character. *)
Fixpoint follow_loop (fuel : nat) (root : Node) (path : string) (cwd : NodePtr)
    : Outcome (option NodePtr) :=
  match fuel with
  | O => Ok (Some cwd)                (* not reached *)
  | S fuel' =>
    match skip_delims TreeInfo.delim path with
    | EmptyString => Ok (Some cwd)
    | String _ _ as path1 =>
      let '(tok, path2) := first_token TreeInfo.delim path1 in
      if String.eqb tok "." then follow_loop fuel' root path2 cwd
      else
        match node_at root cwd with
        | None => Undefined
        | Some node =>
          if String.eqb tok ".." then
            match TreeInfo.parent (data node) with
            | Some up => follow_loop fuel' root path2 up
            | None => follow_loop fuel' root path2 cwd
            end
          else
            match map_find tok (children node) with
            | None => Ok None
            | Some _ => follow_loop fuel' root path2 (cwd ++ [tok])
            end
        end
    end
  end.

(** [follow(root, arg, node)]; [node = None] is the default [nullptr]. *)
Definition follow (root : Node) (arg : string) (node : option NodePtr)
    : Outcome (option NodePtr) :=
  let path := skip_spaces arg in
  let cwd := match node with Some n => n | None => [] end in
  let cwd :=
    match path with
    | String c _ => if Ascii.eqb c TreeInfo.delim then [] else cwd
    | EmptyString => cwd
    end in
  follow_loop (S (String.length path)) root path cwd.

(** ** treeCommands.H: the output file of a command *)

(** [cmdLine.substr(pos+1)], [pos] the place of the first [>]; [None] when
    there is none. *)
Fixpoint after_redirect (cmdLine : string) : option string :=
  match cmdLine with
  | EmptyString => None
  | String c rest =>
    if Ascii.eqb c ">"%char then Some rest else after_redirect rest
  end.

(** [find_if(str.begin(), str.end(), l)] with [l] the test for a character
    that is not white space: the offset of the first such character, the
    size when there is none. *)
Fixpoint first_nonspace (str : string) : nat :=
  match str with
  | EmptyString => 0
  | String c rest => if isspace c then S (first_nonspace rest) else 0
  end.

(** [find_if(str.rbegin(), str.rend(), l).base()]: the offset just after
    the last character that is not white space, 0 when there is none. *)
Fixpoint after_last_nonspace (str : string) : nat :=
  match str with
  | EmptyString => 0
  | String c rest =>
    match after_last_nonspace rest with
    | S k => S (S k)
    | O => if isspace c then 0 else 1
    end
  end.

(** The member [ofile] after the constructor [Command(cmdLine, ...)]:
    [string(start, end.base())], which is defined only when [start] does
    not lie behind [end.base()]; without a redirection the member stays
    empty. *)
Definition ofile (cmdLine : string) : Outcome string :=
  match after_redirect cmdLine with
  | None => Ok EmptyString
  | Some str =>
    let start := first_nonspace str in
    let stop := after_last_nonspace str in
    if Nat.leb start stop then Ok (String.substring start (stop - start) str)
    else Undefined
  end.

(** ** treeCommands.H: class Command *)

Module Command.

Inductive WordType : Type := invalid_ | plain_ | pattern_ | quoted_.

(** [adjustPattern(w, delim)]: the token up to the delimiter (or the
    end), the pointer [wi] where the scan stopped, and the two flags. *)
Fixpoint adjustPattern (w : string) (delim : ascii)
    : string * string * bool * bool :=
  match w with
  | EmptyString => (EmptyString, EmptyString, false, false)
  | String c w' =>
    if Ascii.eqb c delim then (EmptyString, w, false, false)
    else
      let '(tok, wi, isPattern, hasDelim) := adjustPattern w' delim in
      ((if Ascii.eqb c star then String dot (String c tok) else String c tok),
       wi,
       is_wildcard c || isPattern,
       Ascii.eqb c TreeInfo.delim || hasDelim)
  end.

(** [wordType(w)], word that starts with a quote: scan from the second
    character on; [prev] is the character before the pointer. *)
Fixpoint wordType_quoted (prev : ascii) (w : string) : WordType :=
  match w with
  | EmptyString => if Ascii.eqb prev dquote then quoted_ else invalid_
  | String c w' =>
    if Ascii.eqb c dquote && negb (empty w') then invalid_
    else wordType_quoted c w'
  end.

(** [wordType(w)], any other word: the loop with [isPat] and [hasRange]. *)
Fixpoint wordType_scan (w : string) (isPat hasRange : bool) : WordType :=
  match w with
  | EmptyString =>
    if hasRange then invalid_ else if isPat then pattern_ else plain_
  | String c w' =>
    let isPat := is_wildcard c || isPat in
    if Ascii.eqb c lbracket then
      if hasRange then invalid_ else wordType_scan w' isPat true
    else if Ascii.eqb c rbracket then
      if hasRange then wordType_scan w' isPat false else invalid_
    else wordType_scan w' isPat hasRange
  end.

(** [wordType(w)] for a word that is not the null pointer. *)
Definition wordType (w : string) : WordType :=
  match w with
  | String c w' =>
    if Ascii.eqb c dquote then wordType_quoted c w'
    else wordType_scan w false false
  | EmptyString => wordType_scan w false false
  end.

(** *** makeArgs *)

Inductive State : Type := none | token | quoted | endq.

Record Scanner : Type := mkScanner {
  state : State;
  words : list string;
  word : string
}.

Definition push_back (w : string) (c : ascii) : string :=
  (w ++ String c EmptyString)%string.

Definition quote_in_token (cmdLine : string) : string :=
  ("makeArgs: " ++ String dquote " preceeded by alpha character in "
     ++ cmdLine)%string.
Definition nonspace_after_quote (cmdLine : string) : string :=
  ("makeArgs: non-space after closing " ++ String dquote " in "
     ++ cmdLine)%string.
Definition unmatched_quote (cmdLine : string) : string :=
  ("makeArgs: unmatched " ++ String dquote " in " ++ cmdLine)%string.

(** One round of the loop [for (auto c : cmdLine)]. *)
Definition makeArgs_step (cmdLine : string) (m : Scanner) (c : ascii)
    : Outcome Scanner :=
  match state m with
  | none =>
    if isspace c then Ok m
    else Ok {| state := if Ascii.eqb c dquote then quoted else token;
               words := words m;
               word := String c EmptyString |}
  | token =>
    if isspace c then
      Ok {| state := none; words := words m ++ [word m]; word := word m |}
    else if Ascii.eqb c dquote then Throw (quote_in_token cmdLine)
    else Ok {| state := token; words := words m; word := push_back (word m) c |}
  | quoted =>
    if Ascii.eqb c dquote then
      Ok {| state := endq;
            words := words m ++ [push_back (word m) c];
            word := EmptyString |}
    else Ok {| state := quoted; words := words m; word := push_back (word m) c |}
  | endq =>
    if isspace c then
      Ok {| state := none; words := words m; word := word m |}
    else Throw (nonspace_after_quote cmdLine)
  end.

Fixpoint makeArgs_loop (cmdLine : string) (rest : string) (m : Scanner)
    : Outcome Scanner :=
  match rest with
  | EmptyString => Ok m
  | String c rest' =>
    m' <- makeArgs_step cmdLine m c ;; makeArgs_loop cmdLine rest' m'
  end.

Definition scanner0 : Scanner :=
  {| state := none; words := []; word := EmptyString |}.

(** [makeArgs(cmdLine)]: the words, which become [ArgvStr] and [Argv]. *)
Definition makeArgs (cmdLine : string) : Outcome (list string) :=
  m <- makeArgs_loop cmdLine cmdLine scanner0 ;;
  match state m with
  | quoted => Throw (unmatched_quote cmdLine)
  | token => Ok (if empty (word m) then words m else words m ++ [word m])
  | none | endq => Ok (words m)
  end.

(** *** shellExpansion *)

(** The members [pathSoFar] and [paths]. *)
Record Expander : Type := mkExpander {
  pathSoFar : list NodePtr;
  paths : list string
}.

(** The members after [pathSoFar.clear(); paths.clear();]. *)
Definition cleared : Expander := {| pathSoFar := []; paths := [] |}.

Definition push (child : NodePtr) (e : Expander) : Expander :=
  {| pathSoFar := pathSoFar e ++ [child]; paths := paths e |}.
Definition pop (e : Expander) : Expander :=
  {| pathSoFar := removelast (pathSoFar e); paths := paths e |}.

(** The name of the node an entry of [pathSoFar] points to. *)
Definition name_of (root : Node) (p : NodePtr) : Outcome string :=
  match node_at root p with
  | Some n => Ok (TreeInfo.name (data n))
  | None => Undefined
  end.

(** The loop of [makePath] that appends the delimiter and the next name. *)
Fixpoint join_names (root : Node) (path : string) (rest : list NodePtr)
    : Outcome string :=
  match rest with
  | [] => Ok path
  | p :: rest' =>
    nm <- name_of root p ;;
    join_names root (path ++ String TreeInfo.delim nm)%string rest'
  end.

(** [makePath()]: form the string and store it. *)
Definition makePath (root : Node) (e : Expander) : Outcome Expander :=
  match pathSoFar e with
  | [] => Ok e
  | first :: rest =>
    nm <- name_of root first ;;
    path <- join_names root nm rest ;;
    Ok {| pathSoFar := pathSoFar e; paths := paths e ++ [path] |}
  end.

(** [for (const auto& [key, child] : node.children)], the body acting on
    the members. *)
Fixpoint for_each_child (body : Key -> Expander -> Outcome Expander)
    (cs : list (Key * Node)) (e : Expander) : Outcome Expander :=
  match cs with
  | [] => Ok e
  | (key, _) :: cs' => e' <- body key e ;; for_each_child body cs' e'
  end.

(** The pointer handed on, [wi+1], or [wi] at the end of the word: step
    over the delimiter, stay at the end. *)
Definition next_of (wi : string) : string :=
  match wi with
  | String _ wi' => wi'
  | EmptyString => wi
  end.

Section Expansion.
Context {engine : RegexEngine}.

(** [shellExpansion(node, w)], the recursive expander.  [node] is the
    address of the node, [w] the rest of the word.  Every call receives
    a shorter rest, so [fuel] above the length of [w] is never used
    up.  The assert of the empty-token branch holds by [adjustPattern],
    which stops at the end or at the delimiter. *)
Fixpoint shellExpansion_rec (fuel : nat) (root : Node) (node : NodePtr)
    (w : string) (e : Expander) {struct fuel} : Outcome Expander :=
  match fuel with
  | O => Ok e                         (* not reached *)
  | S fuel' =>
    match w with
    | EmptyString => makePath root e
    | String _ _ =>
      let '(tok, wi, isPattern, _) := adjustPattern w TreeInfo.delim in
      (* the pointer passed on: [wi+1], or [wi] at the end of the word *)
      let next := next_of wi in
      if negb (empty tok) then
        if negb isPattern then
          if String.eqb tok "." then
            (* [wi+1], whatever [*wi] is *)
            match wi with
            | String _ wi' => shellExpansion_rec fuel' root node wi' e
            | EmptyString => Undefined
            end
          else
            match node_at root node with
            | None => Undefined
            | Some n =>
              if String.eqb tok ".." then
                match TreeInfo.parent (data n) with
                | Some up => shellExpansion_rec fuel' root up next e
                | None => Ok e            (* FAIL, no parent to go to *)
                end
              else
                match map_find tok (children n) with
                | Some _ =>
                  e' <- shellExpansion_rec fuel' root (node ++ [tok]) next
                          (push (node ++ [tok]) e) ;;
                  Ok (pop e')
                | None => Ok e            (* FAIL, token not found *)
                end
            end
        else
          match regex_compile tok with
          | None => RegexError
          | Some re =>
            match node_at root node with
            | None => Undefined
            | Some n =>
              for_each_child
                (fun key e =>
                   if regex_match key re then
                     e' <- shellExpansion_rec fuel' root (node ++ [key]) next
                             (push (node ++ [key]) e) ;;
                     Ok (pop e')
                   else Ok e)
                (children n) e
            end
          end
      else shellExpansion_rec fuel' root node next e
    end
  end.

Definition shellExpansion_word (root : Node) (node : NodePtr) (w : string)
    (e : Expander) : Outcome Expander :=
  shellExpansion_rec (S (String.length w)) root node w e.

Definition invalid_argument (arg : string) : string :=
  ("shellExpansion: invalid argument " ++ arg)%string.

(** [string(word+1, word+argit->size()-1)]: the word without its first
    and last character. *)
Definition remove_quotes (w : string) : Outcome string :=
  match w with
  | String _ (String c w') =>
    Ok (String.substring 0 (String.length w') (String c w'))
  | _ => Undefined
  end.

(** [shellExpansion(node)]: the loop over [ArgvStr]; the result is the
    list after the loop.  The iterator steps over the paths it has put
    in place of a word.  The assert on the first character of a quoted
    word holds by [wordType]. *)
Fixpoint shellExpansion (root : Node) (node : NodePtr) (ArgvStr : list string)
    : Outcome (list string) :=
  match ArgvStr with
  | [] => Ok []
  | w :: rest =>
    (* [assert(word && *word)]: a word holds no NUL byte, so its first
       byte is zero when the word is empty *)
    if empty w then Abort
    else
      match wordType w with
      | quoted_ =>
        w' <- remove_quotes w ;;
        rest' <- shellExpansion root node rest ;;
        Ok (w' :: rest')
      | invalid_ => Throw (invalid_argument w)
      | pattern_ =>
        e <- shellExpansion_word root node w cleared ;;
        rest' <- shellExpansion root node rest ;;
        Ok (match paths e with
            | [] => w :: rest'
            | _ :: _ => paths e ++ rest'
            end)
      | plain_ =>
        rest' <- shellExpansion root node rest ;;
        Ok (w :: rest')
      end
  end.

(** [cmdLine.substr(0, pos)], [pos] the place of the first [>]. *)
Fixpoint before_redirect (cmdLine : string) : string :=
  match cmdLine with
  | EmptyString => EmptyString
  | String c rest =>
    if Ascii.eqb c ">"%char then EmptyString
    else String c (before_redirect rest)
  end.

(** The constructor [Command(cmdLine, name, r, c)], as far as the
    arguments go: first the member [ofile] from what follows a [>], then
    [makeArgs] on the command line up to the [>], then, when there is a
    current node, [shellExpansion] from it.  The result is [ArgvStr]. *)
Definition construct (root : Node) (current : option NodePtr)
    (cmdLine : string) : Outcome (list string) :=
  file <- ofile cmdLine ;;
  args <- makeArgs (before_redirect cmdLine) ;;
  match current with
  | Some node => shellExpansion root node args
  | None => Ok args
  end.

End Expansion.

(** A stand-in for [std::regex] with which the examples below run: every
    pattern compiles, and a name matches when it is the pattern, character
    for character. *)
Definition literal_engine : RegexEngine :=
  {| regex := string;
     regex_compile := fun pat => Some pat;
     regex_match := fun s re => String.eqb s re |}.

End Command.

(** ** Vocabulary of the statements *)

(** The loop of [makeTree(paths, delim)] that inserts the paths in turn. *)
Definition insert_all (root : Node) (paths : list string) (delim : ascii) : Node :=
  fold_left (fun t path => snd (insert t path delim)) paths root.

(** [Node root;]: a node built with no initializer. *)
Definition new_root : Node :=
  mkTreeNode
    {| TreeInfo.name := EmptyString; TreeInfo.parent := None;
       TreeInfo.level := 0; TreeInfo.idx := 0 |} [].

(** The tree of [/A/A1/A23], [/A/A2] and [/B/B1]. *)
Definition sample : Node :=
  insert_all new_root ["/A/A1/A23"; "/A/A2"; "/B/B1"] "/"%char.

(** A node with one child, named [a]. *)
Definition single : Node := insert_all new_root ["/a"] "/"%char.

(** The name of every node but the root is the key it is stored under. *)
#[warnings="-register-all"]
Inductive keyed_by_name : Node -> Prop :=
| keyed_node i cs :
    Forall (fun kc => TreeInfo.name (data (snd kc)) = fst kc
                      /\ keyed_by_name (snd kc)) cs ->
    keyed_by_name (mkTreeNode i cs).

(** Every child map of the tree is in ascending order of its keys. *)
#[warnings="-register-all"]
Inductive ordered : Node -> Prop :=
| ordered_node i cs :
    ascending cs ->
    Forall (fun kc => ordered (snd kc)) cs ->
    ordered (mkTreeNode i cs).

Fixpoint has_wildcard (s : string) : bool :=
  match s with
  | EmptyString => false
  | String c s' => is_wildcard c || has_wildcard s'
  end.

Fixpoint has_char (x : ascii) (s : string) : bool :=
  match s with
  | EmptyString => false
  | String c s' => Ascii.eqb c x || has_char x s'
  end.

(** The segment a path starts with: the text before the first delimiter. *)
Definition segment (delim : ascii) (w : string) : string :=
  fst (first_token delim w).

(** The translation as the specification words it: every [*] becomes [.*]
    and every [?] becomes [.]. *)
Fixpoint glob_translation (seg : string) : string :=
  match seg with
  | EmptyString => EmptyString
  | String c seg' =>
    if Ascii.eqb c star then String dot (String star (glob_translation seg'))
    else if Ascii.eqb c qmark then String dot (glob_translation seg')
    else String c (glob_translation seg')
  end.

(** The translation with [*] alone rewritten: every [*] becomes [.*] and
    every other character stands as it is. *)
Fixpoint star_translation (seg : string) : string :=
  match seg with
  | EmptyString => EmptyString
  | String c seg' =>
    if Ascii.eqb c star then String dot (String star (star_translation seg'))
    else String c (star_translation seg')
  end.

(** A segment that names a child: not empty, not [.] or [..], free of the
    delimiter and of the wildcard characters. *)
Definition plain_name (s : string) : Prop :=
  s <> EmptyString /\ s <> "." /\ s <> ".."
  /\ has_char TreeInfo.delim s = false /\ has_wildcard s = false.

(** The text [/s1/s2/.../sn]. *)
Fixpoint slashed (segs : list string) : string :=
  match segs with
  | [] => EmptyString
  | s :: rest => String TreeInfo.delim (s ++ slashed rest)%string
  end.

(** The path [s1/s2/.../sn]. *)
Definition join (segs : list string) : string :=
  match segs with
  | [] => EmptyString
  | s :: rest => (s ++ slashed rest)%string
  end.

(** The addresses a walk from [cur] along [segs] goes through. *)
Fixpoint steps (cur : NodePtr) (segs : list string) : list NodePtr :=
  match segs with
  | [] => []
  | s :: rest => (cur ++ [s]) :: steps (cur ++ [s]) rest
  end.

Definition starts_with_space (s : string) : bool :=
  match s with
  | EmptyString => false
  | String c _ => isspace c
  end.

(** The events of [dfs(node, func, maxLevel)] in the order they happen,
    read off the driver. *)
Fixpoint DFS_events {D St} (func : NodeFunction.t D St) (maxLevel : N)
    (p : NodePtr) (node : TreeNode D) (s : St) {struct node} : list Event :=
  match node with
  | mkTreeNode d0 cs0 =>
    if (NodeFunction.level func s <? maxLevel)%N then
      let '(cont, _, s1) := NodeFunction.call func p node s in
      Visit p (NodeFunction.level func s)
      :: (if cont then
            (fix each (l : list (Key * TreeNode D)) (s : St) {struct l}
               : list Event :=
               match l with
               | [] => []
               | (key, child) :: l' =>
                 DFS_events func maxLevel (p ++ [key]) child s
                 ++ each l' (snd (DFS func maxLevel (p ++ [key]) child s))
               end) cs0 s1
          else [])
         ++ [Exit p]
    else []
  end.

Fixpoint DFS_children_events {D St} (func : NodeFunction.t D St) (maxLevel : N)
    (p : NodePtr) (l : list (Key * TreeNode D)) (s : St) : list Event :=
  match l with
  | [] => []
  | (key, child) :: l' =>
    DFS_events func maxLevel (p ++ [key]) child s
    ++ DFS_children_events func maxLevel p l'
         (snd (DFS func maxLevel (p ++ [key]) child s))
  end.

(** The logs of the children of a node at [p], one child after the other in
    the order of the map, each started in the state the one before left. *)
Fixpoint DFS_children_log {D St} (func : NodeFunction.t D St) (maxLevel : N)
    (p : NodePtr) (l : list (Key * TreeNode D)) (s : St) : list Event :=
  match l with
  | [] => []
  | (key, child) :: l' =>
    DFS_log func maxLevel (p ++ [key]) child s
    ++ DFS_children_log func maxLevel p l'
         (snd (DFS func maxLevel (p ++ [key]) child s))
  end.

Definition visits (log : list Event) : nat := List.length (filter is_visit log).
Definition exits (log : list Event) : nat := List.length (filter is_exit log).

(** The brackets of a word, in order. *)
Fixpoint brackets (w : string) : list bool :=
  match w with
  | EmptyString => []
  | String c w' =>
    if Ascii.eqb c lbracket then true :: brackets w'
    else if Ascii.eqb c rbracket then false :: brackets w'
    else brackets w'
  end.

(** Brackets that match without nesting: [[ ]] pairs, one after another. *)
Inductive ranges_matched : list bool -> Prop :=
| ranges_none : ranges_matched []
| ranges_pair l : ranges_matched l -> ranges_matched (true :: false :: l).

Fixpoint all_chars (f : ascii -> bool) (s : string) : bool :=
  match s with
  | EmptyString => true
  | String c s' => f c && all_chars f s'
  end.

(** A character of an unquoted token: neither white space nor a quote. *)
Definition token_char (c : ascii) : bool :=
  negb (isspace c) && negb (Ascii.eqb c dquote).

(** The segment an inserted path leads with: what the first [getline]
    reads. *)
Definition leading_segment (pdelim : ascii) (path : string) : string :=
  fst (getline_extract pdelim path).


Definition starts_with_quote (w : string) : bool :=
  match w with
  | EmptyString => false
  | String c _ => Ascii.eqb c dquote
  end.

(** A text that is over or goes on with the delimiter. *)
Definition at_boundary (delim : ascii) (rest : string) : Prop :=
  match rest with
  | EmptyString => True
  | String c _ => c = delim
  end.

(** ** Vocabulary for paths in general *)

(** The segments of a path: the texts between its delimiters, in order,
    the empty ones included.  [A//A1/] has the segments [A], the empty
    text, [A1] and the empty text. *)
Fixpoint segments (w : string) : list string :=
  match w with
  | EmptyString => [EmptyString]
  | String c w' =>
    if Ascii.eqb c TreeInfo.delim then EmptyString :: segments w'
    else
      match segments w' with
      | s :: rest => String c s :: rest
      | [] => [String c EmptyString]
      end
  end.

(** A segment that asks for a step to a child: neither empty nor [.]. *)
Definition is_name (s : string) : bool :=
  negb (empty s) && negb (String.eqb s ".").

(** The names of a path that holds no [..], in order. *)
Definition names (w : string) : list string := filter is_name (segments w).

(** The last of the segments is [.]. *)
Definition ends_with_dot (segs : list string) : bool :=
  String.eqb (last segs EmptyString) ".".

(** The path is absolute. *)
Definition starts_with_delim (w : string) : bool :=
  match w with
  | EmptyString => false
  | String c _ => Ascii.eqb c TreeInfo.delim
  end.

(** A segment of a word without wildcards. *)
Definition path_segment (s : string) : Prop :=
  has_char TreeInfo.delim s = false /\ has_wildcard s = false.

(** ** More vocabulary: the shape of a tree *)

(** The parent pointer of every node below [node] is the address of the
    node it hangs under, [node] itself being at address [p]. *)
#[warnings="-register-all"]
Inductive parents_ok : NodePtr -> Node -> Prop :=
| parents_node p i cs :
    Forall (fun kc => TreeInfo.parent (data (snd kc)) = Some p
                      /\ parents_ok (p ++ [fst kc]) (snd kc)) cs ->
    parents_ok p (mkTreeNode i cs).

(** A tree as [insert] builds it: the root has no parent, every other
    node points back to the node it hangs under, every child map is in key
    order and every node but the root is stored under its name. *)
Definition wellformed (root : Node) : Prop :=
  TreeInfo.parent (data root) = None
  /\ parents_ok [] root
  /\ ordered root
  /\ keyed_by_name root.

(** A name [insert] can be given as a segment: not empty and free of the
    delimiter. *)
Definition segment_name (s : string) : Prop :=
  s <> EmptyString /\ has_char TreeInfo.delim s = false.

(** A path that can go on after a delimiter: its first character, when it
    has one, is neither white space nor the delimiter. *)
Definition plain_start (p : string) : bool :=
  match p with
  | EmptyString => true
  | String c _ => negb (isspace c) && negb (Ascii.eqb c TreeInfo.delim)
  end.

(** A pointer that is null or points to a node of the tree. *)
Definition live (root : Node) (p : option NodePtr) : Prop :=
  match p with
  | Some q => node_at root q <> None
  | None => True
  end.

(** ** treeCommands.H: PWD::get *)

Module PWD.

(** [name[0]==delim]; the first character of an empty name is the
    terminator, which is not the delimiter. *)
Definition starts_with (c : ascii) (s : string) : bool :=
  match s with
  | EmptyString => false
  | String x _ => Ascii.eqb x c
  end.

(** The loop [while (node)] of [get]: up the parent pointers, putting the
    delimiter and the name of each node passed in front of the path.  The
    source has no bound on the walk; here it is given [fuel] rounds, and
    [None] says they were used up before the chain ended. *)
Fixpoint get_loop (fuel : nat) (root : Node) (path : string)
    (node : option NodePtr) : option (Outcome string) :=
  match node with
  | None => Some (Ok path)
  | Some p =>
    match fuel with
    | O => None
    | S fuel' =>
      match node_at root p with
      | None => Some Undefined
      | Some n =>
        let path := String TreeInfo.delim path in
        let path :=
          if starts_with TreeInfo.delim (TreeInfo.name (data n)) then path
          else (TreeInfo.name (data n) ++ path)%string in
        get_loop fuel' root path (TreeInfo.parent (data n))
      end
    end
  end.

(** [get(current)]: the path of the current node. *)
Definition get (fuel : nat) (root : Node) (current : NodePtr)
    : option (Outcome string) :=
  match node_at root current with
  | None => Some Undefined
  | Some n =>
    get_loop fuel root (TreeInfo.name (data n)) (TreeInfo.parent (data n))
  end.

End PWD.

(** What the name of the root puts in front of a path: nothing when it
    starts with the delimiter. *)
Definition root_part (root : Node) : string :=
  if PWD.starts_with TreeInfo.delim (TreeInfo.name (data root))
  then EmptyString
  else TreeInfo.name (data root).

(** What a node passed on the way up puts in front of the path: its name,
    or nothing when the name starts with the delimiter. *)
Definition ancestor_part (s : string) : string :=
  if PWD.starts_with TreeInfo.delim s then EmptyString else s.

(** The parts of the nodes at [s1], [s1, s2], ..., each followed by the
    delimiter. *)
Fixpoint ancestors_text (q : list string) : string :=
  match q with
  | [] => EmptyString
  | s :: rest => (ancestor_part s ++ String TreeInfo.delim (ancestors_text rest))%string
  end.

(** The path of the node at [segs], as [PWD::get] forms it. *)
Definition pwd_text (root : Node) (segs : list string) : string :=
  match segs with
  | [] => TreeInfo.name (data root)
  | _ :: _ =>
    (root_part root
     ++ String TreeInfo.delim
          (ancestors_text (removelast segs) ++ last segs EmptyString))%string
  end.

(** ** treeFunctors.H: NodeCounter and countNodes *)

Module NodeCounter.

(** The members: those of the base class, [n], [minLevel], [maxLevel]. *)
Record t : Type := mk {
  base : NodeFunction.Base;
  n : N;
  minLevel : N;
  maxLevel : N
}.

(** [NodeCounter(l, L)] *)
Definition init (l L : N) : t :=
  {| base := NodeFunction.init; n := 0; minLevel := l; maxLevel := L |}.

Definition func {D} : NodeFunction.t D t :=
  {| NodeFunction.call := fun _ node s =>
       (true,
        data node,
        {| base :=
             {| NodeFunction.level_ := SizeT.incr (NodeFunction.level_ (base s));
                NodeFunction.idx_ := NodeFunction.idx_ (base s) |};
           n := if (minLevel s <=? NodeFunction.level_ (base s))%N
                   && (NodeFunction.level_ (base s) <? maxLevel s)%N
                then SizeT.incr (n s) else n s;
           minLevel := minLevel s;
           maxLevel := maxLevel s |});
     NodeFunction.onExit := fun _ node s =>
       (true,
        data node,
        {| base :=
             {| NodeFunction.level_ := SizeT.decr (NodeFunction.level_ (base s));
                NodeFunction.idx_ := NodeFunction.idx_ (base s) |};
           n := n s;
           minLevel := minLevel s;
           maxLevel := maxLevel s |});
     NodeFunction.level := fun s => NodeFunction.level_ (base s) |}.

Definition numel (s : t) : N := n s.

End NodeCounter.

(** [countNodes(root, minLevel, maxLevel)] *)
Definition countNodes {D} (root : TreeNode D) (minLevel maxLevel : N) : N :=
  NodeCounter.numel
    (snd (DFS NodeCounter.func SizeT.npos [] root
            (NodeCounter.init minLevel maxLevel))).

(** The number of nodes of a tree hanging at depth [d] whose depth lies in
    the band from [lo] (included) to [hi] (excluded). *)
Fixpoint in_band {D} (d lo hi : N) (node : TreeNode D) : nat :=
  match node with
  | mkTreeNode _ cs =>
    (if (lo <=? d)%N && (d <? hi)%N then 1 else 0)
    + (fix over (l : list (Key * TreeNode D)) : nat :=
         match l with
         | [] => 0
         | (_, c) :: l' => in_band (d + 1) lo hi c + over l'
         end) cs
  end.

Fixpoint in_band_children {D} (d lo hi : N) (l : list (Key * TreeNode D)) : nat :=
  match l with
  | [] => 0
  | (_, c) :: l' => in_band d lo hi c + in_band_children d lo hi l'
  end.

(** ** treeFunctors.H: findLeftmost and findRightmost *)

(** [findLeftmost(root, level)]: the address, from [root], of the leftmost
    node [level] levels below it; [None] is the null pointer. *)
Fixpoint findLeftmost {D} (root : TreeNode D) (level : N) : option NodePtr :=
  match root with
  | mkTreeNode _ cs =>
    if (level =? 0)%N then Some []
    else
      (fix over (l : list (Key * TreeNode D)) : option NodePtr :=
         match l with
         | [] => None
         | (key, child) :: l' =>
           match findLeftmost child (level - 1) with
           | Some p => Some (key :: p)
           | None => over l'
           end
         end) cs
  end.

Fixpoint findLeftmost_children {D} (l : list (Key * TreeNode D)) (level : N)
    : option NodePtr :=
  match l with
  | [] => None
  | (key, child) :: l' =>
    match findLeftmost child level with
    | Some p => Some (key :: p)
    | None => findLeftmost_children l' level
    end
  end.

(** [findRightmost(root, level)]: the children are tried from the last to
    the first. *)
Fixpoint findRightmost {D} (root : TreeNode D) (level : N) : option NodePtr :=
  match root with
  | mkTreeNode _ cs =>
    if (level =? 0)%N then Some []
    else
      (fix over (l : list (Key * TreeNode D)) : option NodePtr :=
         match l with
         | [] => None
         | (key, child) :: l' =>
           match over l' with
           | Some p => Some p
           | None =>
             match findRightmost child (level - 1) with
             | Some p => Some (key :: p)
             | None => None
             end
           end
         end) cs
  end.

Fixpoint findRightmost_children {D} (l : list (Key * TreeNode D)) (level : N)
    : option NodePtr :=
  match l with
  | [] => None
  | (key, child) :: l' =>
    match findRightmost_children l' level with
    | Some p => Some p
    | None =>
      match findRightmost child level with
      | Some p => Some (key :: p)
      | None => None
      end
    end
  end.

(** The order of addresses from left to right: key by key. *)
Fixpoint left_of (p q : NodePtr) : Prop :=
  match p, q with
  | [], _ => True
  | _ :: _, [] => False
  | a :: p', b :: q' =>
    match String.compare a b with
    | Lt => True
    | Eq => left_of p' q'
    | Gt => False
    end
  end.

(** What [findLeftmost] and [findRightmost] are to return at a node. *)
Definition leftmost_ok (node : Node) (level : N) : Prop :=
  match findLeftmost node level with
  | Some p =>
    List.length p = N.to_nat level
    /\ node_at node p <> None
    /\ forall q, List.length q = N.to_nat level -> node_at node q <> None ->
                 left_of p q
  | None => forall q, List.length q = N.to_nat level -> node_at node q = None
  end.

Definition rightmost_ok (node : Node) (level : N) : Prop :=
  match findRightmost node level with
  | Some p =>
    List.length p = N.to_nat level
    /\ node_at node p <> None
    /\ forall q, List.length q = N.to_nat level -> node_at node q <> None ->
                 left_of q p
  | None => forall q, List.length q = N.to_nat level -> node_at node q = None
  end.


(** ** Vocabulary for the argument list *)

(** An unquoted word: not empty, free of white space and of quotes. *)
Definition token_word (w : string) : Prop :=
  w <> EmptyString /\ all_chars token_char w = true.

(** The text [body] between two quotes. *)
Definition in_quotes (body : string) : string :=
  String dquote (body ++ String dquote EmptyString).

(** A word of a command line: bare, or a text written between quotes. *)
Inductive Arg : Type :=
| Bare (w : string)
| Quoted (body : string).

(** What is typed for it, and what it stands for. *)
Definition written (a : Arg) : string :=
  match a with
  | Bare w => w
  | Quoted body => in_quotes body
  end.

Definition meant (a : Arg) : string :=
  match a with
  | Bare w => w
  | Quoted body => body
  end.

Definition well_written (a : Arg) : Prop :=
  match a with
  | Bare w => token_word w
  | Quoted body => has_char dquote body = false
  end.

Definition wildcard_free (a : Arg) : Prop :=
  match a with
  | Bare w => has_wildcard w = false
  | Quoted _ => True
  end.

(** The words with one blank between them. *)
Fixpoint unwords (ws : list string) : string :=
  match ws with
  | [] => EmptyString
  | w :: rest =>
    match rest with
    | [] => w
    | _ :: _ => (w ++ String " " (unwords rest))%string
    end
  end.

(** The NUL byte, and a word whose first byte is not NUL: what the test
    [*word] of an [assert] asks of the C string [word]. *)
Definition nul : ascii := "000"%char.

Definition first_byte_set (w : string) : Prop :=
  exists c w', w = String c w' /\ c <> nul.

(** In the loop of [makeArgs], on a line without NUL byte, no stored word
    and no word being gathered holds a NUL byte. *)
Definition scanner_nul_free (m : Command.Scanner) : Prop :=
  Forall (fun w => has_char nul w = false) (Command.words m)
  /\ has_char nul (Command.word m) = false.

(** The outcome is a failed [assert]. *)
Definition aborted {A} (o : Outcome A) : bool :=
  match o with
  | Abort => true
  | _ => false
  end.

(** What [makeArgs] does after its loop. *)
Definition makeArgs_end (cmdLine : string) (m : Command.Scanner)
    : Outcome (list string) :=
  match Command.state m with
  | Command.quoted => Throw (Command.unmatched_quote cmdLine)
  | Command.token =>
    Ok (if empty (Command.word m) then Command.words m
        else Command.words m ++ [Command.word m])
  | Command.none | Command.endq => Ok (Command.words m)
  end.

(** In the loop of [makeArgs] no stored word is empty, and inside a word
    the characters gathered so far are not none. *)
Definition scanner_ok (m : Command.Scanner) : Prop :=
  Forall (fun w => empty w = false) (Command.words m)
  /\ (Command.state m = Command.token \/ Command.state m = Command.quoted ->
      empty (Command.word m) = false).

(** The scanner [m0] is [m] with the words [ws0] stored before; the word
    being gathered counts only inside a word. *)
Definition same_scan (ws0 : list string) (m m0 : Command.Scanner) : Prop :=
  Command.state m0 = Command.state m
  /\ Command.words m0 = ws0 ++ Command.words m
  /\ (Command.state m = Command.token \/ Command.state m = Command.quoted ->
      Command.word m0 = Command.word m).

(** A word as it may be typed: a bare word or a text between quotes. *)
Definition arg_form (w : string) : Prop :=
  exists a, well_written a /\ w = written a.

(** In the loop of [makeArgs] every stored word has this form, a bare word
    is being gathered in state [token], and an opening quote with a text
    free of quotes in state [quoted]. *)
Definition scanner_wf (m : Command.Scanner) : Prop :=
  Forall arg_form (Command.words m)
  /\ (Command.state m = Command.token -> token_word (Command.word m))
  /\ (Command.state m = Command.quoted ->
      exists body, Command.word m = String dquote body
                   /\ has_char dquote body = false).

(** The members after a call of the expander that left [pathSoFar] as it
    was and added to [paths] at its end. *)
Definition extends (e e' : Command.Expander) : Prop :=
  Command.pathSoFar e' = Command.pathSoFar e
  /\ exists found, Command.paths e' = Command.paths e ++ found.

(** ** Vocabulary for the expansion of a word *)

(** A segment the expander walks down with: not empty, free of the
    delimiter, and, when it holds no wildcard, neither [.] nor [..]. *)
Definition glob_segment (s : string) : Prop :=
  s <> EmptyString /\ has_char TreeInfo.delim s = false
  /\ (has_wildcard s = false -> s <> "." /\ s <> "..").

Section Chains.
Context {engine : RegexEngine}.

(** The segment is a pattern the regex constructor accepts, or no pattern. *)
Definition compiles (s : string) : Prop :=
  has_wildcard s = true -> regex_compile (star_translation s) <> None.

(** A key answers a segment: it is the segment, or it matches the
    expression the segment is compiled into. *)
Definition seg_match (s : string) (k : Key) : bool :=
  if has_wildcard s then
    match regex_compile (star_translation s) with
    | Some re => regex_match k re
    | None => false
    end
  else String.eqb k s.

(** The walks from a node along keys that answer the segments, one key for
    each segment, in the order of the child maps. *)
Fixpoint chains (segs : list string) (n : Node) : list (list Key) :=
  match segs with
  | [] => [[]]
  | s :: rest =>
    flat_map
      (fun kc : Key * Node =>
         if seg_match s (fst kc)
         then map (cons (fst kc)) (chains rest (snd kc))
         else [])
      (children n)
  end.

End Chains.

(** The text less its last two characters, when these are [.*]. *)
Fixpoint before_dot_star (re : string) : option string :=
  match re with
  | EmptyString => None
  | String c re' =>
    if String.eqb re ".*" then Some EmptyString
    else
      match before_dot_star re' with
      | Some p => Some (String c p)
      | None => None
      end
  end.

(** A stand-in for [std::regex] that knows one form of pattern, a literal
    text followed by [.*]: a name matches when it starts with the text.
    Any other pattern is matched character for character. *)
Definition prefix_engine : RegexEngine :=
  {| regex := string;
     regex_compile := fun pat => Some pat;
     regex_match := fun s re =>
       match before_dot_star re with
       | Some p => String.prefix p s
       | None => String.eqb s re
       end |}.

(** ** tree.H: BFS *)

(** A write through a node pointer: the data of the node at address [p]
    replaced, the child maps as they are. *)
Fixpoint set_data {D} (root : TreeNode D) (p : NodePtr) (d : D) : TreeNode D :=
  match p with
  | [] => mkTreeNode d (children root)
  | key :: p' =>
    match map_find key (children root) with
    | Some child =>
      mkTreeNode (data root)
        (map_set key (set_data child p' d) (children root))
    | None => root
    end
  end.

(** The loop [while(!q.empty())] of [BFS::operator()].  The queue holds
    the addresses of the nodes pushed; the visitor works on the tree as it
    is when the node is taken from the queue.  Each round takes one node
    from the queue; the result is [None] when [fuel] rounds did not empty
    it. *)
Fixpoint BFS_loop {D St} (fuel : nat) (func : NodeFunction.t D St)
    (root : TreeNode D) (q : list NodePtr) (s : St) {struct fuel}
    : option (Outcome (TreeNode D * St)) :=
  match q with
  | [] => Some (Ok (root, s))
  | p :: q' =>
    match fuel with
    | O => None
    | S fuel' =>
      match node_at root p with
      | None => Some Undefined
      | Some node =>
        let '(cont, d, s') := NodeFunction.call func p node s in
        BFS_loop fuel' func (set_data root p d)
          (if cont
           then q' ++ map (fun kc : Key * TreeNode D => p ++ [fst kc])
                        (children node)
           else q')
          s'
      end
    end
  end.

(** [bfs(root, func)] with a queue that is empty at the call. *)
Definition BFS {D St} (fuel : nat) (func : NodeFunction.t D St)
    (root : TreeNode D) (s : St) : option (Outcome (TreeNode D * St)) :=
  BFS_loop fuel func root [[]] s.

(** ** treeFunctors.H: Index, setIndex, Find, find *)

Definition set_idx (i : TreeInfo.t) (x : N) : TreeInfo.t :=
  {| TreeInfo.name := TreeInfo.name i; TreeInfo.parent := TreeInfo.parent i;
     TreeInfo.level := TreeInfo.level i; TreeInfo.idx := x |}.

(** [class Index]: call BFS to set the linear index. *)
Definition Index : NodeFunction.t TreeInfo.t NodeFunction.Base :=
  {| NodeFunction.call := fun _ node s =>
       (true,
        set_idx (data node) (NodeFunction.idx_ s),
        {| NodeFunction.level_ := NodeFunction.level_ s;
           NodeFunction.idx_ := SizeT.incr (NodeFunction.idx_ s) |});
     NodeFunction.onExit := fun _ node s =>
       (true,
        data node,
        {| NodeFunction.level_ := NodeFunction.level_ s;
           NodeFunction.idx_ := SizeT.decr (NodeFunction.idx_ s) |});
     NodeFunction.level := NodeFunction.level_ |}.

(** [setIndex(root)]: [bfs(root, Idx)] with a fresh [Index]; the tree is
    updated in place, here returned. *)
Definition setIndex (fuel : nat) (root : Node) : option (Outcome Node) :=
  match BFS fuel Index root NodeFunction.init with
  | Some o => Some (r <- o ;; Ok (fst r))
  | None => None
  end.

Section Finding.
Context {engine : RegexEngine}.

(** [class Find]: the state is the base class and [retNodes].  The members
    [name] and [exact] are stored and never read. *)
Definition Find (re : regex) (level : N)
    : NodeFunction.t TreeInfo.t (NodeFunction.Base * list NodePtr) :=
  {| NodeFunction.call := fun p node s =>
       (true,
        data node,
        if ((level =? TreeInfo.anyLevel)%N
            || (TreeInfo.level (data node) =? level)%N)
           && regex_match (TreeInfo.name (data node)) re
        then (fst s, snd s ++ [p])
        else s);
     NodeFunction.onExit := fun _ node s => (true, data node, s);
     NodeFunction.level := fun s => NodeFunction.level_ (fst s) |}.

(** [find(root, name, exact, level)]: the constructor of [Find] compiles
    the name, then [bfs(root, f)]; the result is [f.nodes()].  [exact] has
    no part in it. *)
Definition find (fuel : nat) (root : Node) (name : string) (level : N)
    : option (Outcome (list NodePtr)) :=
  match regex_compile name with
  | None => Some RegexError
  | Some re =>
    match BFS fuel (Find re level) root (NodeFunction.init, []) with
    | Some o => Some (r <- o ;; Ok (snd (snd r)))
    | None => None
    end
  end.

End Finding.

(** ** Vocabulary for the breadth-first order *)

(** The number of nodes of a tree. *)
Fixpoint tree_size {D} (n : TreeNode D) : nat :=
  match n with
  | mkTreeNode _ cs =>
    S ((fix over (l : list (Key * TreeNode D)) : nat :=
          match l with
          | [] => O
          | (_, c) :: l' => tree_size c + over l'
          end) cs)
  end.

Fixpoint tree_size_children {D} (l : list (Key * TreeNode D)) : nat :=
  match l with
  | [] => O
  | (_, c) :: l' => tree_size c + tree_size_children l'
  end.

(** The addresses of the nodes [d] levels below the node [n] at address
    [p], from left to right. *)
Fixpoint at_depth {D} (d : nat) (p : NodePtr) (n : TreeNode D) : list NodePtr :=
  match d with
  | O => [p]
  | S d' =>
    flat_map (fun kc : Key * TreeNode D => at_depth d' (p ++ [fst kc]) (snd kc))
      (children n)
  end.

(** The nodes of a tree level by level, each level from left to right. *)
Definition level_order {D} (root : TreeNode D) : list NodePtr :=
  flat_map (fun d => at_depth d [] root) (seq 0 (height root)).

(** A visitor whose [operator()] always returns true. *)
Definition always_continues {D St} (func : NodeFunction.t D St) : Prop :=
  forall p n s, fst (fst (NodeFunction.call func p n s)) = true.

(** The addresses of the nodes visited, read off a log. *)
Definition visited (log : list Event) : list NodePtr :=
  flat_map (fun e => match e with Visit p _ => [p] | Exit _ => [] end) log.

(** Nodes with their addresses: what a queue of pointers stands for. *)
Definition kids {D} (pn : NodePtr * TreeNode D) : list (NodePtr * TreeNode D) :=
  map (fun kc : Key * TreeNode D => (fst pn ++ [fst kc], snd kc))
    (children (snd pn)).

(** The order in which a queue that starts as [q] gives out its nodes. *)
Fixpoint bfs_forest {D} (fuel : nat) (q : list (NodePtr * TreeNode D))
    : list NodePtr :=
  match q with
  | [] => []
  | pn :: q' =>
    match fuel with
    | O => []
    | S fuel' => fst pn :: bfs_forest fuel' (q' ++ kids pn)
    end
  end.

(** The nodes of a forest level by level, [h] levels of them. *)
Fixpoint levels_forest {D} (h : nat) (ps : list (NodePtr * TreeNode D))
    : list NodePtr :=
  match h with
  | O => []
  | S h' => map fst ps ++ levels_forest h' (flat_map kids ps)
  end.

Definition forest_size {D} (q : list (NodePtr * TreeNode D)) : nat :=
  list_sum (map (fun pn => tree_size (snd pn)) q).

Definition forest_height {D} (q : list (NodePtr * TreeNode D)) : nat :=
  list_max (map (fun pn => height (snd pn)) q).

(** One round of the loop of [BFS] on a node that is there, for a visitor
    that goes on. *)
Definition visit {D St} (func : NodeFunction.t D St)
    (rs : TreeNode D * St) (p : NodePtr) : TreeNode D * St :=
  match node_at (fst rs) p with
  | Some node =>
    let '(_, d, s') := NodeFunction.call func p node (snd rs) in
    (set_data (fst rs) p d, s')
  | None => rs
  end.

(** The keys under the node at an address. *)
Definition keys_at {D} (root : TreeNode D) (q : NodePtr) : option (list Key) :=
  match node_at root q with
  | Some n => Some (map fst (children n))
  | None => None
  end.

(** Two trees with the same nodes, keys and addresses. *)
Definition same_shape {D} (r r' : TreeNode D) : Prop :=
  forall q, keys_at r' q = keys_at r q.

(** The data of the node at an address. *)
Definition data_at {D} (root : TreeNode D) (q : NodePtr) : option D :=
  match node_at root q with
  | Some n => Some (data n)
  | None => None
  end.

Section Found.
Context {engine : RegexEngine}.

(** The test of [Find::operator()] on the node at an address. *)
Definition is_found (re : regex) (level : N) (root : Node) (p : NodePtr) : bool :=
  match node_at root p with
  | Some n =>
    ((level =? TreeInfo.anyLevel)%N || (TreeInfo.level (data n) =? level)%N)
    && regex_match (TreeInfo.name (data n)) re
  | None => false
  end.

End Found.

(** ** treeNav.C: makeTree *)

(** [makeTree(paths, delim)]: a root built with no initializer, the paths
    inserted in turn, then [setLevel] and [setIndex].  The tree is returned
    by value; the object returned is taken to be the local one (the copy
    is elided), so that the nodes stay where they are. *)
Definition makeTree (fuel : nat) (paths : list string) (delim : ascii)
    : option (Outcome Node) :=
  setIndex fuel (setLevel (insert_all new_root paths delim)).

(** ** Vocabulary for the output file *)

(** A text with a character that is not white space at both ends. *)
Definition trimmed (body : string) : Prop :=
  exists a mid z,
    isspace a = false /\ isspace z = false
    /\ (body = String a EmptyString
        \/ body = String a (mid ++ String z EmptyString)).

(** ** treeFunctors.H: PrintNode and printTree *)

From Stdlib Require DecimalString.
From Stdlib Require Import Permutation.

Module PrintNode.

Record Config : Type := mkConfig {
  long_ : bool;
  indentChar : ascii;
  minLevel : N;
  maxLevel : N;
  nonLeafColor : string;
  endColor : string
}.

(** The default member initializers: a tab, all levels, bold face blue. *)
Definition default : Config :=
  {| long_ := false;
     indentChar := "009"%char;
     minLevel := 0;
     maxLevel := SizeT.npos;
     nonLeafColor := String "027"%char "[1;34m";
     endColor := String "027"%char "[0m" |}.

(** The members: those of the base class, [config], and the text written
    to [*Out] so far. *)
Record t : Type := mk {
  base : NodeFunction.Base;
  config : Config;
  Out : string
}.

(** [Out << n] for a [size_t]. *)
Definition decimal (n : N) : string :=
  DecimalString.NilEmpty.string_of_uint (N.to_uint n).

(** [operator<<(ostream&, const TreeInfo&)] *)
Definition shown (info : TreeInfo.t) : string :=
  (decimal (TreeInfo.level info) ++ ": " ++ decimal (TreeInfo.idx info))%string.

Definition endl : string := String "010"%char EmptyString.

(** [string(n, c)] *)
Fixpoint fill (n : nat) (c : ascii) : string :=
  match n with
  | O => EmptyString
  | S n' => String c (fill n' c)
  end.

(** What [operator()] writes for a node within the levels asked for. *)
Definition line (cfg : Config) (level_ : N) (node : Node) : string :=
  let tabs :=
    (fill (N.to_nat level_) (indentChar cfg)
     ++ (if Ascii.eqb (indentChar cfg) star then " " else EmptyString))%string in
  let name :=
    match children node with
    | [] => TreeInfo.name (data node)
    | _ :: _ =>
      (nonLeafColor cfg ++ TreeInfo.name (data node) ++ endColor cfg)%string
    end in
  if long_ cfg
  then (tabs ++ shown (data node) ++ ": " ++ name ++ endl)%string
  else (tabs ++ name ++ endl)%string.

Definition up (s : t) (out : string) : t :=
  {| base := {| NodeFunction.level_ := SizeT.incr (NodeFunction.level_ (base s));
                NodeFunction.idx_ := NodeFunction.idx_ (base s) |};
     config := config s;
     Out := out |}.

Definition func : NodeFunction.t TreeInfo.t t :=
  {| NodeFunction.call := fun _ node s =>
       let level_ := NodeFunction.level_ (base s) in
       if negb ((minLevel (config s) <=? level_)%N
                && (level_ <? maxLevel (config s))%N)
       then ((level_ <? minLevel (config s))%N, data node, up s (Out s))
       else (true, data node, up s (Out s ++ line (config s) level_ node)%string);
     NodeFunction.onExit := fun _ node s =>
       (true,
        data node,
        {| base :=
             {| NodeFunction.level_ := SizeT.decr (NodeFunction.level_ (base s));
                NodeFunction.idx_ := NodeFunction.idx_ (base s) |};
           config := config s;
           Out := Out s |});
     NodeFunction.level := fun s => NodeFunction.level_ (base s) |}.

End PrintNode.

(** [printTree(root, ofile, config)]: the text written to the stream,
    which is the file [ofile] or, when that is empty, the standard
    output. *)
Definition printTree (root : Node) (config : PrintNode.Config) : string :=
  PrintNode.Out
    (snd (DFS PrintNode.func SizeT.npos [] root
            {| PrintNode.base := NodeFunction.init;
               PrintNode.config := config;
               PrintNode.Out := EmptyString |})).

(** The lines of the nodes of a tree hanging at depth [d] whose depth lies
    within the levels asked for, in depth-first order. *)
Fixpoint listing (cfg : PrintNode.Config) (d : N) (node : Node) : string :=
  match node with
  | mkTreeNode _ cs =>
    ((if (PrintNode.minLevel cfg <=? d)%N && (d <? PrintNode.maxLevel cfg)%N
      then PrintNode.line cfg d node else EmptyString)
     ++ (fix over (l : list (Key * Node)) : string :=
           match l with
           | [] => EmptyString
           | (_, c) :: l' => (listing cfg (d + 1) c ++ over l')%string
           end) cs)%string
  end.

Fixpoint listing_children (cfg : PrintNode.Config) (d : N)
    (l : list (Key * Node)) : string :=
  match l with
  | [] => EmptyString
  | (_, c) :: l' => (listing cfg d c ++ listing_children cfg d l')%string
  end.

(** Every key of the tree is a plain name with no white space in front. *)
#[warnings="-register-all"]
Inductive plain_keys : Node -> Prop :=
| plain_keys_node i cs :
    Forall (fun kc => plain_name (fst kc)
                      /\ starts_with_space (fst kc) = false
                      /\ plain_keys (snd kc)) cs ->
    plain_keys (mkTreeNode i cs).

(** * Properties *)

(** ** The tree and the depth-first driver *)

(** Induction over a node and, through the child map, over its subtrees. *)
Lemma TreeNode_rect' {D} (P : TreeNode D -> Prop)
  (step : forall d cs, Forall (fun kc => P (snd kc)) cs -> P (mkTreeNode d cs)) :
  forall n, P n.
Proof.
  fix self 1. intros [d cs]. apply step.
  induction cs as [|[k c] cs IH]; constructor; [apply self | exact IH].
Qed.

Lemma DFS_unfold {D St} (func : NodeFunction.t D St) maxLevel p node s :
  DFS func maxLevel p node s =
  if (NodeFunction.level func s <? maxLevel)%N then
    let '(cont, d1, s1) := NodeFunction.call func p node s in
    let '(cs1, s2) :=
      if cont then DFS_children func maxLevel p (children node) s1
      else (children node, s1) in
    let '(_, d2, s3) := NodeFunction.onExit func p (mkTreeNode d1 cs1) s2 in
    (mkTreeNode d2 cs1, s3)
  else (node, s).
Proof.
  destruct node as [d0 cs0]. cbn [DFS children].
  destruct (NodeFunction.level func s <? maxLevel)%N; [|reflexivity].
  destruct (NodeFunction.call func p (mkTreeNode d0 cs0) s) as [[cont d1] s1].
  destruct cont; [|reflexivity].
  assert (E : forall l s,
    (fix each (l : list (Key * TreeNode D)) (s : St) {struct l}
       : list (Key * TreeNode D) * St :=
       match l with
       | [] => ([], s)
       | (key, child) :: l' =>
         let '(child', s') := DFS func maxLevel (p ++ [key]) child s in
         let '(l'', s'') := each l' s' in
         ((key, child') :: l'', s'')
       end) l s = DFS_children func maxLevel p l s).
  { induction l as [|[k c] l IH]; intros s'; [reflexivity|].
    cbn [DFS_children]. destruct (DFS func maxLevel (p ++ [k]) c s') as [c' s''].
    rewrite IH. reflexivity. }
  rewrite E. reflexivity.
Qed.

Lemma height_unfold {D} (d : D) cs :
  height (mkTreeNode d cs) = S (height_children cs).
Proof.
  cbn [height]. f_equal. induction cs as [|[k c] cs IH]; [reflexivity|].
  cbn [height_children]. rewrite <- IH. reflexivity.
Qed.

Lemma relabel_unfold d i cs :
  relabel d (mkTreeNode i cs) =
  mkTreeNode (TreeInfo.set_level i d) (relabel_children (d + 1) cs).
Proof.
  cbn [relabel]. f_equal. induction cs as [|[k c] cs IH]; [reflexivity|].
  cbn [relabel_children]. rewrite <- IH. reflexivity.
Qed.

Lemma incr_small d : (d < SizeT.npos)%N -> SizeT.incr d = (d + 1)%N.
Proof.
  unfold SizeT.incr, SizeT.npos, SizeT.modulus. intros H.
  apply N.mod_small. lia.
Qed.

Lemma decr_succ d : (d < SizeT.npos)%N -> SizeT.decr (d + 1) = d.
Proof.
  unfold SizeT.decr, SizeT.npos, SizeT.modulus. intros H.
  replace (d + 1 + 18446744073709551616 - 1)%N
    with (d + 1 * 18446744073709551616)%N by lia.
  rewrite N.Div0.mod_add. apply N.mod_small. lia.
Qed.

(** ** Level numbering *)

(** One run of [DFS] with [Level] on a subtree that hangs at depth [d]:
    the subtree is relabelled and the counter is back at [d]. *)
Lemma DFS_Level_relabel :
  forall (n : Node) d i p,
    (d + N.of_nat (height n) <= SizeT.npos)%N ->
    DFS Level SizeT.npos p n (NodeFunction.mkBase d i)
    = (relabel d n, NodeFunction.mkBase d i).
Proof.
  induction n as [info cs IH] using TreeNode_rect'. intros d i p Hh.
  rewrite height_unfold in Hh.
  rewrite DFS_unfold. cbn [NodeFunction.level Level NodeFunction.level_].
  assert (Hd : (d < SizeT.npos)%N) by lia.
  apply N.ltb_lt in Hd as Hb. rewrite Hb.
  cbn [NodeFunction.call NodeFunction.onExit Level children data
       NodeFunction.level_ NodeFunction.idx_].
  rewrite incr_small by exact Hd.
  assert (E : forall l,
    Forall (fun kc : Key * Node => forall d i p,
              (d + N.of_nat (height (snd kc)) <= SizeT.npos)%N ->
              DFS Level SizeT.npos p (snd kc) (NodeFunction.mkBase d i)
              = (relabel d (snd kc), NodeFunction.mkBase d i)) l ->
    (d + 1 + N.of_nat (height_children l) <= SizeT.npos)%N ->
    DFS_children Level SizeT.npos p l (NodeFunction.mkBase (d + 1) i)
    = (relabel_children (d + 1) l, NodeFunction.mkBase (d + 1) i)).
  { induction l as [|[k c] l IHl]; intros HF Hl; [reflexivity|].
    inversion HF as [|? ? Hc HF']; subst. cbn [snd] in Hc.
    cbn [height_children] in Hl. cbn [DFS_children relabel_children].
    rewrite Hc by lia. rewrite IHl by (assumption || lia).
    reflexivity. }
  rewrite (E cs IH) by lia.
  cbn [NodeFunction.level_ NodeFunction.idx_ data].
  rewrite decr_succ by exact Hd. rewrite relabel_unfold. reflexivity.
Qed.

Lemma relabel_depth_is : forall (n : Node) d, depth_is d (relabel d n).
Proof.
  induction n as [info cs IH] using TreeNode_rect'. intros d.
  rewrite relabel_unfold. constructor; [reflexivity|].
  induction cs as [|[k c] cs IHcs]; cbn [relabel_children]; constructor.
  - cbn [snd]. inversion IH; subst. cbn [snd] in *. auto.
  - apply IHcs. inversion IH; assumption.
Qed.

Lemma map_find_relabel k d (l : list (Key * Node)) :
  map_find k (relabel_children d l) = option_map (relabel d) (map_find k l).
Proof.
  induction l as [|[k' c] l IH]; [reflexivity|].
  cbn [relabel_children map_find]. destruct (String.compare k k'); auto.
Qed.

Lemma node_at_relabel : forall p (n : Node) d,
  node_at (relabel d n) p
  = option_map (relabel (d + N.of_nat (List.length p))) (node_at n p).
Proof.
  induction p as [|k p IH]; intros [info cs] d.
  - cbn. rewrite N.add_0_r. reflexivity.
  - rewrite relabel_unfold. cbn [node_at children List.length].
    rewrite map_find_relabel. destruct (map_find k cs) as [c|]; cbn [option_map].
    + rewrite IH. destruct (node_at c p); cbn [option_map]; [|reflexivity].
      do 2 f_equal. lia.
    + reflexivity.
Qed.

(** C6.  Level numbering run depth-first from the root, on a tree whose
    depth a [size_t] can count (fewer than [2^64] levels): the tree that
    results is the given tree with every level field rewritten to the
    structural depth of its node -- 0 at the root, the parent's depth plus
    one below -- and so the node behind every address carries the length of
    that address. *)
Theorem setLevel_stamps_depth (root : Node) :
  (N.of_nat (height root) <= SizeT.npos)%N ->
  setLevel root = relabel 0 root
  /\ depth_is 0 (setLevel root)
  /\ forall p n, node_at (setLevel root) p = Some n ->
       TreeInfo.level (data n) = N.of_nat (List.length p).
Proof.
  intros Hh.
  assert (E : setLevel root = relabel 0 root).
  { unfold setLevel, NodeFunction.init. rewrite DFS_Level_relabel by lia.
    reflexivity. }
  rewrite E. split; [reflexivity|]. split; [apply relabel_depth_is|].
  intros p n Hn. rewrite node_at_relabel in Hn.
  destruct (node_at root p) as [[i cs]|]; cbn [option_map] in Hn; [|discriminate].
  injection Hn as <-. reflexivity.
Qed.

Lemma setLevel_stamps_depth_witness :
  (N.of_nat (height sample) <= SizeT.npos)%N
  /\ forall p n, node_at (setLevel sample) p = Some n ->
       TreeInfo.level (data n) = N.of_nat (List.length p).
Proof.
  assert (H : (N.of_nat (height sample) <= SizeT.npos)%N)
    by (vm_compute; discriminate).
  split; [exact H|]. apply (setLevel_stamps_depth sample H).
Defined.

(** ** Depth-first traversal, any visitor *)

Section Traversal.
Context {D St : Type} (func : NodeFunction.t D St) (maxLevel : N).

Lemma DFS_events_unfold p node s :
  DFS_events func maxLevel p node s =
  if (NodeFunction.level func s <? maxLevel)%N then
    Visit p (NodeFunction.level func s)
    :: (if fst (fst (NodeFunction.call func p node s))
        then DFS_children_events func maxLevel p (children node)
               (snd (NodeFunction.call func p node s))
        else [])
       ++ [Exit p]
  else [].
Proof.
  destruct node as [d0 cs0]. cbn [DFS_events children].
  destruct (NodeFunction.level func s <? maxLevel)%N; [|reflexivity].
  destruct (NodeFunction.call func p (mkTreeNode d0 cs0) s) as [[cont d1] s1].
  cbn [fst snd]. destruct cont; [|reflexivity].
  do 2 f_equal. generalize s1. clear.
  induction cs0 as [|[k c] l IH]; intros s1; [reflexivity|].
  cbn [DFS_children_events]. rewrite <- IH. reflexivity.
Qed.

(** The wrapped visitor drives the tree and the visitor as the bare one
    does, and appends the events to the log. *)
Lemma DFS_traced : forall node p s log0,
  DFS (traced func) maxLevel p node (s, log0) =
  (fst (DFS func maxLevel p node s),
   (snd (DFS func maxLevel p node s),
    log0 ++ DFS_events func maxLevel p node s)).
Proof.
  induction node as [d0 cs0 IH] using TreeNode_rect'. intros p s log0.
  rewrite DFS_events_unfold, !DFS_unfold.
  cbn [traced NodeFunction.level NodeFunction.call NodeFunction.onExit fst snd].
  destruct (NodeFunction.level func s <? maxLevel)%N;
    [|cbn [fst snd]; rewrite app_nil_r; reflexivity].
  destruct (NodeFunction.call func p (mkTreeNode d0 cs0) s) as [[cont d1] s1].
  cbn [fst snd children].
  assert (E : forall l, Forall (fun kc : Key * TreeNode D => forall p s log0,
      DFS (traced func) maxLevel p (snd kc) (s, log0) =
      (fst (DFS func maxLevel p (snd kc) s),
       (snd (DFS func maxLevel p (snd kc) s),
        log0 ++ DFS_events func maxLevel p (snd kc) s))) l ->
    forall s log0,
      DFS_children (traced func) maxLevel p l (s, log0) =
      (fst (DFS_children func maxLevel p l s),
       (snd (DFS_children func maxLevel p l s),
        log0 ++ DFS_children_events func maxLevel p l s))).
  { induction l as [|[k c] l IHl]; intros HF s' log'.
    - cbn. rewrite app_nil_r. reflexivity.
    - inversion HF as [|? ? Hc HF']; subst. cbn [snd] in Hc.
      cbn [DFS_children DFS_children_events]. rewrite Hc.
      destruct (DFS func maxLevel (p ++ [k]) c s') as [c' s''].
      cbn [fst snd]. rewrite (IHl HF').
      destruct (DFS_children func maxLevel p l s'') as [l'' s'''].
      cbn [fst snd]. rewrite app_assoc. reflexivity. }
  destruct cont.
  - rewrite (E cs0 IH).
    destruct (DFS_children func maxLevel p cs0 s1) as [cs1 s2]. cbn [fst snd].
    destruct (NodeFunction.onExit func p (mkTreeNode d1 cs1) s2) as [[r d2] s3].
    cbn [fst snd]. rewrite <- !app_assoc. reflexivity.
  - cbn [fst snd].
    destruct (NodeFunction.onExit func p (mkTreeNode d1 cs0) s1) as [[r d2] s3].
    cbn [fst snd app]. rewrite <- !app_assoc. reflexivity.
Qed.

Lemma DFS_log_events p node s :
  DFS_log func maxLevel p node s = DFS_events func maxLevel p node s.
Proof. unfold DFS_log. rewrite DFS_traced. reflexivity. Qed.

Lemma DFS_children_log_events p l s :
  DFS_children_log func maxLevel p l s = DFS_children_events func maxLevel p l s.
Proof.
  revert s. induction l as [|[k c] l IH]; intros s; [reflexivity|].
  cbn [DFS_children_log DFS_children_events].
  rewrite DFS_log_events, IH. reflexivity.
Qed.

Lemma bracketed_app a b : bracketed a -> bracketed b -> bracketed (a ++ b).
Proof.
  induction 1 as [|p lvl inner rest Hi _ Hr IHr]; intros Hb; [exact Hb|].
  cbn [app]. rewrite <- app_assoc. cbn [app].
  apply bracketed_node; [exact Hi | apply IHr; exact Hb].
Qed.

Lemma bracketed_balanced log : bracketed log -> visits log = exits log.
Proof.
  unfold visits, exits.
  induction 1 as [|p lvl inner rest _ IHi _ IHr]; [reflexivity|].
  cbn [filter is_visit is_exit List.length].
  rewrite !filter_app, !length_app. cbn [filter is_visit is_exit List.length].
  lia.
Qed.

Lemma DFS_children_events_bracketed p l :
  Forall (fun kc : Key * TreeNode D =>
            forall p s, bracketed (DFS_events func maxLevel p (snd kc) s)) l ->
  forall s, bracketed (DFS_children_events func maxLevel p l s).
Proof.
  induction l as [|[k c] l IH]; intros HF s; [constructor|].
  inversion HF as [|? ? Hc HF']; subst. cbn [DFS_children_events].
  apply bracketed_app; [apply Hc | apply IH; exact HF'].
Qed.

Lemma DFS_events_bracketed : forall node p s,
  bracketed (DFS_events func maxLevel p node s).
Proof.
  induction node as [d0 cs0 IH] using TreeNode_rect'. intros p s.
  rewrite DFS_events_unfold.
  destruct (NodeFunction.level func s <? maxLevel)%N; [|constructor].
  cbn [children].
  destruct (fst (fst (NodeFunction.call func p (mkTreeNode d0 cs0) s))).
  - apply bracketed_node; [|constructor].
    apply DFS_children_events_bracketed; exact IH.
  - apply (bracketed_node p _ [] []); constructor.
Qed.

Lemma DFS_events_below : forall node p s q l,
  In (Visit q l) (DFS_events func maxLevel p node s) -> (l < maxLevel)%N.
Proof.
  induction node as [d0 cs0 IH] using TreeNode_rect'. intros p s q l.
  rewrite DFS_events_unfold.
  destruct (NodeFunction.level func s <? maxLevel)%N eqn:Hb; [|intros []].
  cbn [children In]. intros [Hv|Hin].
  - injection Hv as _ <-. apply N.ltb_lt. exact Hb.
  - apply in_app_or in Hin. destruct Hin as [Hin|[Hx|[]]]; [|discriminate].
    destruct (fst (fst (NodeFunction.call func p (mkTreeNode d0 cs0) s)));
      [|destruct Hin].
    revert Hin. generalize (snd (NodeFunction.call func p (mkTreeNode d0 cs0) s)).
    induction cs0 as [|[k c] cs IHcs]; intros s1 Hin; [destruct Hin|].
    inversion IH as [|? ? Hc HF']; subst. cbn [DFS_children_events] in Hin.
    apply in_app_or in Hin. destruct Hin as [Hin|Hin].
    + exact (Hc _ _ _ _ Hin).
    + exact (IHcs HF' _ Hin).
Qed.

(** *** Visitors that count their depth *)

Hypothesis Hcount : counts_depth func.
Hypothesis Hmax : (maxLevel <= SizeT.npos)%N.

Lemma DFS_children_level_restored p l :
  Forall (fun kc : Key * TreeNode D => forall p s,
            NodeFunction.level func (snd (DFS func maxLevel p (snd kc) s))
            = NodeFunction.level func s) l ->
  forall s, NodeFunction.level func (snd (DFS_children func maxLevel p l s))
            = NodeFunction.level func s.
Proof.
  induction l as [|[k c] l IH]; intros HF s; [reflexivity|].
  inversion HF as [|? ? Hc HF']; subst. cbn [snd] in Hc.
  cbn [DFS_children]. specialize (Hc (p ++ [k]) s).
  destruct (DFS func maxLevel (p ++ [k]) c s) as [c' s']. cbn [snd] in Hc.
  specialize (IH HF' s').
  destruct (DFS_children func maxLevel p l s') as [l'' s'']. cbn [snd] in *.
  congruence.
Qed.

(** When the driver returns, the counter is where it was. *)
Lemma DFS_level_restored : forall node p s,
  NodeFunction.level func (snd (DFS func maxLevel p node s))
  = NodeFunction.level func s.
Proof.
  induction node as [d0 cs0 IH] using TreeNode_rect'. intros p s.
  rewrite DFS_unfold.
  destruct (NodeFunction.level func s <? maxLevel)%N eqn:Hb; [|reflexivity].
  apply N.ltb_lt in Hb.
  destruct (Hcount p (mkTreeNode d0 cs0) s) as [Hc _].
  destruct (NodeFunction.call func p (mkTreeNode d0 cs0) s) as [[cont d1] s1].
  cbn [snd children] in *.
  assert (H2 : exists cs1 s2,
    (if cont then DFS_children func maxLevel p cs0 s1 else (cs0, s1)) = (cs1, s2)
    /\ NodeFunction.level func s2 = NodeFunction.level func s1).
  { destruct cont.
    - pose proof (DFS_children_level_restored p cs0 IH s1) as H.
      destruct (DFS_children func maxLevel p cs0 s1) as [cs1 s2].
      exists cs1, s2. split; [reflexivity | exact H].
    - exists cs0, s1. split; reflexivity. }
  destruct H2 as (cs1 & s2 & -> & H2).
  destruct (Hcount p (mkTreeNode d1 cs1) s2) as [_ He].
  destruct (NodeFunction.onExit func p (mkTreeNode d1 cs1) s2) as [[r d2] s3].
  cbn [snd] in *. rewrite He, H2, Hc.
  rewrite incr_small by lia. apply decr_succ. lia.
Qed.

(** Started with the counter at the depth of the node, the driver calls
    the visitor on a node with the counter at the depth of that node. *)
Lemma DFS_events_depth : forall node p s q l,
  NodeFunction.level func s = N.of_nat (List.length p) ->
  In (Visit q l) (DFS_events func maxLevel p node s) ->
  l = N.of_nat (List.length q).
Proof.
  induction node as [d0 cs0 IH] using TreeNode_rect'. intros p s q l Hs.
  rewrite DFS_events_unfold.
  destruct (NodeFunction.level func s <? maxLevel)%N eqn:Hb; [|intros []].
  apply N.ltb_lt in Hb.
  cbn [children In]. intros [Hv|Hin].
  - injection Hv as <- <-. exact Hs.
  - apply in_app_or in Hin. destruct Hin as [Hin|[Hx|[]]]; [|discriminate].
    destruct (Hcount p (mkTreeNode d0 cs0) s) as [Hc _].
    destruct (NodeFunction.call func p (mkTreeNode d0 cs0) s) as [[cont d1] s1].
    cbn [fst snd] in *. destruct cont; [|destruct Hin].
    rewrite incr_small in Hc by lia.
    revert s1 Hc Hin.
    induction cs0 as [|[k c] cs IHcs]; intros s1 Hc Hin; [destruct Hin|].
    inversion IH as [|? ? Hch HF']; subst. cbn [snd] in Hch.
    cbn [DFS_children_events] in Hin.
    apply in_app_or in Hin. destruct Hin as [Hin|Hin].
    + apply (Hch (p ++ [k]) s1 q l); [|exact Hin].
      rewrite length_app. cbn [List.length]. lia.
    + apply (IHcs HF' (snd (DFS func maxLevel (p ++ [k]) c s1))); [|exact Hin].
      rewrite DFS_level_restored. exact Hc.
Qed.

End Traversal.

Lemma Level_counts_depth : counts_depth Level.
Proof. intros p n s. split; reflexivity. Qed.

(** C5, as the driver has it.  For every visitor, bound, node and start
    state: [operator()] is called on a node only while the visitor's counter
    is below the bound; the log of a visited node is its [Visit], then, when
    the visitor returned true, the logs of all its children in the order of
    the map, then its [Exit] (so every [Visit] is closed by one [Exit], and
    the two are equal in number).  The bound is on the visitor's counter:
    for a visitor that counts its depth (increments on the way in,
    decrements on the way out) and starts at the depth of the start node,
    the counter at every call is the depth of the node, and no node at a
    depth at or above the bound is visited. *)
Theorem DFS_visit_exit_discipline {D St} (func : NodeFunction.t D St)
    (maxLevel : N) (p : NodePtr) (node : TreeNode D) (s : St) :
  DFS_log func maxLevel p node s =
    (if (NodeFunction.level func s <? maxLevel)%N then
       Visit p (NodeFunction.level func s)
       :: (if fst (fst (NodeFunction.call func p node s))
           then DFS_children_log func maxLevel p (children node)
                  (snd (NodeFunction.call func p node s))
           else [])
          ++ [Exit p]
     else [])
  /\ bracketed (DFS_log func maxLevel p node s)
  /\ visits (DFS_log func maxLevel p node s)
     = exits (DFS_log func maxLevel p node s)
  /\ (forall q l, In (Visit q l) (DFS_log func maxLevel p node s) ->
        (l < maxLevel)%N)
  /\ (counts_depth func ->
      (maxLevel <= SizeT.npos)%N ->
      NodeFunction.level func s = N.of_nat (List.length p) ->
      forall q l, In (Visit q l) (DFS_log func maxLevel p node s) ->
        l = N.of_nat (List.length q)
        /\ (N.of_nat (List.length q) < maxLevel)%N).
Proof.
  rewrite DFS_log_events. repeat split.
  - rewrite DFS_events_unfold, DFS_children_log_events. reflexivity.
  - apply DFS_events_bracketed.
  - apply bracketed_balanced, DFS_events_bracketed.
  - apply DFS_events_below.
  - eapply DFS_events_depth; eassumption.
  - erewrite <- DFS_events_depth by eassumption.
    eapply DFS_events_below; eassumption.
Qed.

Lemma DFS_visit_exit_discipline_witness :
  In (Visit ["B"] 1%N) (DFS_log Level 2 [] sample NodeFunction.init)
  /\ 1%N = N.of_nat (List.length ["B"])
  /\ (N.of_nat (List.length ["B"]) < 2)%N.
Proof.
  assert (Hin : In (Visit ["B"] 1%N) (DFS_log Level 2 [] sample NodeFunction.init)).
  { vm_compute. do 3 right. left. reflexivity. }
  split; [exact Hin|].
  apply (proj2 (proj2 (proj2 (proj2
           (DFS_visit_exit_discipline Level 2 [] sample NodeFunction.init))))).
  - exact Level_counts_depth.
  - vm_compute. discriminate.
  - reflexivity.
  - exact Hin.
Defined.

(** The bare [NodeFunction] leaves its counter at 0: under the bound 1 the
    driver walks the whole tree with it, two levels below the root
    included. *)
Lemma DFS_base_visitor_ignores_depth :
  ~ (forall q l,
       In (Visit q l)
          (DFS_log (NodeFunction.base TreeInfo.t) 1 [] sample NodeFunction.init) ->
       (N.of_nat (List.length q) < 1)%N).
Proof.
  intros H. specialize (H ["A"; "A1"] 0%N).
  assert (Hin : In (Visit ["A"; "A1"] 0%N)
    (DFS_log (NodeFunction.base TreeInfo.t) 1 [] sample NodeFunction.init)).
  { vm_compute. right. right. left. reflexivity. }
  specialize (H Hin). vm_compute in H. discriminate.
Qed.

(** ** The child map *)

Lemma compare_refl s : String.compare s s = Eq.
Proof.
  pose proof (String.compare_antisym s s) as H.
  destruct (String.compare s s); cbn in H; congruence.
Qed.

Lemma empty_true s : empty s = true <-> s = EmptyString.
Proof. destruct s; cbn; split; congruence. Qed.

Lemma empty_false s : empty s = false <-> s <> EmptyString.
Proof. destruct s; cbn; split; congruence. Qed.

Lemma map_find_set {V} k (v : V) m : map_find k (map_set k v m) = Some v.
Proof.
  induction m as [|[k' v'] m IH]; cbn [map_set map_find].
  - rewrite compare_refl. reflexivity.
  - destruct (String.compare k k') eqn:E; cbn [map_find].
    + rewrite compare_refl. reflexivity.
    + rewrite compare_refl. reflexivity.
    + rewrite E. exact IH.
Qed.

Lemma map_set_found {V} k (v : V) m : map_find k m = Some v -> map_set k v m = m.
Proof.
  induction m as [|[k' v'] m IH]; cbn [map_set map_find]; [discriminate|].
  destruct (String.compare k k') eqn:E; intros H.
  - apply String.compare_eq_iff in E. congruence.
  - discriminate.
  - rewrite IH by exact H. reflexivity.
Qed.

Lemma map_set_twice {V} k (v : V) m : map_set k v (map_set k v m) = map_set k v m.
Proof. apply map_set_found, map_find_set. Qed.

Lemma map_find_key {V} k (v : V) m :
  map_find k m = Some v -> In (k, v) m.
Proof.
  induction m as [|[k' v'] m IH]; cbn [map_find]; [discriminate|].
  destruct (String.compare k k') eqn:E; intros H.
  - apply String.compare_eq_iff in E. left. congruence.
  - discriminate.
  - right. exact (IH H).
Qed.

(** ** insert *)

Lemma insert_loop_data fuel pdelim InStr p node :
  data (insert_loop fuel pdelim InStr p node) = data node.
Proof.
  destruct fuel as [|fuel]; [reflexivity|]. cbn [insert_loop].
  destruct (getline InStr pdelim) as [[tok InStr']|]; [|reflexivity].
  destruct (empty tok); reflexivity.
Qed.

(** Walking the same path a second time finds every node in place. *)
Lemma insert_loop_idempotent pdelim : forall fuel InStr p node,
  insert_loop fuel pdelim InStr p (insert_loop fuel pdelim InStr p node)
  = insert_loop fuel pdelim InStr p node.
Proof.
  induction fuel as [|fuel IH]; intros InStr p node; [reflexivity|].
  cbn [insert_loop].
  destruct (getline InStr pdelim) as [[tok InStr']|] eqn:Eg.
  - destruct (empty tok) eqn:Et; [reflexivity|].
    cbn [children data].
    rewrite map_find_set, IH, map_set_twice. reflexivity.
  - reflexivity.
Qed.

Lemma getline_extract_length delim s :
  String.length (snd (getline_extract delim s)) <= String.length s.
Proof.
  induction s as [|c s IH]; cbn [getline_extract]; [auto|].
  destruct (Ascii.eqb c delim); cbn [snd String.length]; [lia|].
  destruct (getline_extract delim s) as [tok rest]. cbn [snd] in *. lia.
Qed.

Lemma getline_shorter InStr delim tok InStr' :
  getline InStr delim = Some (tok, InStr') ->
  String.length InStr' < String.length InStr.
Proof.
  destruct InStr as [|c s]; cbn [getline]; [discriminate|].
  intros H. injection H as H. cbn [getline_extract] in H.
  pose proof (getline_extract_length delim s) as Hl.
  destruct (Ascii.eqb c delim).
  - injection H as _ <-. cbn. lia.
  - destruct (getline_extract delim s) as [t r]. injection H as _ <-.
    cbn [snd String.length] in *. lia.
Qed.

(** Fuel above the length of the stream is never used up. *)
Lemma insert_loop_fuel pdelim : forall f1 f2 InStr p node,
  String.length InStr < f1 -> String.length InStr < f2 ->
  insert_loop f1 pdelim InStr p node = insert_loop f2 pdelim InStr p node.
Proof.
  induction f1 as [|f1 IH]; intros f2 InStr p node H1 H2; [lia|].
  destruct f2 as [|f2]; [lia|]. cbn [insert_loop].
  destruct (getline InStr pdelim) as [[tok InStr']|] eqn:Eg; [|reflexivity].
  apply getline_shorter in Eg.
  destruct (empty tok); [reflexivity|].
  rewrite (IH f2) by lia. reflexivity.
Qed.

(** *** The shape insert keeps *)

Lemma map_set_In {V} k (v : V) m x :
  In x (map_set k v m) -> x = (k, v) \/ In x m.
Proof.
  induction m as [|[k' v'] m IH]; cbn [map_set].
  - intros [H|[]]. left. congruence.
  - destruct (String.compare k k'); cbn [In].
    + intros [H|H]; [left; congruence | right; right; exact H].
    + intros [H|H]; [left; congruence | right; exact H].
    + intros [H|H]; [right; left; exact H|].
      destruct (IH H) as [E|E]; [left; exact E | right; right; exact E].
Qed.

Lemma compare_Gt_Lt a b : String.compare a b = Gt -> String.compare b a = Lt.
Proof. intros H. rewrite String.compare_antisym, H. reflexivity. Qed.

Lemma map_set_ascending {V} k (v : V) m : ascending m -> ascending (map_set k v m).
Proof.
  induction m as [|[k1 v1] m IH]; cbn [map_set]; [cbn; auto|].
  intros [Hh Ht]. destruct (String.compare k k1) eqn:E.
  - apply String.compare_eq_iff in E. subst k1. split; assumption.
  - split; [exact E | split; assumption].
  - apply compare_Gt_Lt in E. specialize (IH Ht).
    split; [|exact IH].
    destruct m as [|[k2 v2] m]; cbn [map_set]; [exact E|].
    destruct (String.compare k k2); assumption.
Qed.

Lemma insert_loop_ordered pdelim : forall fuel InStr p node,
  ordered node -> ordered (insert_loop fuel pdelim InStr p node).
Proof.
  induction fuel as [|fuel IH]; intros InStr p node Ho; [exact Ho|].
  cbn [insert_loop].
  destruct (getline InStr pdelim) as [[tok InStr']|]; [|exact Ho].
  destruct (empty tok); [exact Ho|].
  destruct Ho as [i cs Ha HF]. cbn [data children].
  constructor; [apply map_set_ascending; exact Ha|].
  apply Forall_forall. intros x Hx. apply map_set_In in Hx.
  destruct Hx as [->|Hx]; [|exact (proj1 (Forall_forall _ _) HF x Hx)].
  cbn [snd]. apply IH.
  destruct (map_find tok cs) as [c|] eqn:Hf.
  - apply map_find_key in Hf. exact (proj1 (Forall_forall _ _) HF _ Hf).
  - constructor; [exact I | constructor].
Qed.

Lemma insert_loop_keyed pdelim : forall fuel InStr p node,
  keyed_by_name node -> keyed_by_name (insert_loop fuel pdelim InStr p node).
Proof.
  induction fuel as [|fuel IH]; intros InStr p node Hk; [exact Hk|].
  cbn [insert_loop].
  destruct (getline InStr pdelim) as [[tok InStr']|]; [|exact Hk].
  destruct (empty tok); [exact Hk|].
  destruct Hk as [i cs HF]. cbn [data children].
  constructor. apply Forall_forall. intros x Hx. apply map_set_In in Hx.
  destruct Hx as [->|Hx]; [|exact (proj1 (Forall_forall _ _) HF x Hx)].
  cbn [fst snd]. rewrite insert_loop_data.
  destruct (map_find tok cs) as [c|] eqn:Hf.
  - apply map_find_key in Hf.
    destruct (proj1 (Forall_forall _ _) HF _ Hf) as [Hn Hc]. cbn [fst snd] in *.
    split; [exact Hn | apply IH; exact Hc].
  - split; [reflexivity|]. apply IH. constructor. constructor.
Qed.

(** What [insert] returns is a tree with its child maps in key order and
    its nodes stored under their names, when the tree it was given is. *)
Lemma insert_keeps_shape root path pdelim :
  ordered root /\ keyed_by_name root ->
  ordered (snd (insert root path pdelim))
  /\ keyed_by_name (snd (insert root path pdelim)).
Proof.
  intros [Ho Hk]. unfold insert. destruct (empty path); [split; assumption|].
  destruct (match getline path pdelim with
            | Some r => r
            | None => (EmptyString, EmptyString)
            end) as [tok InStr].
  destruct (empty (TreeInfo.name (data root))).
  - cbn [snd]. split.
    + apply insert_loop_ordered. destruct Ho as [i cs Ha HF].
      constructor; assumption.
    + apply insert_loop_keyed. destruct Hk as [i cs HF]. constructor. exact HF.
  - destruct (negb (empty tok) && _); cbn [snd]; [split; assumption|].
    split; [apply insert_loop_ordered | apply insert_loop_keyed]; assumption.
Qed.

Lemma insert_all_keeps_shape pdelim : forall paths root,
  ordered root /\ keyed_by_name root ->
  ordered (insert_all root paths pdelim)
  /\ keyed_by_name (insert_all root paths pdelim).
Proof.
  induction paths as [|path paths IH]; intros root H; [exact H|].
  cbn [insert_all fold_left]. apply IH. apply insert_keeps_shape. exact H.
Qed.

Lemma new_root_shape : ordered new_root /\ keyed_by_name new_root.
Proof. split; constructor; constructor. Qed.

(** C7.  Inserting a path a second time changes nothing: the call returns
    what the first call returned and the tree is the tree the first call
    left, every node along the path found and reused. *)
Theorem insert_idempotent (root : Node) (path : string) (pdelim : ascii) :
  insert (snd (insert root path pdelim)) path pdelim = insert root path pdelim.
Proof.
  unfold insert. destruct (empty path) eqn:Ep; [reflexivity|].
  destruct (match getline path pdelim with
            | Some r => r
            | None => (EmptyString, EmptyString)
            end) as [tok InStr].
  destruct (empty (TreeInfo.name (data root))) eqn:En.
  - cbn [snd]. rewrite insert_loop_data.
    cbn [data TreeInfo.set_name TreeInfo.name].
    destruct (empty tok) eqn:Et; cbn [empty negb andb].
    + rewrite insert_loop_idempotent. reflexivity.
    + rewrite Et, String.eqb_refl. cbn [negb andb].
      rewrite insert_loop_idempotent. reflexivity.
  - destruct (negb (empty tok)
              && negb (String.eqb (TreeInfo.name (data root)) tok)) eqn:Ec;
      cbn [snd].
    + rewrite En, Ec. reflexivity.
    + rewrite insert_loop_data, En, Ec, insert_loop_idempotent. reflexivity.
Qed.

(** C8.  The root has a name, the path leads with a segment that is not
    empty and is not that name: the call returns [false] and the tree is
    the tree it was given. *)
Theorem insert_root_name_conflict (root : Node) (path : string) (pdelim : ascii) :
  TreeInfo.name (data root) <> EmptyString ->
  leading_segment pdelim path <> EmptyString ->
  leading_segment pdelim path <> TreeInfo.name (data root) ->
  insert root path pdelim = (false, root).
Proof.
  unfold leading_segment, insert. intros Hn Ht Hd.
  destruct path as [|c path']; [cbn in Ht; congruence|].
  cbn [empty getline].
  destruct (getline_extract pdelim (String c path')) as [tok InStr].
  cbn [fst] in *.
  apply empty_false in Hn, Ht. rewrite Hn, Ht. cbn [negb andb].
  destruct (String.eqb_spec (TreeInfo.name (data root)) tok) as [E|E];
    [congruence | reflexivity].
Qed.

Lemma insert_root_name_conflict_witness :
  insert sample "X/A2" "/"%char = (false, sample).
Proof.
  apply (insert_root_name_conflict sample "X/A2" "/"%char).
  - vm_compute. discriminate.
  - vm_compute. discriminate.
  - vm_compute. discriminate.
Defined.

(** ** The empty path *)

(** C4, as the code has it.  [insert] given the empty path returns [false]
    and the tree as it was.  [follow] given the empty path does not report
    a failure: it returns the node it starts from, the current node when
    there is one and the root otherwise. *)
Theorem empty_path (root : Node) (pdelim : ascii) (node : option NodePtr) :
  insert root EmptyString pdelim = (false, root)
  /\ follow root EmptyString node
     = Ok (Some (match node with Some n => n | None => [] end)).
Proof. split; reflexivity. Qed.

(** [follow] on the empty path from the node [A]: the result is that node,
    not the null pointer. *)
Lemma follow_empty_path_found :
  follow sample EmptyString (Some ["A"]) = Ok (Some ["A"])
  /\ follow sample EmptyString (Some ["A"]) <> Ok None.
Proof. split; [reflexivity | discriminate]. Qed.

(** ** Strings *)

Lemma append_nil_r s : (s ++ EmptyString)%string = s.
Proof. induction s as [|c s IH]; cbn; [reflexivity | rewrite IH; reflexivity]. Qed.

Lemma append_assoc (a b c : string) :
  ((a ++ b) ++ c)%string = (a ++ (b ++ c))%string.
Proof. induction a as [|x a IH]; cbn; [reflexivity | rewrite IH; reflexivity]. Qed.

Lemma length_append (a b : string) :
  String.length (a ++ b) = String.length a + String.length b.
Proof. induction a as [|x a IH]; cbn; [reflexivity | rewrite IH; reflexivity]. Qed.

Lemma first_token_append delim s rest :
  has_char delim s = false -> at_boundary delim rest ->
  first_token delim (s ++ rest) = (s, rest).
Proof.
  induction s as [|c s IH]; cbn [has_char append first_token]; intros Hs Hr.
  - destruct rest as [|c rest]; [reflexivity|]. cbn in Hr. subst c.
    cbn [first_token]. rewrite Ascii.eqb_refl. reflexivity.
  - apply orb_false_iff in Hs. destruct Hs as [Hc Hs].
    rewrite Hc, (IH Hs Hr). reflexivity.
Qed.

Lemma first_token_length delim w :
  String.length (fst (first_token delim w)) + String.length (snd (first_token delim w))
  = String.length w.
Proof.
  induction w as [|c w IH]; cbn [first_token]; [reflexivity|].
  destruct (Ascii.eqb c delim); [reflexivity|].
  destruct (first_token delim w) as [tok rest]. cbn [fst snd String.length] in *.
  lia.
Qed.

Lemma star_translation_plain s : has_wildcard s = false -> star_translation s = s.
Proof.
  induction s as [|c s IH]; cbn [has_wildcard star_translation]; [reflexivity|].
  intros H. apply orb_false_iff in H. destruct H as [Hc Hs].
  unfold is_wildcard in Hc. apply orb_false_iff in Hc. destruct Hc as [Hc _].
  apply orb_false_iff in Hc. destruct Hc as [Hc _].
  apply orb_false_iff in Hc. destruct Hc as [Hc _].
  rewrite Hc, (IH Hs). reflexivity.
Qed.

Lemma star_translation_empty s : empty (star_translation s) = empty s.
Proof.
  destruct s as [|c s]; [reflexivity|]. cbn [star_translation].
  destruct (Ascii.eqb c star); reflexivity.
Qed.

(** ** adjustPattern *)

Lemma adjustPattern_spec w delim :
  Command.adjustPattern w delim =
  (star_translation (segment delim w),
   snd (first_token delim w),
   has_wildcard (segment delim w),
   has_char TreeInfo.delim (segment delim w)).
Proof.
  unfold segment.
  induction w as [|c w IH]; cbn [Command.adjustPattern first_token]; [reflexivity|].
  destruct (Ascii.eqb c delim); [reflexivity|].
  rewrite IH. destruct (first_token delim w) as [tok rest].
  cbn [fst snd star_translation has_wildcard has_char].
  destruct (Ascii.eqb_spec c star) as [->|_]; reflexivity.
Qed.

(** The pointer handed to the recursive call is further on in the word. *)
Lemma next_of_shorter a w :
  String.length
    (Command.next_of (snd (first_token TreeInfo.delim (String a w))))
  < String.length (String a w).
Proof.
  cbn [first_token]. destruct (Ascii.eqb a TreeInfo.delim).
  - cbn. lia.
  - pose proof (first_token_length TreeInfo.delim w) as H.
    destruct (first_token TreeInfo.delim w) as [tok rest]. cbn [fst snd] in *.
    destruct rest as [|c rest]; cbn [Command.next_of String.length] in *; lia.
Qed.

Lemma wi_shorter a w c wi' :
  empty (segment TreeInfo.delim (String a w)) = false ->
  snd (first_token TreeInfo.delim (String a w)) = String c wi' ->
  String.length wi' < String.length (String a w).
Proof.
  intros _ H. pose proof (next_of_shorter a w) as Hn. rewrite H in Hn. exact Hn.
Qed.

Lemma for_each_child_ext body1 body2 cs e :
  (forall key e, body1 key e = body2 key e) ->
  Command.for_each_child body1 cs e = Command.for_each_child body2 cs e.
Proof.
  intros H. revert e. induction cs as [|[k c] cs IH]; intros e; [reflexivity|].
  cbn [Command.for_each_child]. rewrite H. destruct (body2 k e); cbn [bind]; auto.
Qed.

Section Expansion.
Context {engine : RegexEngine}.

(** Fuel above the length of the word is never used up. *)
Lemma shellExpansion_rec_fuel : forall f1 f2 root node w e,
  String.length w < f1 -> String.length w < f2 ->
  Command.shellExpansion_rec f1 root node w e
  = Command.shellExpansion_rec f2 root node w e.
Proof.
  induction f1 as [|f1 IH]; intros f2 root node w e H1 H2; [lia|].
  destruct f2 as [|f2]; [lia|].
  cbn [Command.shellExpansion_rec].
  destruct w as [|a w]; [reflexivity|].
  rewrite adjustPattern_spec.
  pose proof (next_of_shorter a w) as Hn.
  set (wi := snd (first_token TreeInfo.delim (String a w))) in *.
  assert (Hrec : forall node e,
    Command.shellExpansion_rec f1 root node (Command.next_of wi) e
    = Command.shellExpansion_rec f2 root node (Command.next_of wi) e).
  { intros. apply IH; lia. }
  destruct (negb (empty (star_translation (segment TreeInfo.delim (String a w)))));
    [|apply Hrec].
  destruct (negb (has_wildcard (segment TreeInfo.delim (String a w)))).
  - destruct (String.eqb _ ".").
    + destruct wi as [|c wi'] eqn:Ewi; [reflexivity|].
      cbn [Command.next_of] in Hn. apply IH; lia.
    + destruct (node_at root node) as [n|]; [|reflexivity].
      destruct (String.eqb _ "..").
      * destruct (TreeInfo.parent (data n)); [apply Hrec | reflexivity].
      * destruct (map_find _ (children n)); [|reflexivity].
        rewrite Hrec. reflexivity.
  - destruct (regex_compile _) as [re|]; [|reflexivity].
    destruct (node_at root node) as [n|]; [|reflexivity].
    apply for_each_child_ext. intros key e'.
    destruct (regex_match key re); [|reflexivity].
    rewrite Hrec. reflexivity.
Qed.

(** One step of the expander, with the recursive calls as calls of the
    expander on the rest of the word. *)
Lemma shellExpansion_word_unfold root node a w e :
  Command.shellExpansion_word root node (String a w) e =
  let seg := segment TreeInfo.delim (String a w) in
  let wi := snd (first_token TreeInfo.delim (String a w)) in
  let next := Command.next_of wi in
  if negb (empty seg) then
    if negb (has_wildcard seg) then
      if String.eqb (star_translation seg) "." then
        match wi with
        | String _ wi' => Command.shellExpansion_word root node wi' e
        | EmptyString => Undefined
        end
      else
        match node_at root node with
        | None => Undefined
        | Some n =>
          if String.eqb (star_translation seg) ".." then
            match TreeInfo.parent (data n) with
            | Some up => Command.shellExpansion_word root up next e
            | None => Ok e
            end
          else
            match map_find (star_translation seg) (children n) with
            | Some _ =>
              e' <- Command.shellExpansion_word root
                      (node ++ [star_translation seg]) next
                      (Command.push (node ++ [star_translation seg]) e) ;;
              Ok (Command.pop e')
            | None => Ok e
            end
        end
    else
      match regex_compile (star_translation seg) with
      | None => RegexError
      | Some re =>
        match node_at root node with
        | None => Undefined
        | Some n =>
          Command.for_each_child
            (fun key e =>
               if regex_match key re then
                 e' <- Command.shellExpansion_word root (node ++ [key]) next
                         (Command.push (node ++ [key]) e) ;;
                 Ok (Command.pop e')
               else Ok e)
            (children n) e
        end
      end
  else Command.shellExpansion_word root node next e.
Proof.
  unfold Command.shellExpansion_word at 1.
  cbn [Command.shellExpansion_rec]. rewrite adjustPattern_spec.
  rewrite star_translation_empty.
  pose proof (next_of_shorter a w) as Hn.
  cbv zeta.
  set (wi := snd (first_token TreeInfo.delim (String a w))) in *.
  assert (Hrec : forall node e,
    Command.shellExpansion_rec (String.length (String a w)) root node
      (Command.next_of wi) e
    = Command.shellExpansion_word root node (Command.next_of wi) e).
  { intros. apply shellExpansion_rec_fuel; lia. }
  destruct (negb (empty (segment TreeInfo.delim (String a w)))); [|apply Hrec].
  destruct (negb (has_wildcard (segment TreeInfo.delim (String a w)))).
  - destruct (String.eqb _ ".").
    + destruct wi as [|c wi'] eqn:Ewi; [reflexivity|].
      cbn [Command.next_of] in Hn. apply shellExpansion_rec_fuel; lia.
    + destruct (node_at root node) as [n|]; [|reflexivity].
      destruct (String.eqb _ "..").
      * destruct (TreeInfo.parent (data n)); [apply Hrec | reflexivity].
      * destruct (map_find _ (children n)); [|reflexivity].
        rewrite Hrec. reflexivity.
  - destruct (regex_compile _) as [re|]; [|reflexivity].
    destruct (node_at root node) as [n|]; [|reflexivity].
    apply for_each_child_ext. intros key e'.
    destruct (regex_match key re); [|reflexivity].
    rewrite Hrec. reflexivity.
Qed.

End Expansion.

Lemma has_wildcard_nonempty s : has_wildcard s = true -> empty s = false.
Proof. destruct s; [discriminate | reflexivity]. Qed.

Lemma segment_nonempty delim w :
  empty (segment delim w) = false -> exists a w', w = String a w'.
Proof. destruct w as [|a w']; [discriminate | eauto]. Qed.

(** C1, as the code has it.  The token [adjustPattern] cuts off a word is
    its first segment with every [*] rewritten to [.*] and every other
    character, [?] among them, left as it stands, and the pattern flag says
    whether the segment holds a wildcard character.  For a segment that does,
    this token is what the expander hands to the [regex] constructor, and
    the children whose keys the compiled expression matches are the ones it
    descends into. *)
Theorem pattern_segment_translation {engine : RegexEngine}
    (root : Node) (node : NodePtr) (w : string) (e : Command.Expander) :
  has_wildcard (segment TreeInfo.delim w) = true ->
  Command.adjustPattern w TreeInfo.delim
  = (star_translation (segment TreeInfo.delim w),
     snd (first_token TreeInfo.delim w),
     true,
     has_char TreeInfo.delim (segment TreeInfo.delim w))
  /\ Command.shellExpansion_word root node w e
     = match regex_compile (star_translation (segment TreeInfo.delim w)) with
       | None => RegexError
       | Some re =>
         match node_at root node with
         | None => Undefined
         | Some n =>
           Command.for_each_child
             (fun key e =>
                if regex_match key re then
                  e' <- Command.shellExpansion_word root (node ++ [key])
                          (Command.next_of (snd (first_token TreeInfo.delim w)))
                          (Command.push (node ++ [key]) e) ;;
                  Ok (Command.pop e')
                else Ok e)
             (children n) e
         end
       end.
Proof.
  intros Hw. split.
  - rewrite adjustPattern_spec, Hw. reflexivity.
  - pose proof (has_wildcard_nonempty _ Hw) as Hne.
    destruct (segment_nonempty _ _ Hne) as (a & w' & ->).
    rewrite shellExpansion_word_unfold. cbv zeta. rewrite Hne, Hw. reflexivity.
Qed.

Lemma pattern_segment_translation_witness :
  Command.adjustPattern "A?*b/c" TreeInfo.delim = ("A?.*b", "/c", true, false).
Proof.
  apply (@pattern_segment_translation Command.literal_engine
           sample [] "A?*b/c" Command.cleared).
  reflexivity.
Defined.

(** The segment [A?] holds a wildcard, and the token made of it is [A?]
    itself, not [A.]: the [?] is not rewritten. *)
Lemma adjustPattern_keeps_question_mark :
  ~ (forall w, has_wildcard (segment TreeInfo.delim w) = true ->
       fst (fst (fst (Command.adjustPattern w TreeInfo.delim)))
       = glob_translation (segment TreeInfo.delim w)).
Proof.
  intros H. specialize (H "A?" eq_refl). vm_compute in H. discriminate.
Qed.

(** C3, as the code has it.  A [..] segment met at a node that has no
    parent ends that branch of the expansion: the call returns at once, no
    path is recorded and the members are as they were.  A word that climbs
    above the root expands to nothing. *)
Theorem dotdot_without_parent {engine : RegexEngine}
    (root : Node) (node : NodePtr) (n : Node) (w : string) (e : Command.Expander) :
  node_at root node = Some n ->
  TreeInfo.parent (data n) = None ->
  segment TreeInfo.delim w = ".." ->
  Command.shellExpansion_word root node w e = Ok e.
Proof.
  intros Hn Hp Hs.
  assert (Hne : empty (segment TreeInfo.delim w) = false) by (rewrite Hs; reflexivity).
  destruct (segment_nonempty _ _ Hne) as (a & w' & ->).
  rewrite shellExpansion_word_unfold. cbv zeta. rewrite Hs.
  cbn [empty negb has_wildcard is_wildcard star_translation].
  vm_compute (negb _). cbv iota. vm_compute (String.eqb _ ".").
  cbv iota. rewrite Hn. vm_compute (String.eqb _ "..").
  cbv iota. rewrite Hp. reflexivity.
Qed.

Lemma dotdot_without_parent_witness :
  @Command.shellExpansion_word Command.literal_engine single [] "../a"
     Command.cleared
  = Ok Command.cleared.
Proof.
  apply (@dotdot_without_parent Command.literal_engine single [] single "../a").
  - reflexivity.
  - reflexivity.
  - reflexivity.
Defined.

(** From the root of the tree with the one child [a], the word [../a]
    expands to nothing, the word [a] to the path [a]: the [..] at the root
    is not stepped over. *)
Lemma dotdot_at_root_stops :
  @Command.shellExpansion_word Command.literal_engine single [] "../a"
     Command.cleared
  = Ok Command.cleared
  /\ @Command.shellExpansion_word Command.literal_engine single [] "a"
       Command.cleared
     = Ok {| Command.pathSoFar := []; Command.paths := ["a"] |}
  /\ @Command.shellExpansion_word Command.literal_engine single [] "../a"
       Command.cleared
     <> @Command.shellExpansion_word Command.literal_engine single [] "a"
          Command.cleared.
Proof. repeat split; try reflexivity. vm_compute. discriminate. Qed.

(** ** Words without wildcards: the expander against [follow] *)

Lemma node_at_app {D} : forall p q (root : TreeNode D),
  node_at root (p ++ q)
  = match node_at root p with
    | Some n => node_at n q
    | None => None
    end.
Proof.
  induction p as [|k p IH]; intros q root; [reflexivity|].
  cbn [app node_at]. destruct (map_find k (children root)); [apply IH | reflexivity].
Qed.

Lemma node_at_snoc {D} (root n : TreeNode D) p k :
  node_at root p = Some n ->
  node_at root (p ++ [k]) = map_find k (children n).
Proof.
  intros H. rewrite node_at_app, H. cbn [node_at].
  destruct (map_find k (children n)); reflexivity.
Qed.

Lemma keyed_child (n c : Node) k :
  keyed_by_name n -> map_find k (children n) = Some c ->
  TreeInfo.name (data c) = k /\ keyed_by_name c.
Proof.
  intros Hn Hf. destruct Hn as [i cs HF]. cbn [children] in Hf.
  apply map_find_key in Hf. rewrite Forall_forall in HF.
  exact (HF _ Hf).
Qed.

Lemma keyed_at : forall p (root n : Node),
  keyed_by_name root -> node_at root p = Some n -> keyed_by_name n.
Proof.
  induction p as [|k p IH]; intros root n Hk Hn; cbn [node_at] in Hn.
  - congruence.
  - destruct (map_find k (children root)) as [c|] eqn:Hf; [|discriminate].
    destruct (keyed_child _ _ _ Hk Hf) as [_ Hc]. exact (IH _ _ Hc Hn).
Qed.

Lemma name_at_key (root c : Node) p k :
  keyed_by_name root -> node_at root (p ++ [k]) = Some c ->
  TreeInfo.name (data c) = k.
Proof.
  intros Hk Hc. rewrite node_at_app in Hc.
  destruct (node_at root p) as [n|] eqn:Hn; [|discriminate].
  cbn [node_at] in Hc.
  destruct (map_find k (children n)) as [c'|] eqn:Hf; [|discriminate].
  injection Hc as <-.
  exact (proj1 (keyed_child _ _ _ (keyed_at _ _ _ Hk Hn) Hf)).
Qed.

Lemma slashed_boundary rest : at_boundary TreeInfo.delim (slashed rest).
Proof. destruct rest; cbn; auto. Qed.

Lemma next_of_slashed rest : Command.next_of (slashed rest) = join rest.
Proof. destruct rest; reflexivity. Qed.

Lemma plain_name_facts s rest :
  plain_name s ->
  empty (s ++ slashed rest) = false
  /\ segment TreeInfo.delim (s ++ slashed rest) = s
  /\ snd (first_token TreeInfo.delim (s ++ slashed rest)) = slashed rest
  /\ empty s = false
  /\ has_wildcard s = false
  /\ star_translation s = s
  /\ String.eqb s "." = false
  /\ String.eqb s ".." = false.
Proof.
  intros (Hne & Hd & Hdd & Hdelim & Hw).
  unfold segment. rewrite first_token_append by (auto using slashed_boundary).
  cbn [fst snd]. repeat split; auto.
  - destruct s; [congruence | reflexivity].
  - apply empty_false. exact Hne.
  - apply star_translation_plain. exact Hw.
  - apply String.eqb_neq. exact Hd.
  - apply String.eqb_neq. exact Hdd.
Qed.

Lemma makePath_pathSoFar root e e' :
  Command.makePath root e = Ok e' ->
  Command.pathSoFar e' = Command.pathSoFar e.
Proof.
  unfold Command.makePath. destruct (Command.pathSoFar e) as [|first rest] eqn:E.
  - intros H. injection H as <-. rewrite E. reflexivity.
  - destruct (Command.name_of root first) as [nm| | | |]; cbn [bind]; try discriminate.
    destruct (Command.join_names root nm rest) as [path| | | |]; cbn [bind];
      try discriminate.
    intros H. injection H as <-. reflexivity.
Qed.

(** Leaving a pushed node: the result of the call below with the node
    popped. *)
Lemma pop_after_makePath root ps x pths :
  (e' <- Command.makePath root
           {| Command.pathSoFar := ps ++ [x]; Command.paths := pths |} ;;
   Ok (Command.pop e'))
  = (e' <- Command.makePath root
             {| Command.pathSoFar := ps ++ [x]; Command.paths := pths |} ;;
     Ok {| Command.pathSoFar := ps; Command.paths := Command.paths e' |}).
Proof.
  destruct (Command.makePath root _) as [e'| | | |] eqn:E; cbn [bind]; try reflexivity.
  apply makePath_pathSoFar in E. cbn [Command.pathSoFar] in E.
  unfold Command.pop. rewrite E, removelast_last. reflexivity.
Qed.

Section PlainWords.
Context {engine : RegexEngine}.
Variable root : Node.

Lemma shellExpansion_word_end node e :
  Command.shellExpansion_word root node EmptyString e = Command.makePath root e.
Proof. reflexivity. Qed.

Lemma shellExpansion_word_step node w e :
  empty w = false ->
  Command.shellExpansion_word root node w e =
  let seg := segment TreeInfo.delim w in
  let wi := snd (first_token TreeInfo.delim w) in
  let next := Command.next_of wi in
  if negb (empty seg) then
    if negb (has_wildcard seg) then
      if String.eqb (star_translation seg) "." then
        match wi with
        | String _ wi' => Command.shellExpansion_word root node wi' e
        | EmptyString => Undefined
        end
      else
        match node_at root node with
        | None => Undefined
        | Some n =>
          if String.eqb (star_translation seg) ".." then
            match TreeInfo.parent (data n) with
            | Some up => Command.shellExpansion_word root up next e
            | None => Ok e
            end
          else
            match map_find (star_translation seg) (children n) with
            | Some _ =>
              e' <- Command.shellExpansion_word root
                      (node ++ [star_translation seg]) next
                      (Command.push (node ++ [star_translation seg]) e) ;;
              Ok (Command.pop e')
            | None => Ok e
            end
        end
    else
      match regex_compile (star_translation seg) with
      | None => RegexError
      | Some re =>
        match node_at root node with
        | None => Undefined
        | Some n =>
          Command.for_each_child
            (fun key e =>
               if regex_match key re then
                 e' <- Command.shellExpansion_word root (node ++ [key]) next
                         (Command.push (node ++ [key]) e) ;;
                 Ok (Command.pop e')
               else Ok e)
            (children n) e
        end
      end
  else Command.shellExpansion_word root node next e.
Proof.
  destruct w as [|a w]; [discriminate|]. intros _.
  apply shellExpansion_word_unfold.
Qed.

(** The expander on a path of plain names: it walks down as far as the
    names lead, and at the end records the nodes it went through. *)
Lemma shellExpansion_plain : forall segs cur n ps pths,
  Forall plain_name segs ->
  node_at root cur = Some n ->
  Command.shellExpansion_word root cur (join segs)
    {| Command.pathSoFar := ps; Command.paths := pths |}
  = match node_at root (cur ++ segs) with
    | Some _ =>
      e' <- Command.makePath root
              {| Command.pathSoFar := ps ++ steps cur segs;
                 Command.paths := pths |} ;;
      Ok {| Command.pathSoFar := ps; Command.paths := Command.paths e' |}
    | None => Ok {| Command.pathSoFar := ps; Command.paths := pths |}
    end.
Proof.
  induction segs as [|s rest IH]; intros cur n ps pths Hp Hn.
  - cbn [join steps]. rewrite !app_nil_r, Hn, shellExpansion_word_end.
    destruct (Command.makePath root _) as [e'| | | |] eqn:E; cbn [bind];
      try reflexivity.
    apply makePath_pathSoFar in E. cbn in E. destruct e' as [ps' pths'].
    cbn in *. congruence.
  - inversion Hp as [|? ? Hs Hrest]; subst.
    destruct (plain_name_facts s rest Hs)
      as (Hne & Hseg & Hwi & Hes & Hw & Hst & Hd & Hdd).
    cbn [join steps]. rewrite shellExpansion_word_step by exact Hne.
    cbv zeta. rewrite Hseg, Hwi, Hes, Hw, Hst, Hd, Hn, Hdd, next_of_slashed.
    cbn [negb].
    replace (cur ++ s :: rest) with ((cur ++ [s]) ++ rest)
      by (rewrite <- app_assoc; reflexivity).
    rewrite (node_at_app (cur ++ [s]) rest), (node_at_snoc root n cur s Hn).
    destruct (map_find s (children n)) as [c|] eqn:Hf; [|reflexivity].
    unfold Command.push. cbn [Command.pathSoFar Command.paths].
    rewrite (IH (cur ++ [s]) c (ps ++ [cur ++ [s]]) pths Hrest)
      by (rewrite (node_at_snoc root n cur s Hn); exact Hf).
    rewrite (node_at_app (cur ++ [s]) rest), (node_at_snoc root n cur s Hn), Hf.
    destruct (node_at c rest) as [d|].
    + rewrite <- app_assoc. cbn [app].
      destruct (Command.makePath root _) as [e'| | | |]; cbn [bind]; try reflexivity.
      unfold Command.pop. cbn [Command.pathSoFar Command.paths].
      rewrite removelast_last. reflexivity.
    + cbn [bind]. unfold Command.pop. cbn [Command.pathSoFar Command.paths].
      rewrite removelast_last. reflexivity.
Qed.

Hypothesis Hkeyed : keyed_by_name root.

Lemma join_names_steps : forall rest cur acc d,
  node_at root (cur ++ rest) = Some d ->
  Command.join_names root acc (steps cur rest) = Ok (acc ++ slashed rest)%string.
Proof.
  induction rest as [|s rest IH]; intros cur acc d Hd.
  - cbn. rewrite append_nil_r. reflexivity.
  - cbn [steps Command.join_names slashed].
    replace (cur ++ s :: rest) with ((cur ++ [s]) ++ rest) in Hd
      by (rewrite <- app_assoc; reflexivity).
    pose proof Hd as Hd'. rewrite node_at_app in Hd'.
    unfold Command.name_of.
    destruct (node_at root (cur ++ [s])) as [c|] eqn:Hc; [|discriminate].
    rewrite (name_at_key root c cur s Hkeyed Hc). cbn [bind].
    rewrite (IH (cur ++ [s]) _ d Hd), append_assoc. reflexivity.
Qed.

(** What [makePath] forms of the nodes of a walk is the path walked. *)
Lemma makePath_steps s rest cur pths d :
  node_at root (cur ++ s :: rest) = Some d ->
  Command.makePath root
    {| Command.pathSoFar := steps cur (s :: rest); Command.paths := pths |}
  = Ok {| Command.pathSoFar := steps cur (s :: rest);
          Command.paths := pths ++ [join (s :: rest)] |}.
Proof.
  intros Hd. unfold Command.makePath. cbn [Command.pathSoFar Command.paths steps].
  replace (cur ++ s :: rest) with ((cur ++ [s]) ++ rest) in Hd
    by (rewrite <- app_assoc; reflexivity).
  pose proof Hd as Hd'. rewrite node_at_app in Hd'.
  unfold Command.name_of.
  destruct (node_at root (cur ++ [s])) as [c|] eqn:Hc; [|discriminate].
  rewrite (name_at_key root c cur s Hkeyed Hc). cbn [bind].
  rewrite (join_names_steps rest (cur ++ [s]) s d Hd). reflexivity.
Qed.

End PlainWords.

Lemma skip_delims_length delim path :
  String.length (skip_delims delim path) <= String.length path.
Proof.
  induction path as [|c path IH]; cbn [skip_delims]; [auto|].
  destruct (Ascii.eqb c delim); cbn [String.length]; lia.
Qed.

Lemma skip_delims_head delim path c rest :
  skip_delims delim path = String c rest -> Ascii.eqb c delim = false.
Proof.
  induction path as [|a path IH]; cbn [skip_delims]; [discriminate|].
  destruct (Ascii.eqb a delim) eqn:E; [exact IH|].
  intros H. injection H as <- _. exact E.
Qed.

(** Fuel above the length of the path is never used up. *)
Lemma follow_loop_fuel root : forall f1 f2 path cwd,
  String.length path < f1 -> String.length path < f2 ->
  follow_loop f1 root path cwd = follow_loop f2 root path cwd.
Proof.
  induction f1 as [|f1 IH]; intros f2 path cwd H1 H2; [lia|].
  destruct f2 as [|f2]; [lia|]. cbn [follow_loop].
  pose proof (skip_delims_length TreeInfo.delim path) as Hl.
  destruct (skip_delims TreeInfo.delim path) as [|c rest] eqn:Es; [reflexivity|].
  apply skip_delims_head in Es.
  pose proof (first_token_length TreeInfo.delim (String c rest)) as Hlen.
  cbn [first_token] in *. rewrite Es in *.
  destruct (first_token TreeInfo.delim rest) as [tok path2].
  cbn [fst snd String.length] in *.
  assert (Hrec : forall cwd,
    follow_loop f1 root path2 cwd = follow_loop f2 root path2 cwd)
    by (intros; apply IH; lia).
  destruct (String.eqb _ "."); [apply Hrec|].
  destruct (node_at root cwd) as [n|]; [|reflexivity].
  destruct (String.eqb _ "..").
  - destruct (TreeInfo.parent (data n)); apply Hrec.
  - destruct (map_find _ (children n)); [apply Hrec | reflexivity].
Qed.

Lemma follow_loop_leading_delim fuel root path cwd :
  follow_loop (S fuel) root (String TreeInfo.delim path) cwd
  = follow_loop (S fuel) root path cwd.
Proof. cbn [follow_loop skip_delims]. rewrite Ascii.eqb_refl. reflexivity. Qed.

Lemma follow_loop_end fuel root cwd :
  follow_loop fuel root EmptyString cwd = Ok (Some cwd).
Proof. destruct fuel; reflexivity. Qed.

Lemma follow_loop_slashed fuel root rest cwd :
  String.length (join rest) < fuel ->
  follow_loop fuel root (slashed rest) cwd = follow_loop fuel root (join rest) cwd.
Proof.
  destruct rest as [|s rest]; [reflexivity|]. intros H.
  destruct fuel as [|fuel]; [lia|].
  cbn [slashed join]. apply follow_loop_leading_delim.
Qed.

Lemma plain_name_head s :
  plain_name s ->
  exists a s', s = String a s' /\ Ascii.eqb a TreeInfo.delim = false.
Proof.
  intros (Hne & _ & _ & Hdelim & _). destruct s as [|a s']; [congruence|].
  cbn [has_char] in Hdelim. apply orb_false_iff in Hdelim.
  exists a, s'. split; [reflexivity | apply Hdelim].
Qed.

Lemma skip_spaces_id s : starts_with_space s = false -> skip_spaces s = s.
Proof. destruct s as [|c s]; cbn; [reflexivity|]. intros ->. reflexivity. Qed.

(** [follow] on a path of plain names: down the names, one child map after
    the other. *)
Lemma follow_loop_plain root : forall segs cur fuel n,
  String.length (join segs) < fuel ->
  node_at root cur = Some n ->
  Forall plain_name segs ->
  follow_loop fuel root (join segs) cur
  = match node_at root (cur ++ segs) with
    | Some _ => Ok (Some (cur ++ segs))
    | None => Ok None
    end.
Proof.
  induction segs as [|s rest IH]; intros cur fuel n Hf Hn Hp.
  - cbn [join]. rewrite follow_loop_end, app_nil_r, Hn. reflexivity.
  - inversion Hp as [|? ? Hs Hrest]; subst.
    destruct fuel as [|fuel]; [lia|].
    destruct (plain_name_facts s rest Hs)
      as (_ & _ & _ & _ & _ & _ & Hd & Hdd).
    destruct (plain_name_head s Hs) as (a & s' & -> & Ha).
    cbn [join] in *. cbn [follow_loop append skip_delims]. rewrite Ha.
    change (String a (s' ++ slashed rest))%string
      with (String a s' ++ slashed rest)%string.
    rewrite first_token_append
      by (destruct Hs as (_ & _ & _ & H & _); auto using slashed_boundary).
    rewrite Hd, Hn, Hdd.
    replace (cur ++ String a s' :: rest) with ((cur ++ [String a s']) ++ rest)
      by (rewrite <- app_assoc; reflexivity).
    rewrite (node_at_app (cur ++ [String a s']) rest),
      (node_at_snoc root n cur (String a s') Hn).
    destruct (map_find (String a s') (children n)) as [c|] eqn:Hc; [|reflexivity].
    rewrite length_append in Hf. cbn [String.length] in Hf.
    assert (Hlen : String.length (join rest) < fuel).
    { destruct rest as [|s2 r]; cbn [join slashed String.length] in *; lia. }
    rewrite follow_loop_slashed by exact Hlen.
    rewrite (IH (cur ++ [String a s']) fuel c Hlen) by
      (rewrite ?(node_at_snoc root n cur (String a s') Hn); assumption).
    rewrite (node_at_app (cur ++ [String a s']) rest),
      (node_at_snoc root n cur (String a s') Hn), Hc.
    reflexivity.
Qed.

Lemma follow_plain root cur n s rest :
  node_at root cur = Some n ->
  Forall plain_name (s :: rest) ->
  starts_with_space (join (s :: rest)) = false ->
  follow root (join (s :: rest)) (Some cur)
  = match node_at root (cur ++ s :: rest) with
    | Some _ => Ok (Some (cur ++ s :: rest))
    | None => Ok None
    end.
Proof.
  intros Hn Hp Hsp. unfold follow. rewrite skip_spaces_id by exact Hsp.
  inversion Hp as [|? ? Hs _]; subst.
  destruct (plain_name_head s Hs) as (a & s' & -> & Ha).
  cbn [join append]. rewrite Ha.
  change (String a (s' ++ slashed rest))%string
    with (join (String a s' :: rest)).
  apply (follow_loop_plain root (String a s' :: rest) cur _ n); auto.
Qed.

(** The word [..] holds no wildcard.  From the root [follow] resolves it,
    to the root itself; the expander returns no result for it. *)
Lemma dotdot_expands_to_nothing :
  has_wildcard ".." = false
  /\ follow single ".." (Some []) = Ok (Some [])
  /\ @Command.shellExpansion_word Command.literal_engine single [] ".."
       Command.cleared
     = Ok {| Command.pathSoFar := []; Command.paths := [] |}.
Proof. repeat split. Qed.

(** ** The argument list *)

Lemma bind_ok {A} (o : Outcome A) : (x <- o ;; Ok x) = o.
Proof. destruct o; reflexivity. Qed.

Lemma bind_assoc {A B C} (o : Outcome A) (f : A -> Outcome B) (g : B -> Outcome C) :
  (y <- (x <- o ;; f x) ;; g y) = (x <- o ;; y <- f x ;; g y).
Proof. destruct o; reflexivity. Qed.

Section Arguments.
Context {engine : RegexEngine}.
Variables (root : Node) (node : NodePtr).

(** The loop over the words treats them one after the other. *)
Lemma shellExpansion_app : forall a b,
  Command.shellExpansion root node (a ++ b)
  = (a' <- Command.shellExpansion root node a ;;
     b' <- Command.shellExpansion root node b ;;
     Ok (a' ++ b')).
Proof.
  induction a as [|w a IH]; intros b.
  - cbn [app Command.shellExpansion bind]. rewrite bind_ok. reflexivity.
  - cbn [app Command.shellExpansion]. rewrite IH.
    destruct (empty w); [reflexivity|].
    destruct (Command.wordType w).
    + reflexivity.
    + destruct (Command.shellExpansion root node a) as [a'| | | |]; cbn [bind];
        try reflexivity.
      destruct (Command.shellExpansion root node b); reflexivity.
    + destruct (Command.shellExpansion_word root node w Command.cleared)
        as [e| | | |]; cbn [bind]; try reflexivity.
      destruct (Command.shellExpansion root node a) as [a'| | | |]; cbn [bind];
        try reflexivity.
      destruct (Command.shellExpansion root node b) as [b'| | | |]; cbn [bind];
        try reflexivity.
      destruct (Command.paths e); cbn [app]; [reflexivity|].
      rewrite <- app_assoc. reflexivity.
    + destruct (Command.remove_quotes w) as [w'| | | |]; cbn [bind]; try reflexivity.
      destruct (Command.shellExpansion root node a) as [a'| | | |]; cbn [bind];
        try reflexivity.
      destruct (Command.shellExpansion root node b); reflexivity.
Qed.

End Arguments.

(** C10.  A word classified as a pattern whose expansion records no path
    stays in the argument list as it is, at its place: the list after the
    loop is the expansion of the words before it, the word itself, and the
    expansion of the words after it.  No error is raised for it. *)
Theorem unmatched_pattern_word_kept {engine : RegexEngine}
    (root : Node) (node : NodePtr) (pre post pre' post' : list string)
    (w : string) (e : Command.Expander) :
  Command.wordType w = Command.pattern_ ->
  Command.shellExpansion_word root node w Command.cleared = Ok e ->
  Command.paths e = [] ->
  Command.shellExpansion root node pre = Ok pre' ->
  Command.shellExpansion root node post = Ok post' ->
  Command.shellExpansion root node (pre ++ w :: post) = Ok (pre' ++ w :: post').
Proof.
  intros Hw He Hp Hpre Hpost.
  assert (Hne : empty w = false) by (destruct w; [discriminate | reflexivity]).
  rewrite shellExpansion_app, Hpre. cbn [bind Command.shellExpansion].
  rewrite Hne, Hw, He. cbn [bind]. rewrite Hpost. cbn [bind]. rewrite Hp. reflexivity.
Qed.

Lemma unmatched_pattern_word_kept_witness :
  @Command.shellExpansion Command.literal_engine sample [] ["ls"; "-l"; "x*"; "A"]
  = Ok ["ls"; "-l"; "x*"; "A"].
Proof.
  apply (@unmatched_pattern_word_kept Command.literal_engine sample []
           ["ls"; "-l"] ["A"] ["ls"; "-l"] ["A"] "x*" Command.cleared);
    reflexivity.
Defined.

(** ** Malformed words *)

Lemma makeArgs_loop_app cmdLine : forall a b m,
  Command.makeArgs_loop cmdLine (a ++ b) m
  = (m' <- Command.makeArgs_loop cmdLine a m ;; Command.makeArgs_loop cmdLine b m').
Proof.
  induction a as [|c a IH]; intros b m; [reflexivity|].
  cbn [append Command.makeArgs_loop].
  destruct (Command.makeArgs_step cmdLine m c); cbn [bind]; auto.
Qed.

Lemma token_char_inv c :
  token_char c = true -> isspace c = false /\ Ascii.eqb c dquote = false.
Proof.
  unfold token_char. intros H. apply andb_true_iff in H. destruct H as [H1 H2].
  apply negb_true_iff in H1, H2. auto.
Qed.

(** Inside an unquoted token the scan gathers the characters. *)
Lemma makeArgs_loop_token cmdLine : forall t ws w,
  all_chars token_char t = true ->
  Command.makeArgs_loop cmdLine t
    {| Command.state := Command.token; Command.words := ws; Command.word := w |}
  = Ok {| Command.state := Command.token; Command.words := ws;
          Command.word := (w ++ t)%string |}.
Proof.
  induction t as [|c t IH]; intros ws w H.
  - cbn. rewrite append_nil_r. reflexivity.
  - cbn [all_chars] in H. apply andb_true_iff in H. destruct H as [Hc Ht].
    destruct (token_char_inv c Hc) as [Hs Hq].
    cbn [Command.makeArgs_loop]. unfold Command.makeArgs_step.
    cbn [Command.state Command.words Command.word]. rewrite Hs, Hq. cbn [bind].
    rewrite (IH _ _ Ht). unfold Command.push_back. rewrite append_assoc.
    reflexivity.
Qed.

(** Inside quotes the scan gathers the characters up to the next quote. *)
Lemma makeArgs_loop_quoted cmdLine : forall body ws w,
  has_char dquote body = false ->
  Command.makeArgs_loop cmdLine body
    {| Command.state := Command.quoted; Command.words := ws; Command.word := w |}
  = Ok {| Command.state := Command.quoted; Command.words := ws;
          Command.word := (w ++ body)%string |}.
Proof.
  induction body as [|c body IH]; intros ws w H.
  - cbn. rewrite append_nil_r. reflexivity.
  - cbn [has_char] in H. apply orb_false_iff in H. destruct H as [Hc Hb].
    cbn [Command.makeArgs_loop]. unfold Command.makeArgs_step.
    cbn [Command.state Command.words Command.word]. rewrite Hc. cbn [bind].
    rewrite (IH _ _ Hb). unfold Command.push_back. rewrite append_assoc.
    reflexivity.
Qed.

(** From between two words, a character that is not white space opens a
    word. *)
Lemma makeArgs_step_open cmdLine m c :
  Command.state m = Command.none -> isspace c = false ->
  Command.makeArgs_step cmdLine m c
  = Ok {| Command.state :=
            if Ascii.eqb c dquote then Command.quoted else Command.token;
          Command.words := Command.words m;
          Command.word := String c EmptyString |}.
Proof. intros Hm Hc. unfold Command.makeArgs_step. rewrite Hm, Hc. reflexivity. Qed.

Lemma isspace_dquote : isspace dquote = false.
Proof. reflexivity. Qed.

(** The scan of a word that does not start with a quote accepts it only
    when its brackets match without nesting. *)
Lemma wordType_scan_valid : forall w isPat hasRange,
  Command.wordType_scan w isPat hasRange <> Command.invalid_ ->
  if hasRange
  then exists l, brackets w = false :: l /\ ranges_matched l
  else ranges_matched (brackets w).
Proof.
  induction w as [|c w IH]; intros isPat hasRange H.
  - cbn in H. destruct hasRange; [congruence | constructor].
  - cbn [Command.wordType_scan brackets] in *.
    destruct (Ascii.eqb c lbracket).
    + destruct hasRange; [congruence|].
      destruct (IH _ _ H) as (l & -> & Hl). constructor. exact Hl.
    + destruct (Ascii.eqb c rbracket).
      * destruct hasRange; [|congruence].
        exists (brackets w). split; [reflexivity | exact (IH _ _ H)].
      * exact (IH _ _ H).
Qed.

Lemma wordType_unmatched_brackets w :
  starts_with_quote w = false ->
  ~ ranges_matched (brackets w) ->
  Command.wordType w = Command.invalid_.
Proof.
  intros Hq Hb.
  assert (E : Command.wordType w = Command.wordType_scan w false false).
  { destruct w as [|c w]; [reflexivity|]. cbn in Hq. cbn [Command.wordType].
    rewrite Hq. reflexivity. }
  rewrite E.
  destruct (Command.wordType_scan w false false) eqn:Es; [reflexivity| | |];
    exfalso; apply Hb;
    apply (wordType_scan_valid w false false); rewrite Es; discriminate.
Qed.

Lemma ofile_no_redirect cmdLine :
  has_char ">"%char cmdLine = false -> ofile cmdLine = Ok EmptyString.
Proof.
  intros H. unfold ofile.
  assert (E : after_redirect cmdLine = None).
  { induction cmdLine as [|c l IH]; [reflexivity|].
    cbn [has_char] in H. apply orb_false_iff in H. destruct H as [Hc Hl].
    cbn [after_redirect]. rewrite Hc. exact (IH Hl). }
  rewrite E. reflexivity.
Qed.




(** ** The embedding at work *)

Example follow_absolute :
  follow sample "/A/A1/A23" (Some ["B"]) = Ok (Some ["A"; "A1"; "A23"]).
Proof. reflexivity. Qed.

Example follow_up_and_down :
  follow sample "../A2/." (Some ["A"; "A1"]) = Ok (Some ["A"; "A2"]).
Proof. reflexivity. Qed.

Example follow_no_such_node : follow sample "A/A3" None = Ok None.
Proof. reflexivity. Qed.

Example expansion_through_parent :
  @Command.shellExpansion_word Command.literal_engine sample ["A"; "A1"] "../A2"
    Command.cleared
  = Ok {| Command.pathSoFar := []; Command.paths := ["A2"] |}.
Proof. reflexivity. Qed.

Example expansion_trailing_dot :
  @Command.shellExpansion_word Command.literal_engine sample [] "A/."
    Command.cleared
  = Undefined.
Proof. reflexivity. Qed.

Example makeArgs_words :
  Command.makeArgs ("ls  -l " ++ String dquote ("a b" ++ String dquote "  c*"))
  = Ok ["ls"; "-l"; String dquote ("a b" ++ String dquote EmptyString); "c*"].
Proof. reflexivity. Qed.

Example construct_unquotes :
  @Command.construct Command.literal_engine sample (Some [])
    ("ls " ++ String dquote ("a b" ++ String dquote " A > out"))
  = Ok ["ls"; "a b"; "A"].
Proof. reflexivity. Qed.

Example sample_levels : setLevel sample = sample.
Proof. reflexivity. Qed.

(** * Further properties *)

(** ** insert: what it keeps and what it adds *)

Lemma insert_loop_parents pdelim : forall fuel InStr p node,
  parents_ok p node -> parents_ok p (insert_loop fuel pdelim InStr p node).
Proof.
  induction fuel as [|fuel IH]; intros InStr p node Hk; [exact Hk|].
  cbn [insert_loop].
  destruct (getline InStr pdelim) as [[tok InStr']|]; [|exact Hk].
  destruct (empty tok); [exact Hk|].
  destruct Hk as [p i cs HF]. cbn [data children].
  constructor. apply Forall_forall. intros x Hx. apply map_set_In in Hx.
  destruct Hx as [->|Hx]; [|exact (proj1 (Forall_forall _ _) HF x Hx)].
  cbn [fst snd]. rewrite insert_loop_data.
  destruct (map_find tok cs) as [c|] eqn:Hf.
  - apply map_find_key in Hf.
    destruct (proj1 (Forall_forall _ _) HF _ Hf) as [Hn Hc]. cbn [fst snd] in *.
    split; [exact Hn | apply IH; exact Hc].
  - split; [reflexivity|]. apply IH. constructor. constructor.
Qed.

Lemma insert_parent_of_root root path pdelim :
  TreeInfo.parent (data (snd (insert root path pdelim)))
  = TreeInfo.parent (data root).
Proof.
  unfold insert. destruct (empty path); [reflexivity|].
  destruct (match getline path pdelim with
            | Some r => r
            | None => (EmptyString, EmptyString)
            end) as [tok InStr].
  destruct (empty (TreeInfo.name (data root))).
  - cbn [snd]. rewrite insert_loop_data. reflexivity.
  - destruct (negb (empty tok) && _); cbn [snd]; [reflexivity|].
    rewrite insert_loop_data. reflexivity.
Qed.

Lemma insert_parents root path pdelim :
  parents_ok [] root -> parents_ok [] (snd (insert root path pdelim)).
Proof.
  intros Hp. unfold insert. destruct (empty path); [exact Hp|].
  destruct (match getline path pdelim with
            | Some r => r
            | None => (EmptyString, EmptyString)
            end) as [tok InStr].
  destruct (empty (TreeInfo.name (data root))).
  - cbn [snd]. apply insert_loop_parents. destruct Hp as [p i cs HF].
    constructor. exact HF.
  - destruct (negb (empty tok) && _); cbn [snd]; [exact Hp|].
    apply insert_loop_parents. exact Hp.
Qed.

(** X1.  [insert] keeps a tree well formed: after the call, whatever the
    path and whether or not it was accepted, the root still has no parent,
    every node points back to the node it hangs under, every child map is in
    ascending key order and every node is stored under its name. *)
Theorem insert_keeps_wellformed (root : Node) (path : string) (pdelim : ascii) :
  wellformed root -> wellformed (snd (insert root path pdelim)).
Proof.
  intros (Hr & Hp & Ho & Hk). unfold wellformed.
  rewrite insert_parent_of_root.
  destruct (insert_keeps_shape root path pdelim (conj Ho Hk)) as [Ho' Hk'].
  auto using insert_parents.
Qed.

Lemma new_root_wellformed : wellformed new_root.
Proof.
  split; [reflexivity|]. split; [constructor; constructor|].
  exact new_root_shape.
Qed.

Lemma insert_keeps_wellformed_witness :
  wellformed new_root
  /\ wellformed (snd (insert new_root "/A/A1/A23" "/"%char)).
Proof.
  split; [exact new_root_wellformed|].
  apply (insert_keeps_wellformed new_root "/A/A1/A23" "/"%char).
  exact new_root_wellformed.
Defined.

Lemma insert_all_wellformed pdelim : forall paths root,
  wellformed root -> wellformed (insert_all root paths pdelim).
Proof.
  induction paths as [|path paths IH]; intros root H; [exact H|].
  cbn [insert_all fold_left]. apply IH.
  destruct H as (Hr & Hp & Ho & Hk). unfold wellformed.
  rewrite insert_parent_of_root.
  destruct (insert_keeps_shape root path pdelim (conj Ho Hk)) as [Ho' Hk'].
  auto using insert_parents.
Qed.

Lemma sample_wellformed : wellformed sample.
Proof. apply insert_all_wellformed, new_root_wellformed. Qed.

(** *** Levels *)

Lemma insert_loop_depth pdelim : forall fuel InStr p node d,
  depth_is d node ->
  (d + N.of_nat (String.length InStr) < SizeT.modulus)%N ->
  depth_is d (insert_loop fuel pdelim InStr p node).
Proof.
  induction fuel as [|fuel IH]; intros InStr p node d Hd Hl; [exact Hd|].
  cbn [insert_loop].
  destruct (getline InStr pdelim) as [[tok InStr']|] eqn:Eg; [|exact Hd].
  apply getline_shorter in Eg.
  destruct (empty tok); [exact Hd|].
  destruct Hd as [d i cs Hi HF]. cbn [data children].
  constructor; [exact Hi|]. apply Forall_forall. intros x Hx.
  apply map_set_In in Hx.
  destruct Hx as [->|Hx]; [|exact (proj1 (Forall_forall _ _) HF x Hx)].
  cbn [snd]. apply IH; [|lia].
  destruct (map_find tok cs) as [c|] eqn:Hf.
  - apply map_find_key in Hf. exact (proj1 (Forall_forall _ _) HF _ Hf).
  - constructor; [|constructor]. cbn [TreeInfo.level]. rewrite Hi.
    apply incr_small. unfold SizeT.npos, SizeT.modulus in *. lia.
Qed.

(** X2.  The level [insert] records at creation is the depth: on a tree
    whose level fields are the depths, inserting a path (short of [2^64]
    characters) leaves every level field, the new nodes' included, equal to
    the depth of its node. *)
Theorem insert_keeps_levels (root : Node) (path : string) (pdelim : ascii) :
  depth_is 0 root ->
  (N.of_nat (String.length path) < SizeT.modulus)%N ->
  depth_is 0 (snd (insert root path pdelim)).
Proof.
  intros Hd Hl. unfold insert. destruct (empty path) eqn:Ep; [exact Hd|].
  assert (Hg : forall tok InStr,
    match getline path pdelim with
    | Some r => r
    | None => (EmptyString, EmptyString)
    end = (tok, InStr) ->
    (N.of_nat (String.length InStr) < SizeT.modulus)%N).
  { intros tok InStr E. destruct (getline path pdelim) as [[t r]|] eqn:Eg.
    - injection E as -> ->. apply getline_shorter in Eg. lia.
    - injection E as _ <-. cbn. reflexivity. }
  destruct (match getline path pdelim with
            | Some r => r
            | None => (EmptyString, EmptyString)
            end) as [tok InStr].
  specialize (Hg tok InStr eq_refl).
  destruct (empty (TreeInfo.name (data root))).
  - cbn [snd]. apply insert_loop_depth; [|exact Hg].
    destruct Hd as [d i cs Hi HF]. constructor; assumption.
  - destruct (negb (empty tok) && _); cbn [snd]; [exact Hd|].
    apply insert_loop_depth; assumption.
Qed.

Lemma insert_keeps_levels_witness :
  depth_is 0 (snd (insert new_root "/A/A1/A23" "/"%char)).
Proof.
  apply (insert_keeps_levels new_root "/A/A1/A23" "/"%char).
  - constructor; [reflexivity | constructor].
  - vm_compute. reflexivity.
Defined.

(** *** The order of the keys *)

Lemma ascii_compare_lt_trans a b c :
  Ascii.compare a b = Lt -> Ascii.compare b c = Lt -> Ascii.compare a c = Lt.
Proof.
  unfold Ascii.compare. rewrite !N.compare_lt_iff. apply N.lt_trans.
Qed.

Lemma compare_lt_trans : forall a b c,
  String.compare a b = Lt -> String.compare b c = Lt -> String.compare a c = Lt.
Proof.
  induction a as [|x a IH]; intros [|y b] [|z c]; cbn [String.compare];
    try congruence.
  destruct (Ascii.compare x y) eqn:Exy; try discriminate.
  - apply Ascii.compare_eq_iff in Exy. subst y.
    destruct (Ascii.compare x z); try congruence. apply IH.
  - intros _. destruct (Ascii.compare y z) eqn:Eyz; try discriminate.
    + apply Ascii.compare_eq_iff in Eyz. subst z. rewrite Exy. reflexivity.
    + intros _. rewrite (ascii_compare_lt_trans _ _ _ Exy Eyz). reflexivity.
Qed.

(** Writing under one key leaves the entries under the other keys. *)
Lemma map_find_set_other {V} k k' (v : V) m :
  k' <> k -> map_find k' (map_set k v m) = map_find k' m.
Proof.
  intros Hne.
  assert (Hk : String.compare k' k <> Eq).
  { intros E. apply String.compare_eq_iff in E. contradiction. }
  induction m as [|[k1 v1] m IH]; cbn [map_set map_find].
  - destruct (String.compare k' k); congruence.
  - destruct (String.compare k k1) eqn:E; cbn [map_find].
    + apply String.compare_eq_iff in E. subst k1.
      destruct (String.compare k' k); [congruence | reflexivity | reflexivity].
    + destruct (String.compare k' k) eqn:E'; [congruence| |reflexivity].
      rewrite (compare_lt_trans _ _ _ E' E). reflexivity.
    + destruct (String.compare k' k1); [reflexivity | reflexivity | exact IH].
Qed.

Lemma insert_loop_node_at pdelim : forall fuel InStr p node q n,
  node_at node q = Some n ->
  exists n', node_at (insert_loop fuel pdelim InStr p node) q = Some n'
             /\ data n' = data n.
Proof.
  induction fuel as [|fuel IH]; intros InStr p node q n Hq; [eauto|].
  cbn [insert_loop].
  destruct (getline InStr pdelim) as [[tok InStr']|]; [|eauto].
  destruct (empty tok); [eauto|].
  destruct q as [|k q'].
  - injection Hq as <-. eexists. split; reflexivity.
  - cbn [node_at children] in *.
    destruct (map_find k (children node)) as [c|] eqn:Hc; [|discriminate].
    destruct (String.eqb_spec k tok) as [->|Hne].
    + rewrite map_find_set, Hc. apply IH. exact Hq.
    + rewrite (map_find_set_other _ _ _ _ Hne), Hc. eauto.
Qed.

(** X3.  [insert] takes nothing away: every node of the tree is still
    there after the call, at the same address and, the name of the root
    apart, with the same data. *)
Theorem insert_keeps_nodes (root : Node) (path : string) (pdelim : ascii)
    (q : NodePtr) (n : Node) :
  node_at root q = Some n ->
  exists n', node_at (snd (insert root path pdelim)) q = Some n'
             /\ (q <> [] -> data n' = data n).
Proof.
  intros Hq. unfold insert. destruct (empty path); [eauto|].
  destruct (match getline path pdelim with
            | Some r => r
            | None => (EmptyString, EmptyString)
            end) as [tok InStr].
  destruct (empty (TreeInfo.name (data root))).
  - cbn [snd].
    set (root' := mkTreeNode _ (children root)).
    assert (Hq' : exists m, node_at root' q = Some m /\ (q <> [] -> m = n)).
    { destruct q as [|k q']; [eexists; split; [reflexivity | congruence]|].
      exists n. split; [exact Hq | reflexivity]. }
    destruct Hq' as (m & Hm & Hmn).
    destruct (insert_loop_node_at pdelim (S (String.length InStr)) InStr [] root'
                q m Hm) as (n' & Hn' & Hd).
    exists n'. split; [exact Hn'|]. intros Hne. rewrite Hd, (Hmn Hne). reflexivity.
  - destruct (negb (empty tok) && _); cbn [snd]; [eauto|].
    destruct (insert_loop_node_at pdelim (S (String.length InStr)) InStr [] root
                q n Hq) as (n' & Hn' & Hd).
    exists n'. split; [exact Hn' | intros _; exact Hd].
Qed.

Lemma insert_keeps_nodes_witness :
  exists n', node_at (snd (insert sample "/B/B2" "/"%char)) ["A"; "A1"] = Some n'
             /\ (["A"; "A1"] <> [] ->
                 data n' = {| TreeInfo.name := "A1"; TreeInfo.parent := Some ["A"];
                              TreeInfo.level := 2; TreeInfo.idx := 0 |}).
Proof.
  apply (insert_keeps_nodes sample "/B/B2" "/"%char ["A"; "A1"]
           (mkTreeNode {| TreeInfo.name := "A1"; TreeInfo.parent := Some ["A"];
                          TreeInfo.level := 2; TreeInfo.idx := 0 |}
              [("A23", mkTreeNode {| TreeInfo.name := "A23";
                                     TreeInfo.parent := Some ["A"; "A1"];
                                     TreeInfo.level := 3; TreeInfo.idx := 0 |} [])])).
  reflexivity.
Defined.

(** *** Insert, then look up *)

Lemma getline_extract_append s rest :
  has_char TreeInfo.delim s = false ->
  getline_extract TreeInfo.delim (s ++ slashed rest) = (s, join rest).
Proof.
  induction s as [|c s IH]; cbn [has_char append getline_extract]; intros Hs.
  - destruct rest as [|s2 r]; [reflexivity|].
    cbn [slashed getline_extract join]. rewrite Ascii.eqb_refl. reflexivity.
  - apply orb_false_iff in Hs. destruct Hs as [Hc Hs].
    rewrite Hc, (IH Hs). reflexivity.
Qed.

Lemma insert_loop_creates : forall segs fuel p node,
  Forall segment_name segs ->
  String.length (join segs) < fuel ->
  exists n,
    node_at (insert_loop fuel TreeInfo.delim (join segs) p node) segs = Some n.
Proof.
  induction segs as [|s rest IH]; intros fuel p node Hs Hf; [cbn; eauto|].
  inversion Hs as [|? ? [Hne Hd] Hrest]; subst.
  destruct fuel as [|fuel]; [lia|].
  cbn [join] in *.
  assert (Hlen : String.length (join rest) < fuel).
  { rewrite length_append in Hf.
    assert (0 < String.length s) by (destruct s; [congruence | cbn; lia]).
    destruct rest as [|s2 r]; cbn [join slashed String.length] in *; lia. }
  cbn [insert_loop]. unfold getline.
  destruct (s ++ slashed rest)%string as [|c t] eqn:E.
  { destruct s; [congruence | discriminate]. }
  rewrite <- E, (getline_extract_append s rest Hd).
  apply empty_false in Hne. rewrite Hne.
  cbn [node_at children]. rewrite map_find_set.
  apply IH; assumption.
Qed.

(** X4.  Insert, then look up: after the path [/s1/s2/.../sn] has been
    inserted (one or more plain names), [insert] has returned true and
    [follow] on that path, from any current node, arrives at the node
    reached from the root through the keys [s1], ..., [sn]. *)
Theorem insert_then_follow (root : Node) (segs : list string)
    (current : option NodePtr) :
  segs <> [] ->
  Forall plain_name segs ->
  fst (insert root (slashed segs) TreeInfo.delim) = true
  /\ follow (snd (insert root (slashed segs) TreeInfo.delim)) (slashed segs) current
     = Ok (Some segs).
Proof.
  intros Hne Hp.
  assert (Hs : Forall segment_name segs).
  { eapply Forall_impl; [|exact Hp]. intros s (H1 & _ & _ & H2 & _). split; auto. }
  destruct segs as [|s rest]; [congruence|].
  set (segs := s :: rest) in *.
  assert (Hpath : slashed segs = String TreeInfo.delim (join segs)) by reflexivity.
  assert (Hins : exists root',
    insert root (slashed segs) TreeInfo.delim
    = (true, insert_loop (S (String.length (join segs))) TreeInfo.delim
               (join segs) [] root')).
  { unfold insert. rewrite Hpath. cbn [empty getline getline_extract].
    rewrite Ascii.eqb_refl. cbn [empty negb andb].
    destruct (empty (TreeInfo.name (data root))); eauto. }
  destruct Hins as (root' & ->). cbn [fst snd]. split; [reflexivity|].
  destruct (insert_loop_creates segs (S (String.length (join segs))) [] root' Hs
              ltac:(lia)) as (n & Hn).
  unfold follow. rewrite Hpath. cbn [skip_spaces isspace]. 
  change (isspace TreeInfo.delim) with false. cbv iota.
  rewrite Ascii.eqb_refl.
  rewrite follow_loop_leading_delim.
  erewrite follow_loop_plain; [| cbn [String.length]; lia | reflexivity | exact Hp].
  cbn [app]. rewrite Hn. reflexivity.
Qed.

Lemma insert_then_follow_witness :
  fst (insert sample "/B/B2/B21" TreeInfo.delim) = true
  /\ follow (snd (insert sample "/B/B2/B21" TreeInfo.delim)) "/B/B2/B21"
       (Some ["A"])
     = Ok (Some ["B"; "B2"; "B21"]).
Proof.
  apply (insert_then_follow sample ["B"; "B2"; "B21"] (Some ["A"])).
  - discriminate.
  - repeat constructor; discriminate.
Defined.

Lemma getline_extract_before pdelim : forall pre tail,
  getline_extract pdelim (pre ++ String pdelim tail)
  = if has_char pdelim pre
    then (fst (getline_extract pdelim pre),
          (snd (getline_extract pdelim pre) ++ String pdelim tail)%string)
    else (pre, tail).
Proof.
  induction pre as [|c pre IH]; intros tail; cbn [has_char append getline_extract].
  - rewrite Ascii.eqb_refl. reflexivity.
  - destruct (Ascii.eqb c pdelim); [reflexivity|]. cbn [orb]. rewrite IH.
    destruct (has_char pdelim pre); [|reflexivity].
    destruct (getline_extract pdelim pre). reflexivity.
Qed.

Lemma getline_extract_shorter pdelim : forall pre,
  has_char pdelim pre = true ->
  String.length (snd (getline_extract pdelim pre)) < String.length pre.
Proof.
  induction pre as [|c pre IH]; cbn [has_char getline_extract]; [discriminate|].
  destruct (Ascii.eqb c pdelim); cbn [orb]; [cbn; lia|].
  intros H. specialize (IH H).
  destruct (getline_extract pdelim pre). cbn [snd String.length] in *. lia.
Qed.

Lemma getline_nonempty InStr pdelim c tail :
  getline (InStr ++ String c tail) pdelim
  = Some (getline_extract pdelim (InStr ++ String c tail)).
Proof. destruct InStr; reflexivity. Qed.

(** Past a doubled delimiter the loop reads nothing. *)
Lemma insert_loop_cut pdelim rest : forall n pre,
  String.length pre <= n ->
  forall f1 f2 p node,
    String.length (pre ++ String pdelim (String pdelim rest)) < f1 ->
    String.length (pre ++ String pdelim EmptyString) < f2 ->
    insert_loop f1 pdelim (pre ++ String pdelim (String pdelim rest)) p node
    = insert_loop f2 pdelim (pre ++ String pdelim EmptyString) p node.
Proof.
  induction n as [|n IH]; intros pre Hn f1 f2 p node H1 H2;
    (destruct f1 as [|f1]; [lia|]); (destruct f2 as [|f2]; [lia|]);
    cbn [insert_loop]; rewrite !getline_nonempty, !getline_extract_before.
  - destruct pre; [|cbn in Hn; lia]. cbn [has_char empty]. reflexivity.
  - destruct (has_char pdelim pre) eqn:Hc.
    + pose proof (getline_extract_shorter pdelim pre Hc) as Hs.
      destruct (getline_extract pdelim pre) as [tok mid]. cbn [fst snd] in *.
      destruct (empty tok); [reflexivity|].
      rewrite !length_append in *. cbn [String.length] in *.
      rewrite (IH mid ltac:(lia) f1 f2); [reflexivity | |];
        rewrite length_append; cbn [String.length]; lia.
    + destruct (empty pre); [reflexivity|].
      destruct f1 as [|f1]; [cbn in H1; rewrite length_append in H1; cbn in H1; lia|].
      cbn [insert_loop getline getline_extract]. rewrite Ascii.eqb_refl.
      cbn [empty]. destruct f2; reflexivity.
Qed.

(** X5.  An empty segment ends the insertion: what follows a doubled
    delimiter is dropped without notice, and the call does what it does for
    the path cut after the first of the two delimiters. *)
Theorem insert_stops_at_empty_segment (root : Node) (pre rest : string)
    (pdelim : ascii) :
  insert root (pre ++ String pdelim (String pdelim rest)) pdelim
  = insert root (pre ++ String pdelim EmptyString) pdelim.
Proof.
  unfold insert.
  assert (He : forall tail, empty (pre ++ String pdelim tail) = false)
    by (intros; destruct pre; reflexivity).
  rewrite !He, !getline_nonempty, !getline_extract_before.
  destruct (has_char pdelim pre) eqn:Hc.
  - pose proof (getline_extract_shorter pdelim pre Hc) as Hs.
    destruct (getline_extract pdelim pre) as [tok mid]. cbn [fst snd] in *.
    assert (E : forall node,
      insert_loop (S (String.length (mid ++ String pdelim (String pdelim rest))))
        pdelim (mid ++ String pdelim (String pdelim rest)) [] node
      = insert_loop (S (String.length (mid ++ String pdelim EmptyString)))
          pdelim (mid ++ String pdelim EmptyString) [] node).
    { intros node. apply (insert_loop_cut pdelim rest (String.length mid) mid);
        lia. }
    rewrite !E. reflexivity.
  - cbn [insert_loop getline getline_extract String.length].
    rewrite Ascii.eqb_refl. cbn [empty]. reflexivity.
Qed.

(** ** follow: safety, composition, there and back *)

Lemma node_at_prefix {D} (root : TreeNode D) p q :
  node_at root (p ++ q) <> None -> node_at root p <> None.
Proof. rewrite node_at_app. destruct (node_at root p); congruence. Qed.

(** On a well-formed tree the parent pointer of the node at an address is
    that address without its last key. *)
Lemma parent_below : forall p q (node n : Node),
  parents_ok q node -> node_at node p = Some n -> p <> [] ->
  TreeInfo.parent (data n) = Some (q ++ removelast p).
Proof.
  induction p as [|k p IH]; intros q node n Hp Hn Hne; [congruence|].
  destruct Hp as [q i cs HF]. cbn [node_at children] in Hn.
  destruct (map_find k cs) as [c|] eqn:Hc; [|discriminate].
  apply map_find_key in Hc.
  destruct (proj1 (Forall_forall _ _) HF _ Hc) as [Hpar Hsub].
  cbn [fst snd] in *. destruct p as [|k' p'].
  - injection Hn as <-. cbn [removelast]. rewrite app_nil_r. exact Hpar.
  - rewrite (IH (q ++ [k]) c n Hsub Hn ltac:(discriminate)).
    rewrite <- app_assoc. reflexivity.
Qed.

Lemma parent_at (root n : Node) p :
  wellformed root -> node_at root p = Some n ->
  TreeInfo.parent (data n)
  = match p with [] => None | _ :: _ => Some (removelast p) end.
Proof.
  intros (Hr & Hp & _) Hn. destruct p as [|k p'].
  - injection Hn as <-. exact Hr.
  - apply (parent_below (k :: p') [] root n Hp Hn). discriminate.
Qed.

Lemma node_at_removelast {D} (root : TreeNode D) p :
  node_at root p <> None -> node_at root (removelast p) <> None.
Proof.
  destruct p as [|k p'] using rev_ind; [auto|].
  rewrite removelast_last. apply node_at_prefix.
Qed.

Lemma follow_loop_safe root : wellformed root ->
  forall fuel path cwd,
    node_at root cwd <> None ->
    exists r, follow_loop fuel root path cwd = Ok r /\ live root r.
Proof.
  intros Hw. induction fuel as [|fuel IH]; intros path cwd Hc;
    [exists (Some cwd); split; [reflexivity | exact Hc]|].
  cbn [follow_loop].
  destruct (skip_delims TreeInfo.delim path) as [|c rest];
    [exists (Some cwd); split; [reflexivity | exact Hc]|].
  destruct (first_token TreeInfo.delim (String c rest)) as [tok path2].
  destruct (String.eqb tok "."); [apply IH; exact Hc|].
  destruct (node_at root cwd) as [n|] eqn:Hn; [|congruence].
  destruct (String.eqb tok "..").
  - rewrite (parent_at root n cwd Hw Hn). destruct cwd as [|k p'].
    + apply IH. rewrite Hn. discriminate.
    + apply IH. apply node_at_removelast. rewrite Hn. discriminate.
  - destruct (map_find tok (children n)) as [c'|] eqn:Hf.
    + apply IH. rewrite (node_at_snoc root n cwd tok Hn), Hf. discriminate.
    + exists None. split; [reflexivity | exact I].
Qed.

(** X6.  On a well-formed tree [follow] is safe: started from the root or
    from a node of the tree it returns, for every path, either the null
    pointer or the address of a node of the tree; it never follows a
    dangling pointer. *)
Theorem follow_safe (root : Node) (arg : string) (node : option NodePtr) :
  wellformed root -> live root node ->
  exists r, follow root arg node = Ok r /\ live root r.
Proof.
  intros Hw Hl. unfold follow. apply follow_loop_safe; [exact Hw|].
  assert (H0 : node_at root [] <> None) by discriminate.
  assert (Hc : node_at root match node with Some n => n | None => [] end <> None)
    by (destruct node; [exact Hl | exact H0]).
  destruct (skip_spaces arg) as [|c s]; [exact Hc|].
  destruct (Ascii.eqb c TreeInfo.delim); [exact H0 | exact Hc].
Qed.

Lemma follow_safe_witness :
  exists r, follow sample "../../B/./B1//" (Some ["A"; "A2"]) = Ok r
            /\ live sample r.
Proof.
  apply (follow_safe sample "../../B/./B1//" (Some ["A"; "A2"])).
  - exact sample_wellformed.
  - cbn. discriminate.
Defined.

(** *** Composition *)

Lemma skip_delims_append d : forall p1 p2,
  skip_delims d (p1 ++ String d p2)
  = match skip_delims d p1 with
    | EmptyString => skip_delims d p2
    | String c r => (String c r ++ String d p2)%string
    end.
Proof.
  induction p1 as [|c p1 IH]; intros p2; cbn [append skip_delims].
  - rewrite Ascii.eqb_refl. reflexivity.
  - destruct (Ascii.eqb c d); [apply IH | reflexivity].
Qed.

Lemma first_token_before d : forall a b,
  first_token d (a ++ String d b)
  = (fst (first_token d a), (snd (first_token d a) ++ String d b)%string).
Proof.
  induction a as [|c a IH]; intros b; cbn [append first_token].
  - rewrite Ascii.eqb_refl. reflexivity.
  - destruct (Ascii.eqb c d); [reflexivity|]. rewrite IH.
    destruct (first_token d a). reflexivity.
Qed.

Lemma follow_loop_same_start fuel root path path' cwd :
  skip_delims TreeInfo.delim path = skip_delims TreeInfo.delim path' ->
  follow_loop (S fuel) root path cwd = follow_loop (S fuel) root path' cwd.
Proof. intros E. cbn [follow_loop]. rewrite E. reflexivity. Qed.

Lemma skip_delims_idem d p : skip_delims d (skip_delims d p) = skip_delims d p.
Proof.
  induction p as [|c p IH]; [reflexivity|]. cbn [skip_delims].
  destruct (Ascii.eqb c d) eqn:E; [exact IH|]. cbn [skip_delims]. rewrite E.
  reflexivity.
Qed.

(** The loop on [p1/p2] is the loop on [p1], then the loop on [p2] from
    where that one arrived. *)
Lemma follow_loop_compose root : forall fuel p1 p2 cwd,
  String.length (p1 ++ String TreeInfo.delim p2) < fuel ->
  follow_loop fuel root (p1 ++ String TreeInfo.delim p2) cwd
  = match follow_loop fuel root p1 cwd with
    | Ok (Some dst) => follow_loop fuel root p2 dst
    | other => other
    end.
Proof.
  induction fuel as [|fuel IH]; intros p1 p2 cwd Hf; [lia|].
  rewrite length_append in Hf. cbn [String.length] in Hf.
  pose proof (skip_delims_length TreeInfo.delim p1) as Hl1.
  destruct (skip_delims TreeInfo.delim p1) as [|c r] eqn:E1.
  - assert (E : follow_loop (S fuel) root p1 cwd = Ok (Some cwd))
      by (cbn [follow_loop]; rewrite E1; reflexivity).
    rewrite E. apply follow_loop_same_start.
    rewrite skip_delims_append, E1. reflexivity.
  - pose proof (skip_delims_head _ _ _ _ E1) as Hc.
    pose proof (first_token_length TreeInfo.delim (String c r)) as Hlen.
    cbn [follow_loop]. rewrite skip_delims_append, E1.
    cbn [append].
    change (first_token TreeInfo.delim (String c (r ++ String TreeInfo.delim p2)))
      with (first_token TreeInfo.delim (String c r ++ String TreeInfo.delim p2)).
    rewrite first_token_before.
    cbn [first_token] in *. rewrite Hc in *.
    destruct (first_token TreeInfo.delim r) as [tok path2].
    cbn [fst snd String.length] in *.
    assert (Hrec : forall cwd',
      follow_loop fuel root (path2 ++ String TreeInfo.delim p2) cwd'
      = match follow_loop fuel root path2 cwd' with
        | Ok (Some dst) => follow_loop (S fuel) root p2 dst
        | other => other
        end).
    { intros cwd'. rewrite IH by (rewrite length_append; cbn [String.length]; lia).
      destruct (follow_loop fuel root path2 cwd') as [[dst|]| | | |];
        try reflexivity.
      apply follow_loop_fuel; lia. }
    destruct (String.eqb _ "."); [apply Hrec|].
    destruct (node_at root cwd) as [n|]; [|reflexivity].
    destruct (String.eqb _ "..").
    + destruct (TreeInfo.parent (data n)); apply Hrec.
    + destruct (map_find _ (children n)); [apply Hrec | reflexivity].
Qed.

Lemma follow_as_loop root p cur fuel :
  plain_start p = true -> String.length p < fuel ->
  follow root p (Some cur) = follow_loop fuel root p cur.
Proof.
  intros Hp Hf. unfold follow. destruct p as [|c p']; [destruct fuel; reflexivity|].
  cbn [plain_start] in Hp. apply andb_true_iff in Hp. destruct Hp as [Hs Hd].
  apply negb_true_iff in Hs, Hd. cbn [skip_spaces]. rewrite Hs, Hd.
  apply follow_loop_fuel; cbn [String.length] in *; lia.
Qed.

(** X7.  Following [p1/p2] is following [p1] and then, from where that
    arrived, [p2]; when [p1] leads nowhere, so does [p1/p2].  ([p1] is not
    empty and has no white space in front; [p2] starts neither with white
    space nor with another delimiter.) *)
Theorem follow_compose (root : Node) (p1 p2 : string) (node : option NodePtr) :
  p1 <> EmptyString ->
  starts_with_space p1 = false ->
  plain_start p2 = true ->
  follow root (p1 ++ String TreeInfo.delim p2) node
  = match follow root p1 node with
    | Ok (Some dst) => follow root p2 (Some dst)
    | other => other
    end.
Proof.
  intros Hne Hsp Hp2. destruct p1 as [|c p1']; [congruence|].
  cbn [starts_with_space] in Hsp.
  unfold follow at 1 2. cbn [append skip_spaces]. rewrite Hsp.
  set (cwd := if Ascii.eqb c TreeInfo.delim then []
              else match node with Some n => n | None => [] end).
  change (String c (p1' ++ String TreeInfo.delim p2))
    with (String c p1' ++ String TreeInfo.delim p2)%string.
  rewrite follow_loop_compose by lia.
  rewrite (follow_loop_fuel root _ (S (String.length (String c p1')))
             (String c p1') cwd)
    by (rewrite ?length_append; cbn [String.length]; lia).
  destruct (follow_loop (S (String.length (String c p1'))) root (String c p1') cwd)
    as [[dst|]| | | |]; try reflexivity.
  symmetry. apply follow_as_loop; [exact Hp2|].
  rewrite length_append. cbn [String.length]. lia.
Qed.

Lemma follow_compose_witness :
  follow sample "../A2/../A1/A23" (Some ["A"; "A1"])
  = match follow sample "../A2" (Some ["A"; "A1"]) with
    | Ok (Some dst) => follow sample "../A1/A23" (Some dst)
    | other => other
    end.
Proof.
  apply (follow_compose sample "../A2" "../A1/A23" (Some ["A"; "A1"])).
  - discriminate.
  - reflexivity.
  - reflexivity.
Defined.

(** *** There and back *)

Lemma slashed_app a b : slashed (a ++ b) = (slashed a ++ slashed b)%string.
Proof.
  induction a as [|s a IH]; [reflexivity|]. cbn [app slashed append].
  rewrite IH, append_assoc. reflexivity.
Qed.

Lemma join_app a b :
  a <> [] -> b <> [] ->
  join (a ++ b) = (join a ++ String TreeInfo.delim (join b))%string.
Proof.
  intros Ha Hb. destruct a as [|s a]; [congruence|].
  destruct b as [|t b]; [congruence|].
  cbn [app join]. rewrite slashed_app, append_assoc. reflexivity.
Qed.

Lemma follow_loop_up root fuel p k :
  wellformed root -> node_at root (p ++ [k]) <> None ->
  follow_loop (S fuel) root ".." (p ++ [k]) = Ok (Some p).
Proof.
  intros Hw Hn. destruct (node_at root (p ++ [k])) as [n|] eqn:E; [|congruence].
  cbn [follow_loop skip_delims first_token]. 
  change (Ascii.eqb "."%char TreeInfo.delim) with false. cbv iota.
  cbn [String.eqb Ascii.eqb Bool.eqb]. cbv iota. rewrite E.
  rewrite (parent_at root n (p ++ [k]) Hw E).
  destruct (p ++ [k]) as [|x l] eqn:Ep; [destruct p; discriminate|].
  rewrite <- Ep, removelast_last. apply follow_loop_end.
Qed.

Lemma follow_there_and_back_loop root : wellformed root ->
  forall segs cur fuel,
    Forall plain_name segs ->
    node_at root (cur ++ segs) <> None ->
    String.length (join (segs ++ repeat ".." (List.length segs))) < fuel ->
    follow_loop fuel root (join (segs ++ repeat ".." (List.length segs))) cur
    = Ok (Some cur).
Proof.
  intros Hw. induction segs as [|s rest IH]; intros cur fuel Hp Hn Hf.
  - cbn. apply follow_loop_end.
  - inversion Hp as [|? ? Hs Hrest]; subst.
    assert (Hn1 : node_at root (cur ++ [s]) <> None).
    { apply (node_at_prefix root (cur ++ [s]) rest).
      rewrite <- app_assoc. exact Hn. }
    assert (Hn2 : node_at root ((cur ++ [s]) ++ rest) <> None)
      by (rewrite <- app_assoc; exact Hn).
    cbn [List.length] in *.
    remember (rest ++ repeat ".." (List.length rest)) as X eqn:EX0.
    assert (EX : (s :: rest) ++ repeat ".." (S (List.length rest))
                 = [s] ++ (X ++ [".."])).
    { cbn [repeat]. rewrite repeat_cons, EX0.
      cbn [app]. rewrite <- app_assoc. reflexivity. }
    rewrite EX in Hf |- *.
    rewrite join_app in Hf |- * by (try discriminate; destruct X; discriminate).
    rewrite length_append in Hf. cbn [String.length] in Hf.
    rewrite follow_loop_compose by (rewrite length_append; cbn [String.length]; lia).
    destruct (node_at root cur) as [n|] eqn:Hc;
      [|exfalso; apply (node_at_prefix root cur (s :: rest)) in Hn; congruence].
    rewrite (follow_loop_plain root [s] cur fuel n) by (auto; lia).
    destruct (node_at root (cur ++ [s])) as [c|] eqn:Hc1; [|congruence].
    destruct fuel as [|fuel]; [lia|].
    specialize (IH (cur ++ [s]) (S fuel) Hrest Hn2).
    destruct X as [|x X'].
    + cbn [app join slashed append].
      apply follow_loop_up; [exact Hw | rewrite Hc1; discriminate].
    + rewrite join_app in Hf |- * by discriminate.
      rewrite length_append in Hf. cbn [String.length] in Hf.
      rewrite follow_loop_compose
        by (rewrite length_append; cbn [String.length]; lia).
      rewrite IH by lia.
      apply follow_loop_up; [exact Hw | rewrite Hc1; discriminate].
Qed.

(** X8.  There and back: on a well-formed tree, a path of plain names that
    leads from a node to a node below it, followed by as many [..] as it has
    names, brings [follow] back to the node it started from. *)
Theorem follow_there_and_back (root : Node) (cur : NodePtr) (segs : list string) :
  wellformed root ->
  Forall plain_name segs ->
  node_at root (cur ++ segs) <> None ->
  starts_with_space (join segs) = false ->
  follow root (join (segs ++ repeat ".." (List.length segs))) (Some cur)
  = Ok (Some cur).
Proof.
  intros Hw Hp Hn Hsp.
  rewrite (follow_as_loop root _ cur
             (S (String.length (join (segs ++ repeat ".." (List.length segs))))));
    [apply follow_there_and_back_loop; auto | | lia].
  destruct segs as [|s rest]; [reflexivity|].
  inversion Hp as [|? ? Hs _]; subst.
  destruct (plain_name_head s Hs) as (a & s' & -> & Ha).
  cbn [app join append plain_start]. cbn [join append starts_with_space] in Hsp.
  rewrite Hsp, Ha. reflexivity.
Qed.

Lemma follow_there_and_back_witness :
  follow sample "A1/A23/../.." (Some ["A"]) = Ok (Some ["A"]).
Proof.
  apply (follow_there_and_back sample ["A"] ["A1"; "A23"]).
  - exact sample_wellformed.
  - repeat constructor; discriminate.
  - cbn. discriminate.
  - reflexivity.
Defined.

(** ** PWD::get *)

Lemma slashed_snoc q k :
  slashed (q ++ [k]) = (slashed q ++ String TreeInfo.delim k)%string.
Proof. rewrite slashed_app. cbn [slashed]. rewrite append_nil_r. reflexivity. Qed.

Lemma parent_at_snoc (root n : Node) q k :
  wellformed root -> node_at root (q ++ [k]) = Some n ->
  TreeInfo.parent (data n) = Some q.
Proof.
  intros Hw E. rewrite (parent_at root n (q ++ [k]) Hw E).
  destruct (q ++ [k]) as [|x l] eqn:Eq; [destruct q; discriminate|].
  rewrite <- Eq, removelast_last. reflexivity.
Qed.

Lemma get_loop_chain root : wellformed root ->
  forall q fuel acc,
    node_at root q <> None ->
    Forall segment_name q ->
    List.length q < fuel ->
    PWD.get_loop fuel root acc (Some q)
    = Some (Ok (root_part root ++ slashed q ++ String TreeInfo.delim acc)%string).
Proof.
  intros Hw. induction q as [|k q IH] using rev_ind; intros fuel acc Hn Hs Hf.
  - destruct fuel as [|fuel]; [cbn in Hf; lia|].
    cbn [PWD.get_loop node_at slashed append].
    destruct Hw as (Hr & _). rewrite Hr. unfold root_part.
    destruct fuel; destruct (PWD.starts_with _ _); reflexivity.
  - destruct fuel as [|fuel]; [cbn in Hf; lia|].
    rewrite length_app in Hf. cbn [List.length] in Hf.
    apply Forall_app in Hs. destruct Hs as [Hq Hk].
    inversion Hk as [|? ? [Hne Hd] _]; subst.
    assert (Hq' : node_at root q <> None) by exact (node_at_prefix root q [k] Hn).
    cbn [PWD.get_loop].
    destruct (node_at root (q ++ [k])) as [n|] eqn:E; [|congruence].
    rewrite (parent_at_snoc root n q k Hw E).
    rewrite (name_at_key root n q k (proj2 (proj2 (proj2 Hw))) E).
    assert (Hsw : PWD.starts_with TreeInfo.delim k = false).
    { destruct k as [|c k']; [reflexivity|]. cbn [has_char] in Hd.
      apply orb_false_iff in Hd. apply Hd. }
    rewrite Hsw, IH by (assumption || lia).
    rewrite slashed_snoc, !append_assoc. reflexivity.
Qed.

Lemma pwd_path_general (root : Node) (segs : list string) (fuel : nat) :
  wellformed root ->
  node_at root segs <> None ->
  Forall segment_name segs ->
  List.length segs <= fuel ->
  PWD.get fuel root segs
  = Some (Ok (match segs with
              | [] => TreeInfo.name (data root)
              | _ :: _ => (root_part root ++ slashed segs)%string
              end)).
Proof.
  intros Hw Hn Hs Hf. unfold PWD.get.
  destruct segs as [|k q _] using rev_ind.
  - cbn [node_at]. rewrite (proj1 Hw). destruct fuel; reflexivity.
  - assert (Hq' : node_at root q <> None) by exact (node_at_prefix root q [k] Hn).
    destruct (node_at root (q ++ [k])) as [n|] eqn:E; [|congruence].
    rewrite length_app in Hf. cbn [List.length] in Hf.
    apply Forall_app in Hs. destruct Hs as [Hq _].
    rewrite (parent_at_snoc root n q k Hw E).
    rewrite (get_loop_chain root Hw q fuel) by (assumption || lia).
    rewrite (name_at_key root n q k (proj2 (proj2 (proj2 Hw))) E), slashed_snoc.
    destruct (q ++ [k]) eqn:Eq; [destruct q; discriminate|].
    reflexivity.
Qed.

Lemma ancestors_text_snoc q k :
  ancestors_text (q ++ [k])
  = (ancestors_text q ++ ancestor_part k ++ String TreeInfo.delim EmptyString)%string.
Proof.
  induction q as [|s q IH]; cbn [app ancestors_text].
  - reflexivity.
  - rewrite IH, append_assoc. reflexivity.
Qed.

(** The walk up from the node at [q], whatever the names are. *)
Lemma get_loop_ancestors root : wellformed root ->
  forall q fuel acc,
    node_at root q <> None ->
    List.length q < fuel ->
    PWD.get_loop fuel root acc (Some q)
    = Some (Ok (root_part root
                ++ String TreeInfo.delim (ancestors_text q ++ acc))%string).
Proof.
  intros Hw. induction q as [|k q IH] using rev_ind; intros fuel acc Hn Hf.
  - destruct fuel as [|fuel]; [cbn in Hf; lia|].
    cbn [PWD.get_loop node_at ancestors_text append].
    destruct Hw as (Hr & _). rewrite Hr. unfold root_part.
    destruct fuel; destruct (PWD.starts_with _ _); reflexivity.
  - destruct fuel as [|fuel]; [cbn in Hf; lia|].
    rewrite length_app in Hf. cbn [List.length] in Hf.
    assert (Hq' : node_at root q <> None) by exact (node_at_prefix root q [k] Hn).
    cbn [PWD.get_loop].
    destruct (node_at root (q ++ [k])) as [n|] eqn:E; [|congruence].
    rewrite (parent_at_snoc root n q k Hw E).
    rewrite (name_at_key root n q k (proj2 (proj2 (proj2 Hw))) E).
    rewrite ancestors_text_snoc, !append_assoc. unfold ancestor_part.
    destruct (PWD.starts_with TreeInfo.delim k);
      rewrite IH by (assumption || lia); reflexivity.
Qed.

Lemma ancestors_text_plain : forall q k,
  Forall (fun s => PWD.starts_with TreeInfo.delim s = false) q ->
  String TreeInfo.delim (ancestors_text q ++ k) = slashed (q ++ [k]).
Proof.
  induction q as [|s q IH]; intros k H.
  - cbn [ancestors_text app slashed append]. rewrite append_nil_r. reflexivity.
  - inversion H as [|? ? Hs Hq]; subst.
    cbn [ancestors_text app slashed]. unfold ancestor_part. rewrite Hs.
    rewrite append_assoc. cbn [append]. rewrite (IH k Hq). reflexivity.
Qed.

(** X9.  On a well-formed tree the walk of [PWD::get] from the node at the
    address [s1, ..., sn] ends within [n] rounds.  For the root it yields
    the name of the root.  For a node below it yields the chain
    [root/s1/.../sn] in which the name of the root and of every node
    passed on the way up is left out when it starts with the delimiter
    (the delimiter behind it stays).  When none of [s1, ..., sn] starts
    with the delimiter this is the name of the root (unless that starts
    with the delimiter), then [/s1/s2/.../sn]. *)
Theorem pwd_path (root : Node) (segs : list string) (fuel : nat) :
  wellformed root ->
  node_at root segs <> None ->
  List.length segs <= fuel ->
  PWD.get fuel root segs = Some (Ok (pwd_text root segs))
  /\ (Forall (fun s => PWD.starts_with TreeInfo.delim s = false) segs ->
      pwd_text root segs
      = match segs with
        | [] => TreeInfo.name (data root)
        | _ :: _ => (root_part root ++ slashed segs)%string
        end).
Proof.
  intros Hw Hn Hf. split.
  - unfold PWD.get, pwd_text.
    destruct segs as [|k q _] using rev_ind.
    + cbn [node_at]. rewrite (proj1 Hw). destruct fuel; reflexivity.
    + assert (Hq' : node_at root q <> None)
        by exact (node_at_prefix root q [k] Hn).
      destruct (node_at root (q ++ [k])) as [n|] eqn:E; [|congruence].
      rewrite length_app in Hf. cbn [List.length] in Hf.
      rewrite (parent_at_snoc root n q k Hw E).
      rewrite (get_loop_ancestors root Hw q fuel) by (assumption || lia).
      rewrite (name_at_key root n q k (proj2 (proj2 (proj2 Hw))) E).
      rewrite removelast_last, last_last.
      destruct (q ++ [k]) eqn:Eq; [destruct q; discriminate|].
      reflexivity.
  - intros Hs. unfold pwd_text.
    destruct segs as [|k q _] using rev_ind; [reflexivity|].
    apply Forall_app in Hs. destruct Hs as [Hq _].
    rewrite removelast_last, last_last, (ancestors_text_plain q k Hq).
    destruct (q ++ [k]) eqn:Eq; [destruct q; discriminate|].
    reflexivity.
Qed.

Lemma pwd_path_witness :
  PWD.get 3 sample ["A"; "A1"; "A23"] = Some (Ok "/A/A1/A23")
  /\ PWD.get 2 (insert_all new_root ["r:/x:y"] ":"%char) ["/x"; "y"]
     = Some (Ok "r//y").
Proof.
  split.
  - destruct (pwd_path sample ["A"; "A1"; "A23"] 3) as [Hget Htext].
    + exact sample_wellformed.
    + cbn. discriminate.
    + cbn. lia.
    + rewrite Hget, Htext by (repeat constructor). reflexivity.
  - destruct (pwd_path (insert_all new_root ["r:/x:y"] ":"%char) ["/x"; "y"] 2)
      as [Hget _].
    + apply insert_all_wellformed, new_root_wellformed.
    + cbn. discriminate.
    + cbn. lia.
    + rewrite Hget. reflexivity.
Defined.

Lemma follow_slashed root segs current :
  Forall plain_name segs ->
  node_at root segs <> None ->
  follow root (slashed segs) current
  = Ok (Some (match segs with
              | [] => match current with Some n => n | None => [] end
              | _ :: _ => segs
              end)).
Proof.
  intros Hp Hn. destruct segs as [|s rest]; [reflexivity|].
  unfold follow. cbn [slashed skip_spaces].
  change (isspace TreeInfo.delim) with false. cbv iota.
  rewrite Ascii.eqb_refl, follow_loop_leading_delim.
  change (s ++ slashed rest)%string with (join (s :: rest)).
  erewrite follow_loop_plain; [| cbn [String.length]; lia | reflexivity | exact Hp].
  cbn [app]. destruct (node_at root (s :: rest)); [reflexivity | congruence].
Qed.

(** X10.  Print the working directory, then change to what was printed:
    on a well-formed tree whose root is named [/], the path [PWD::get]
    yields for a node reached through plain names is a path that [follow]
    resolves, from any current node, to that same node. *)
Theorem pwd_then_follow (root : Node) (segs : list string)
    (current : option NodePtr) :
  wellformed root ->
  TreeInfo.name (data root) = String TreeInfo.delim EmptyString ->
  node_at root segs <> None ->
  Forall plain_name segs ->
  exists path,
    PWD.get (List.length segs) root segs = Some (Ok path)
    /\ follow root path current = Ok (Some segs).
Proof.
  intros Hw Hname Hn Hp.
  assert (Hs : Forall segment_name segs).
  { eapply Forall_impl; [|exact Hp]. intros s (H1 & _ & _ & H2 & _). split; auto. }
  rewrite (pwd_path_general root segs _ Hw Hn Hs (le_n _)).
  eexists. split; [reflexivity|].
  destruct segs as [|s rest].
  - rewrite Hname. unfold follow. cbn [skip_spaces].
    change (isspace TreeInfo.delim) with false. cbv iota.
    rewrite Ascii.eqb_refl. reflexivity.
  - unfold root_part. rewrite Hname. cbn [PWD.starts_with].
    rewrite Ascii.eqb_refl. cbn [append].
    rewrite (follow_slashed root (s :: rest) current Hp Hn). reflexivity.
Qed.

Lemma pwd_then_follow_witness :
  exists path,
    PWD.get 2 sample ["B"; "B1"] = Some (Ok path)
    /\ follow sample path (Some ["A"; "A1"]) = Ok (Some ["B"; "B1"]).
Proof.
  apply (pwd_then_follow sample ["B"; "B1"] (Some ["A"; "A1"])).
  - exact sample_wellformed.
  - reflexivity.
  - cbn. discriminate.
  - repeat constructor; discriminate.
Defined.

(** ** countNodes *)

Lemma in_band_unfold {D} d lo hi (i : D) cs :
  in_band d lo hi (mkTreeNode i cs)
  = (if (lo <=? d)%N && (d <? hi)%N then 1 else 0)
    + in_band_children (d + 1) lo hi cs.
Proof.
  cbn [in_band]. f_equal. induction cs as [|[k c] cs IH]; [reflexivity|].
  cbn [in_band_children]. rewrite <- IH. reflexivity.
Qed.

Lemma add_mod_step c a b :
  (((c + a) mod SizeT.modulus + b) mod SizeT.modulus
   = (c + (a + b)) mod SizeT.modulus)%N.
Proof. rewrite N.Div0.add_mod_idemp_l. f_equal. lia. Qed.

(** One run of [DFS] with [NodeCounter] on a subtree that hangs at depth
    [d]: the tree is as it was, the level counter is back at [d], and [n]
    has gone up by the nodes of the subtree in the band. *)
Lemma DFS_NodeCounter {D} : forall (node : TreeNode D) d i cnt lo hi p,
  (d + N.of_nat (height node) <= SizeT.npos)%N ->
  DFS NodeCounter.func SizeT.npos p node
    (NodeCounter.mk (NodeFunction.mkBase d i) (cnt mod SizeT.modulus)%N lo hi)
  = (node,
     NodeCounter.mk (NodeFunction.mkBase d i)
       ((cnt + N.of_nat (in_band d lo hi node)) mod SizeT.modulus)%N lo hi).
Proof.
  induction node as [info cs IH] using TreeNode_rect'. intros d i cnt lo hi p Hh.
  rewrite height_unfold in Hh. rewrite in_band_unfold.
  rewrite DFS_unfold.
  cbn [NodeFunction.level NodeCounter.func NodeCounter.base NodeFunction.level_].
  assert (Hd : (d < SizeT.npos)%N) by lia.
  apply N.ltb_lt in Hd as Hb. rewrite Hb.
  cbn [NodeFunction.call NodeFunction.onExit NodeCounter.func children data
       NodeCounter.base NodeCounter.n NodeCounter.minLevel NodeCounter.maxLevel
       NodeFunction.level_ NodeFunction.idx_].
  rewrite incr_small by exact Hd.
  set (here := if (lo <=? d)%N && (d <? hi)%N then 1 else 0).
  assert (Hcnt : (if (lo <=? d)%N && (d <? hi)%N
                  then SizeT.incr (cnt mod SizeT.modulus)%N
                  else (cnt mod SizeT.modulus)%N)
                 = ((cnt + N.of_nat here) mod SizeT.modulus)%N).
  { unfold here, SizeT.incr. destruct ((lo <=? d)%N && (d <? hi)%N).
    - rewrite N.Div0.add_mod_idemp_l. reflexivity.
    - rewrite N.add_0_r. reflexivity. }
  rewrite Hcnt.
  assert (E : forall l c0,
    Forall (fun kc : Key * TreeNode D => forall d i cnt lo hi p,
              (d + N.of_nat (height (snd kc)) <= SizeT.npos)%N ->
              DFS NodeCounter.func SizeT.npos p (snd kc)
                (NodeCounter.mk (NodeFunction.mkBase d i)
                   (cnt mod SizeT.modulus)%N lo hi)
              = (snd kc,
                 NodeCounter.mk (NodeFunction.mkBase d i)
                   ((cnt + N.of_nat (in_band d lo hi (snd kc)))
                      mod SizeT.modulus)%N lo hi)) l ->
    (d + 1 + N.of_nat (height_children l) <= SizeT.npos)%N ->
    DFS_children NodeCounter.func SizeT.npos p l
      (NodeCounter.mk (NodeFunction.mkBase (d + 1) i)
         (c0 mod SizeT.modulus)%N lo hi)
    = (l, NodeCounter.mk (NodeFunction.mkBase (d + 1) i)
            ((c0 + N.of_nat (in_band_children (d + 1) lo hi l))
               mod SizeT.modulus)%N lo hi)).
  { induction l as [|[k c] l IHl]; intros c0 HF Hl.
    - cbn. rewrite N.add_0_r. reflexivity.
    - inversion HF as [|? ? Hc HF']; subst. cbn [snd] in Hc.
      cbn [height_children] in Hl. cbn [DFS_children in_band_children].
      rewrite Hc by lia. rewrite IHl by (assumption || lia).
      do 3 f_equal. lia. }
  rewrite (E cs _ IH) by lia.
  cbn [NodeCounter.base NodeCounter.n NodeCounter.minLevel NodeCounter.maxLevel
       NodeFunction.level_ NodeFunction.idx_ data].
  rewrite decr_succ by exact Hd. do 3 f_equal. lia.
Qed.

(** X11.  [countNodes(root, lo, hi)] is the number of nodes whose depth
    lies in the band from [lo], included, to [hi], excluded -- as a
    [size_t], that is modulo [2^64] -- on every tree with at most [2^64-1]
    levels. *)
Theorem countNodes_counts_band {D} (root : TreeNode D) (lo hi : N) :
  (N.of_nat (height root) <= SizeT.npos)%N ->
  countNodes root lo hi
  = (N.of_nat (in_band 0 lo hi root) mod SizeT.modulus)%N.
Proof.
  intros Hh. unfold countNodes, NodeCounter.init, NodeFunction.init.
  change 0%N with (0 mod SizeT.modulus)%N at 3.
  rewrite DFS_NodeCounter by lia. reflexivity.
Qed.

Lemma countNodes_counts_band_witness : countNodes sample 0 2 = 3%N.
Proof.
  apply (countNodes_counts_band sample 0 2). vm_compute. discriminate.
Defined.

(** ** findLeftmost and findRightmost *)

Lemma findLeftmost_unfold {D} (i : D) cs level :
  findLeftmost (mkTreeNode i cs) level
  = if (level =? 0)%N then Some [] else findLeftmost_children cs (level - 1).
Proof.
  cbn [findLeftmost]. destruct (level =? 0)%N; [reflexivity|].
  induction cs as [|[k c] cs IH]; [reflexivity|].
  cbn [findLeftmost_children]. rewrite <- IH. reflexivity.
Qed.

Lemma findRightmost_unfold {D} (i : D) cs level :
  findRightmost (mkTreeNode i cs) level
  = if (level =? 0)%N then Some [] else findRightmost_children cs (level - 1).
Proof.
  cbn [findRightmost]. destruct (level =? 0)%N; [reflexivity|].
  induction cs as [|[k c] cs IH]; [reflexivity|].
  cbn [findRightmost_children]. rewrite <- IH. reflexivity.
Qed.

Lemma ascending_tail_lt {V} : forall (m : list (Key * V)) k v k2 v2,
  ascending ((k, v) :: m) -> In (k2, v2) m -> String.compare k k2 = Lt.
Proof.
  induction m as [|[k1 v1] m IH]; intros k v k2 v2 Ha Hin; [destruct Hin|].
  destruct Ha as [Hlt Ha]. destruct Hin as [E|Hin].
  - injection E as <- _. exact Hlt.
  - exact (compare_lt_trans _ _ _ Hlt (IH k1 v1 k2 v2 Ha Hin)).
Qed.

(** In a map in key order every entry is found under its key. *)
Lemma map_find_in_ascending {V} : forall (m : list (Key * V)) k v,
  ascending m -> In (k, v) m -> map_find k m = Some v.
Proof.
  induction m as [|[k1 v1] m IH]; intros k v Ha Hin; [destruct Hin|].
  cbn [map_find]. destruct Hin as [E|Hin].
  - injection E as <- <-. rewrite compare_refl. reflexivity.
  - pose proof (ascending_tail_lt m k1 v1 k v Ha Hin) as Hlt.
    rewrite String.compare_antisym, Hlt. cbn [CompOpp].
    apply IH; [exact (proj2 Ha) | exact Hin].
Qed.

Lemma leftmost_children lv : forall l : list (Key * Node),
  ascending l ->
  Forall (fun kc => leftmost_ok (snd kc) lv) l ->
  match findLeftmost_children l lv with
  | Some r =>
    exists key child p',
      r = key :: p' /\ In (key, child) l /\ findLeftmost child lv = Some p'
      /\ forall k2 c2 q',
           In (k2, c2) l -> List.length q' = N.to_nat lv ->
           node_at c2 q' <> None ->
           String.compare key k2 = Lt \/ (k2 = key /\ c2 = child)
  | None =>
    forall k2 c2 q',
      In (k2, c2) l -> List.length q' = N.to_nat lv -> node_at c2 q' = None
  end.
Proof.
  induction l as [|[k c] l IH]; intros Ha HF; [intros ? ? ? []|].
  inversion HF as [|? ? Hc HF']; subst. cbn [snd] in Hc.
  cbn [findLeftmost_children]. unfold leftmost_ok in Hc.
  destruct (findLeftmost c lv) as [p'|] eqn:Ec.
  - exists k, c, p'.
    split; [reflexivity|]. split; [left; reflexivity|]. split; [exact Ec|].
    intros k2 c2 q' [E|Hin] _ _.
    + injection E as <- <-. right. split; reflexivity.
    + left. exact (ascending_tail_lt l k c k2 c2 Ha Hin).
  - specialize (IH (proj2 Ha) HF').
    destruct (findLeftmost_children l lv) as [r|].
    + destruct IH as (key & child & p' & -> & Hin & Hf & Hall).
      exists key, child, p'.
      split; [reflexivity|]. split; [right; exact Hin|]. split; [exact Hf|].
      intros k2 c2 q' [E|Hin2] Hl Hn.
      * injection E as <- <-. exfalso. apply Hn. exact (Hc q' Hl).
      * exact (Hall k2 c2 q' Hin2 Hl Hn).
    + intros k2 c2 q' [E|Hin2] Hl.
      * injection E as <- <-. exact (Hc q' Hl).
      * exact (IH k2 c2 q' Hin2 Hl).
Qed.

Lemma rightmost_children lv : forall l : list (Key * Node),
  ascending l ->
  Forall (fun kc => rightmost_ok (snd kc) lv) l ->
  match findRightmost_children l lv with
  | Some r =>
    exists key child p',
      r = key :: p' /\ In (key, child) l /\ findRightmost child lv = Some p'
      /\ forall k2 c2 q',
           In (k2, c2) l -> List.length q' = N.to_nat lv ->
           node_at c2 q' <> None ->
           String.compare k2 key = Lt \/ (k2 = key /\ c2 = child)
  | None =>
    forall k2 c2 q',
      In (k2, c2) l -> List.length q' = N.to_nat lv -> node_at c2 q' = None
  end.
Proof.
  induction l as [|[k c] l IH]; intros Ha HF; [intros ? ? ? []|].
  inversion HF as [|? ? Hc HF']; subst. cbn [snd] in Hc.
  cbn [findRightmost_children]. unfold rightmost_ok in Hc.
  specialize (IH (proj2 Ha) HF').
  destruct (findRightmost_children l lv) as [r|].
  - destruct IH as (key & child & p' & -> & Hin & Hf & Hall).
    exists key, child, p'.
    split; [reflexivity|]. split; [right; exact Hin|]. split; [exact Hf|].
    intros k2 c2 q' [E|Hin2] Hl Hn.
    + injection E as <- <-. left.
      exact (ascending_tail_lt l k c key child Ha Hin).
    + exact (Hall k2 c2 q' Hin2 Hl Hn).
  - destruct (findRightmost c lv) as [p'|] eqn:Ec.
    + exists k, c, p'.
      split; [reflexivity|]. split; [left; reflexivity|]. split; [exact Ec|].
      intros k2 c2 q' [E|Hin2] Hl Hn.
      * injection E as <- <-. right. split; reflexivity.
      * exfalso. apply Hn. exact (IH k2 c2 q' Hin2 Hl).
    + intros k2 c2 q' [E|Hin2] Hl.
      * injection E as <- <-. exact (Hc q' Hl).
      * exact (IH k2 c2 q' Hin2 Hl).
Qed.

Lemma leftmost_ok_all : forall (node : Node) level,
  ordered node -> leftmost_ok node level.
Proof.
  induction node as [i cs IH] using TreeNode_rect'. intros level Ho.
  inversion Ho as [? ? Ha HFo]; subst.
  unfold leftmost_ok. rewrite findLeftmost_unfold.
  destruct (level =? 0)%N eqn:E0.
  - apply N.eqb_eq in E0. subst level.
    split; [reflexivity|]. split; [discriminate|].
    intros q _ _. exact I.
  - apply N.eqb_neq in E0.
    assert (Hlv : N.to_nat level = S (N.to_nat (level - 1))) by lia.
    assert (HF : Forall (fun kc : Key * Node => leftmost_ok (snd kc) (level - 1)) cs).
    { apply Forall_forall. intros x Hx.
      exact (proj1 (Forall_forall _ _) IH x Hx (level - 1)%N
               (proj1 (Forall_forall _ _) HFo x Hx)). }
    pose proof (leftmost_children (level - 1) cs Ha HF) as Hch.
    destruct (findLeftmost_children cs (level - 1)) as [r|].
    + destruct Hch as (key & child & p' & -> & Hin & Hf & Hall).
      pose proof (proj1 (Forall_forall _ _) HF _ Hin) as Hc.
      cbn [snd] in Hc. unfold leftmost_ok in Hc. rewrite Hf in Hc.
      destruct Hc as (Hlen & Hval & Hleft).
      split; [cbn [List.length]; lia|]. split.
      * cbn [node_at children].
        rewrite (map_find_in_ascending cs key child Ha Hin). exact Hval.
      * intros [|k2 q'] Hl Hn; [cbn in Hl; lia|].
        cbn [node_at children] in Hn.
        destruct (map_find k2 cs) as [c2|] eqn:Hm; [|congruence].
        apply map_find_key in Hm. cbn [List.length] in Hl.
        destruct (Hall k2 c2 q' Hm ltac:(lia) Hn) as [Hlt|[-> ->]];
          cbn [left_of].
        -- rewrite Hlt. exact I.
        -- rewrite compare_refl. apply Hleft; [lia | exact Hn].
    + intros [|k2 q'] Hl; [cbn in Hl; lia|].
      cbn [node_at children].
      destruct (map_find k2 cs) as [c2|] eqn:Hm; [|reflexivity].
      apply map_find_key in Hm. cbn [List.length] in Hl.
      apply (Hch k2 c2 q' Hm). lia.
Qed.

Lemma rightmost_ok_all : forall (node : Node) level,
  ordered node -> rightmost_ok node level.
Proof.
  induction node as [i cs IH] using TreeNode_rect'. intros level Ho.
  inversion Ho as [? ? Ha HFo]; subst.
  unfold rightmost_ok. rewrite findRightmost_unfold.
  destruct (level =? 0)%N eqn:E0.
  - apply N.eqb_eq in E0. subst level.
    split; [reflexivity|]. split; [discriminate|].
    intros [|k q] Hl _; [exact I | discriminate].
  - apply N.eqb_neq in E0.
    assert (Hlv : N.to_nat level = S (N.to_nat (level - 1))) by lia.
    assert (HF : Forall (fun kc : Key * Node => rightmost_ok (snd kc) (level - 1)) cs).
    { apply Forall_forall. intros x Hx.
      exact (proj1 (Forall_forall _ _) IH x Hx (level - 1)%N
               (proj1 (Forall_forall _ _) HFo x Hx)). }
    pose proof (rightmost_children (level - 1) cs Ha HF) as Hch.
    destruct (findRightmost_children cs (level - 1)) as [r|].
    + destruct Hch as (key & child & p' & -> & Hin & Hf & Hall).
      pose proof (proj1 (Forall_forall _ _) HF _ Hin) as Hc.
      cbn [snd] in Hc. unfold rightmost_ok in Hc. rewrite Hf in Hc.
      destruct Hc as (Hlen & Hval & Hleft).
      split; [cbn [List.length]; lia|]. split.
      * cbn [node_at children].
        rewrite (map_find_in_ascending cs key child Ha Hin). exact Hval.
      * intros [|k2 q'] Hl Hn; [exact I|].
        cbn [node_at children] in Hn.
        destruct (map_find k2 cs) as [c2|] eqn:Hm; [|congruence].
        apply map_find_key in Hm. cbn [List.length] in Hl.
        destruct (Hall k2 c2 q' Hm ltac:(lia) Hn) as [Hlt|[-> ->]];
          cbn [left_of].
        -- rewrite Hlt. exact I.
        -- rewrite compare_refl. apply Hleft; [lia | exact Hn].
    + intros [|k2 q'] Hl; [cbn in Hl; lia|].
      cbn [node_at children].
      destruct (map_find k2 cs) as [c2|] eqn:Hm; [|reflexivity].
      apply map_find_key in Hm. cbn [List.length] in Hl.
      apply (Hch k2 c2 q' Hm). lia.
Qed.

(** X12.  On a tree whose child maps are in key order, [findLeftmost(root,
    level)] returns the address of a node [level] levels below the root,
    and no node at that depth lies to its left; it returns the null pointer
    exactly when the tree has no node at that depth. *)
Theorem findLeftmost_leftmost (root : Node) (level : N) :
  ordered root ->
  match findLeftmost root level with
  | Some p =>
    List.length p = N.to_nat level
    /\ node_at root p <> None
    /\ forall q, List.length q = N.to_nat level -> node_at root q <> None ->
                 left_of p q
  | None => forall q, List.length q = N.to_nat level -> node_at root q = None
  end.
Proof. exact (leftmost_ok_all root level). Qed.

Lemma findLeftmost_leftmost_witness :
  findLeftmost sample 2 = Some ["A"; "A1"]
  /\ List.length ["A"; "A1"] = N.to_nat 2
  /\ node_at sample ["A"; "A1"] <> None
  /\ left_of ["A"; "A1"] ["B"; "B1"].
Proof.
  pose proof (findLeftmost_leftmost sample 2 (proj1 (proj2 (proj2 sample_wellformed))))
    as H.
  change (findLeftmost sample 2) with (Some ["A"; "A1"]) in H.
  cbv iota in H. destruct H as (H1 & H2 & H3).
  split; [reflexivity|]. split; [exact H1|]. split; [exact H2|].
  apply H3; [reflexivity | cbn; discriminate].
Defined.

(** X13.  On a tree whose child maps are in key order, [findRightmost(root,
    level)] returns the address of a node [level] levels below the root,
    and no node at that depth lies to its right; it returns the null
    pointer exactly when the tree has no node at that depth. *)
Theorem findRightmost_rightmost (root : Node) (level : N) :
  ordered root ->
  match findRightmost root level with
  | Some p =>
    List.length p = N.to_nat level
    /\ node_at root p <> None
    /\ forall q, List.length q = N.to_nat level -> node_at root q <> None ->
                 left_of q p
  | None => forall q, List.length q = N.to_nat level -> node_at root q = None
  end.
Proof. exact (rightmost_ok_all root level). Qed.

Lemma findRightmost_rightmost_witness :
  findRightmost sample 3 = Some ["A"; "A1"; "A23"]
  /\ findRightmost sample 4 = None
  /\ node_at sample ["A"; "A1"; "A23"] <> None.
Proof.
  pose proof (findRightmost_rightmost sample 3
                (proj1 (proj2 (proj2 sample_wellformed)))) as H.
  change (findRightmost sample 3) with (Some ["A"; "A1"; "A23"]) in H.
  cbv iota in H. destruct H as (H1 & H2 & H3).
  split; [reflexivity|]. split; [reflexivity | exact H2].
Defined.

(** ** makeArgs: the words of a command line *)

Lemma makeArgs_unfold cmdLine :
  Command.makeArgs cmdLine
  = (m <- Command.makeArgs_loop cmdLine cmdLine Command.scanner0 ;;
     makeArgs_end cmdLine m).
Proof. reflexivity. Qed.

Lemma push_back_nonempty w c : empty (Command.push_back w c) = false.
Proof. destruct w; reflexivity. Qed.

Lemma makeArgs_step_ok cmdLine m c m' :
  scanner_ok m -> Command.makeArgs_step cmdLine m c = Ok m' -> scanner_ok m'.
Proof.
  intros [Hw Hs] H. unfold Command.makeArgs_step in H.
  destruct (Command.state m) eqn:Es.
  - destruct (isspace c); injection H as <-.
    + split; [exact Hw | rewrite Es; intros [?|?]; discriminate].
    + split; [exact Hw | intros _; reflexivity].
  - destruct (isspace c).
    + injection H as <-. split; cbn.
      * apply Forall_app. split; [exact Hw|]. constructor; [|constructor].
        apply Hs. left. reflexivity.
      * intros [?|?]; discriminate.
    + destruct (Ascii.eqb c dquote); [discriminate|]. injection H as <-.
      split; [exact Hw | intros _; apply push_back_nonempty].
  - destruct (Ascii.eqb c dquote); injection H as <-.
    + split; cbn.
      * apply Forall_app. split; [exact Hw|]. constructor; [|constructor].
        apply push_back_nonempty.
      * intros [?|?]; discriminate.
    + split; [exact Hw | intros _; apply push_back_nonempty].
  - destruct (isspace c); [|discriminate]. injection H as <-.
    split; [exact Hw | cbn; intros [?|?]; discriminate].
Qed.

Lemma makeArgs_loop_ok cmdLine : forall s m m',
  scanner_ok m -> Command.makeArgs_loop cmdLine s m = Ok m' -> scanner_ok m'.
Proof.
  induction s as [|c s IH]; intros m m' Hm H.
  - injection H as <-. exact Hm.
  - cbn [Command.makeArgs_loop] in H.
    destruct (Command.makeArgs_step cmdLine m c) as [m1| | | |] eqn:E1;
      try discriminate.
    cbn [bind] in H. exact (IH m1 m' (makeArgs_step_ok _ _ _ _ Hm E1) H).
Qed.

Lemma scanner0_ok : scanner_ok Command.scanner0.
Proof. split; [constructor | intros [?|?]; discriminate]. Qed.

(** No word that [makeArgs] returns is empty. *)
Lemma makeArgs_words_nonempty cmdLine ws :
  Command.makeArgs cmdLine = Ok ws -> Forall (fun w => empty w = false) ws.
Proof.
  rewrite makeArgs_unfold. intros H.
  destruct (Command.makeArgs_loop cmdLine cmdLine Command.scanner0)
    as [m| | | |] eqn:El; try discriminate.
  cbn [bind] in H.
  destruct (makeArgs_loop_ok _ _ _ _ scanner0_ok El) as [Hw Hs].
  unfold makeArgs_end in H.
  destruct (Command.state m) eqn:Es; try discriminate; injection H as <-;
    try exact Hw.
  destruct (empty (Command.word m)) eqn:Ee; [exact Hw|].
  apply Forall_app. split; [exact Hw|]. constructor; [exact Ee | constructor].
Qed.

Lemma makeArgs_step_cmdLine cl1 cl2 m c m' :
  Command.makeArgs_step cl1 m c = Ok m' -> Command.makeArgs_step cl2 m c = Ok m'.
Proof.
  unfold Command.makeArgs_step.
  destruct (Command.state m); destruct (isspace c); destruct (Ascii.eqb c dquote);
    intros H; try discriminate; exact H.
Qed.

(** The command line enters the scan only through the text of an error. *)
Lemma makeArgs_loop_cmdLine cl1 cl2 : forall s m m',
  Command.makeArgs_loop cl1 s m = Ok m' -> Command.makeArgs_loop cl2 s m = Ok m'.
Proof.
  induction s as [|c s IH]; intros m m' H; [exact H|].
  cbn [Command.makeArgs_loop] in *.
  destruct (Command.makeArgs_step cl1 m c) as [m1| | | |] eqn:E1;
    try discriminate.
  rewrite (makeArgs_step_cmdLine cl1 cl2 _ _ _ E1). cbn [bind] in *.
  exact (IH _ _ H).
Qed.

Lemma makeArgs_step_shift cl cl' ws0 m m0 c m1 :
  same_scan ws0 m m0 ->
  Command.makeArgs_step cl' m c = Ok m1 ->
  exists m01, Command.makeArgs_step cl m0 c = Ok m01 /\ same_scan ws0 m1 m01.
Proof.
  intros (Hs & Hw & Hd) H. unfold Command.makeArgs_step in *. rewrite Hs.
  destruct (Command.state m) eqn:Es.
  - destruct (isspace c); injection H as <-.
    + exists m0. split; [reflexivity|]. split; [rewrite Es; exact Hs|].
      split; [exact Hw|]. rewrite Es. intros [?|?]; discriminate.
    + eexists. split; [reflexivity|]. split; [reflexivity|].
      split; [exact Hw | reflexivity].
  - rewrite (Hd (or_introl eq_refl)).
    destruct (isspace c).
    + injection H as <-. eexists. split; [reflexivity|]. split; [reflexivity|].
      split; [cbn; rewrite Hw, app_assoc; reflexivity|].
      cbn. intros [?|?]; discriminate.
    + destruct (Ascii.eqb c dquote); [discriminate|]. injection H as <-.
      eexists. split; [reflexivity|]. split; [reflexivity|].
      split; [exact Hw | reflexivity].
  - rewrite (Hd (or_intror eq_refl)).
    destruct (Ascii.eqb c dquote); injection H as <-.
    + eexists. split; [reflexivity|]. split; [reflexivity|].
      split; [cbn; rewrite Hw, app_assoc; reflexivity|].
      cbn. intros [?|?]; discriminate.
    + eexists. split; [reflexivity|]. split; [reflexivity|].
      split; [exact Hw | reflexivity].
  - destruct (isspace c); [|discriminate]. injection H as <-.
    eexists. split; [reflexivity|]. split; [reflexivity|].
    split; [exact Hw|]. cbn. intros [?|?]; discriminate.
Qed.

(** The scan of a text goes the same way whatever words are stored
    already. *)
Lemma makeArgs_loop_shift cl cl' ws0 : forall b m m0 wb,
  same_scan ws0 m m0 ->
  (m' <- Command.makeArgs_loop cl' b m ;; makeArgs_end cl' m') = Ok wb ->
  (m' <- Command.makeArgs_loop cl b m0 ;; makeArgs_end cl m') = Ok (ws0 ++ wb).
Proof.
  induction b as [|c b IH]; intros m m0 wb Hsame H.
  - cbn [Command.makeArgs_loop bind] in *. destruct Hsame as (Hs & Hw & Hd).
    unfold makeArgs_end in *. rewrite Hs.
    destruct (Command.state m) eqn:Es; try discriminate; injection H as <-.
    + rewrite Hw. reflexivity.
    + rewrite (Hd (or_introl eq_refl)), Hw.
      destruct (empty (Command.word m)); [reflexivity|].
      rewrite app_assoc. reflexivity.
    + rewrite Hw. reflexivity.
  - cbn [Command.makeArgs_loop] in *. rewrite bind_assoc in *.
    destruct (Command.makeArgs_step cl' m c) as [m1| | | |] eqn:E1;
      try discriminate.
    destruct (makeArgs_step_shift cl cl' ws0 m m0 c m1 Hsame E1)
      as (m01 & E01 & Hsame1).
    rewrite E01. cbn [bind] in *. exact (IH m1 m01 wb Hsame1 H).
Qed.

Lemma makeArgs_blank_app a b c wa wb :
  isspace c = true ->
  Command.makeArgs a = Ok wa ->
  Command.makeArgs b = Ok wb ->
  Command.makeArgs (a ++ String c b) = Ok (wa ++ wb).
Proof.
  intros Hc Ha Hb. rewrite makeArgs_unfold in *.
  destruct (Command.makeArgs_loop a a Command.scanner0) as [ma| | | |] eqn:Ea;
    try discriminate.
  cbn [bind] in Ha.
  set (cl := (a ++ String c b)%string). unfold cl at 2.
  rewrite makeArgs_loop_app.
  rewrite (makeArgs_loop_cmdLine a cl _ _ _ Ea). cbn [bind].
  destruct (makeArgs_loop_ok _ _ _ _ scanner0_ok Ea) as [_ Hword].
  cbn [Command.makeArgs_loop]. rewrite bind_assoc.
  assert (Hstep : exists m1, Command.makeArgs_step cl ma c = Ok m1
                             /\ same_scan wa Command.scanner0 m1).
  { unfold Command.makeArgs_step, makeArgs_end in *. rewrite Hc.
    destruct (Command.state ma) eqn:Es; try discriminate; injection Ha as <-.
    - exists ma. split; [reflexivity|]. split; [exact Es|].
      split; [cbn; rewrite app_nil_r; reflexivity|].
      cbn. intros [?|?]; discriminate.
    - rewrite (Hword (or_introl eq_refl)).
      eexists. split; [reflexivity|]. split; [reflexivity|].
      split; [cbn; rewrite app_nil_r; reflexivity|].
      cbn. intros [?|?]; discriminate.
    - eexists. split; [reflexivity|]. split; [reflexivity|].
      split; [cbn; rewrite app_nil_r; reflexivity|].
      cbn. intros [?|?]; discriminate. }
  destruct Hstep as (m1 & E1 & Hsame). rewrite E1. cbn [bind].
  exact (makeArgs_loop_shift cl b wa b Command.scanner0 m1 wb Hsame Hb).
Qed.

Lemma makeArgs_token_word w : token_word w -> Command.makeArgs w = Ok [w].
Proof.
  intros [Hne Hall]. destruct w as [|c t]; [congruence|].
  cbn [all_chars] in Hall. apply andb_true_iff in Hall.
  destruct Hall as [Hc Ht]. destruct (token_char_inv c Hc) as [Hs Hq].
  rewrite makeArgs_unfold. cbn [Command.makeArgs_loop].
  rewrite (makeArgs_step_open _ Command.scanner0 _ eq_refl Hs). rewrite Hq.
  cbn [bind].
  cbn [Command.words Command.scanner0].
  rewrite (makeArgs_loop_token _ _ _ _ Ht). cbn [bind]. reflexivity.
Qed.

Lemma makeArgs_quoted_word body :
  has_char dquote body = false ->
  Command.makeArgs (in_quotes body) = Ok [in_quotes body].
Proof.
  intros Hb. rewrite makeArgs_unfold. unfold in_quotes at 2.
  cbn [Command.makeArgs_loop].
  rewrite (makeArgs_step_open _ Command.scanner0 _ eq_refl isspace_dquote).
  rewrite Ascii.eqb_refl. cbn [bind Command.words Command.scanner0].
  rewrite makeArgs_loop_app. rewrite (makeArgs_loop_quoted _ _ _ _ Hb).
  cbn [bind Command.makeArgs_loop]. unfold Command.makeArgs_step.
  cbn [Command.state Command.words Command.word]. rewrite Ascii.eqb_refl.
  cbn [bind]. reflexivity.
Qed.

Lemma makeArgs_written a :
  well_written a -> Command.makeArgs (written a) = Ok [written a].
Proof.
  destruct a as [w|body]; cbn [well_written written].
  - apply makeArgs_token_word.
  - apply makeArgs_quoted_word.
Qed.

Lemma makeArgs_unwords : forall args,
  Forall well_written args ->
  Command.makeArgs (unwords (map written args)) = Ok (map written args).
Proof.
  induction args as [|a args IH]; intros H; [reflexivity|].
  inversion H as [|? ? Ha Hrest]; subst.
  destruct args as [|a' args'].
  - cbn [map unwords]. apply makeArgs_written. exact Ha.
  - change (unwords (map written (a :: a' :: args')))
      with (written a ++ String " " (unwords (map written (a' :: args'))))%string.
    change (map written (a :: a' :: args'))
      with ([written a] ++ map written (a' :: args')).
    apply makeArgs_blank_app;
      [reflexivity | apply makeArgs_written; exact Ha | exact (IH Hrest)].
Qed.

(** X14.  Bare words (not empty, free of white space and quotes) and texts
    between quotes (free of quotes), written with one blank between them,
    are split by [makeArgs] into exactly these words, the quoted ones with
    their quotes. *)
Theorem makeArgs_splits_words (args : list Arg) :
  Forall well_written args ->
  Command.makeArgs (unwords (map written args)) = Ok (map written args).
Proof. exact (makeArgs_unwords args). Qed.

Lemma makeArgs_splits_words_witness :
  Command.makeArgs (unwords (map written [Bare "ls"; Quoted "a b"; Bare "c*"]))
  = Ok ["ls"; in_quotes "a b"; "c*"].
Proof.
  apply (makeArgs_splits_words [Bare "ls"; Quoted "a b"; Bare "c*"]).
  repeat constructor; discriminate.
Defined.

(** X15.  A blank between two texts separates their words: when
    [makeArgs] splits [a] into the words [wa] and [b] into the words [wb],
    it splits [a], a white-space character and [b] into [wa] followed by
    [wb]. *)
Theorem makeArgs_blank_separates (a b : string) (c : ascii)
    (wa wb : list string) :
  isspace c = true ->
  Command.makeArgs a = Ok wa ->
  Command.makeArgs b = Ok wb ->
  Command.makeArgs (a ++ String c b) = Ok (wa ++ wb).
Proof. exact (makeArgs_blank_app a b c wa wb). Qed.

Lemma makeArgs_blank_separates_witness :
  Command.makeArgs ("ls  -l" ++ String "009" (" " ++ in_quotes "x y" ++ " "))
  = Ok (["ls"; "-l"] ++ [in_quotes "x y"]).
Proof.
  apply (makeArgs_blank_separates "ls  -l" (" " ++ in_quotes "x y" ++ " ")
           "009" ["ls"; "-l"] [in_quotes "x y"]); reflexivity.
Defined.

(** *** The form of the words *)

Lemma all_chars_app f : forall a b,
  all_chars f (a ++ b) = all_chars f a && all_chars f b.
Proof.
  induction a as [|c a IH]; intros b; [reflexivity|].
  cbn [append all_chars]. rewrite IH, andb_assoc. reflexivity.
Qed.

Lemma has_char_app x : forall a b,
  has_char x (a ++ b) = has_char x a || has_char x b.
Proof.
  induction a as [|c a IH]; intros b; [reflexivity|].
  cbn [append has_char]. rewrite IH, orb_assoc. reflexivity.
Qed.

Lemma token_word_push w c :
  token_word w -> isspace c = false -> Ascii.eqb c dquote = false ->
  token_word (Command.push_back w c).
Proof.
  intros [Hne Hall] Hs Hq. unfold Command.push_back. split.
  - destruct w; [congruence | discriminate].
  - rewrite all_chars_app, Hall. cbn [all_chars]. unfold token_char.
    rewrite Hs, Hq. reflexivity.
Qed.

Lemma makeArgs_step_wf cmdLine m c m' :
  scanner_wf m -> Command.makeArgs_step cmdLine m c = Ok m' -> scanner_wf m'.
Proof.
  intros (Hw & Ht & Hq) H. unfold Command.makeArgs_step in H.
  destruct (Command.state m) eqn:Es.
  - destruct (isspace c) eqn:Hs; injection H as <-.
    + split; [exact Hw|]. rewrite Es. split; discriminate.
    + split; [exact Hw|]. cbn [Command.state Command.word].
      destruct (Ascii.eqb_spec c dquote) as [->|Hne].
      * split; [discriminate|]. intros _. exists EmptyString. split; reflexivity.
      * split; [|discriminate]. intros _. split; [discriminate|].
        cbn [all_chars]. unfold token_char. rewrite Hs.
        apply Ascii.eqb_neq in Hne. rewrite Hne. reflexivity.
  - destruct (isspace c) eqn:Hs.
    + injection H as <-. split; [|split; discriminate].
      cbn [Command.words]. apply Forall_app. split; [exact Hw|].
      constructor; [|constructor].
      exists (Bare (Command.word m)). split; [exact (Ht eq_refl) | reflexivity].
    + destruct (Ascii.eqb c dquote) eqn:Hd; [discriminate|]. injection H as <-.
      split; [exact Hw|]. split; [|discriminate]. intros _.
      apply token_word_push; [exact (Ht eq_refl) | exact Hs | exact Hd].
  - destruct (Hq eq_refl) as (body & Hword & Hbody).
    destruct (Ascii.eqb_spec c dquote) as [->|Hne]; injection H as <-.
    + split; [|split; discriminate].
      cbn [Command.words]. apply Forall_app. split; [exact Hw|].
      constructor; [|constructor].
      exists (Quoted body). split; [exact Hbody|].
      rewrite Hword. reflexivity.
    + split; [exact Hw|]. split; [discriminate|]. intros _.
      exists (body ++ String c EmptyString)%string. split.
      * cbn [Command.word]. rewrite Hword. reflexivity.
      * rewrite has_char_app, Hbody. cbn [has_char].
        apply Ascii.eqb_neq in Hne. rewrite Hne. reflexivity.
  - destruct (isspace c); [|discriminate]. injection H as <-.
    split; [exact Hw|]. split; discriminate.
Qed.

Lemma makeArgs_loop_wf cmdLine : forall s m m',
  scanner_wf m -> Command.makeArgs_loop cmdLine s m = Ok m' -> scanner_wf m'.
Proof.
  induction s as [|c s IH]; intros m m' Hm H.
  - injection H as <-. exact Hm.
  - cbn [Command.makeArgs_loop] in H.
    destruct (Command.makeArgs_step cmdLine m c) as [m1| | | |] eqn:E1;
      try discriminate.
    cbn [bind] in H. exact (IH m1 m' (makeArgs_step_wf _ _ _ _ Hm E1) H).
Qed.

(** X16.  Every word [makeArgs] returns is a bare word (not empty, free
    of white space and quotes) or a text between two quotes that holds no
    quote; in particular none is empty. *)
Theorem makeArgs_words_form (cmdLine : string) (ws : list string) :
  Command.makeArgs cmdLine = Ok ws ->
  Forall (fun w => exists a, well_written a /\ w = written a) ws.
Proof.
  rewrite makeArgs_unfold. intros H.
  destruct (Command.makeArgs_loop cmdLine cmdLine Command.scanner0)
    as [m| | | |] eqn:El; try discriminate.
  cbn [bind] in H.
  assert (H0 : scanner_wf Command.scanner0).
  { split; [constructor | split; discriminate]. }
  destruct (makeArgs_loop_wf _ _ _ _ H0 El) as (Hw & Ht & _).
  unfold makeArgs_end in H.
  destruct (Command.state m) eqn:Es; try discriminate; injection H as <-;
    try exact Hw.
  destruct (empty (Command.word m)) eqn:Ee; [exact Hw|].
  apply Forall_app. split; [exact Hw|]. constructor; [|constructor].
  exists (Bare (Command.word m)). split; [exact (Ht eq_refl) | reflexivity].
Qed.

Lemma makeArgs_words_form_witness :
  Forall (fun w => exists a, well_written a /\ w = written a)
    ["ls"; in_quotes "a  b"].
Proof.
  apply (makeArgs_words_form ("  ls " ++ in_quotes "a  b" ++ " ")).
  reflexivity.
Defined.

(** ** shellExpansion: what the words become *)

Lemma aborted_bind {A B} (o : Outcome A) (k : A -> Outcome B) :
  aborted o = false -> (forall x, aborted (k x) = false) ->
  aborted (x <- o ;; k x) = false.
Proof. destruct o; cbn; auto. Qed.

Lemma name_of_no_abort root p : aborted (Command.name_of root p) = false.
Proof. unfold Command.name_of. destruct (node_at root p); reflexivity. Qed.

Lemma join_names_no_abort root : forall rest path,
  aborted (Command.join_names root path rest) = false.
Proof.
  induction rest as [|p rest IH]; intros path; [reflexivity|].
  cbn [Command.join_names]. apply aborted_bind; [apply name_of_no_abort|].
  intros nm. apply IH.
Qed.

Lemma makePath_no_abort root e : aborted (Command.makePath root e) = false.
Proof.
  unfold Command.makePath. destruct (Command.pathSoFar e); [reflexivity|].
  apply aborted_bind; [apply name_of_no_abort|]. intros nm.
  apply aborted_bind; [apply join_names_no_abort|]. reflexivity.
Qed.

Lemma for_each_child_no_abort body : forall cs e,
  (forall key e, aborted (body key e) = false) ->
  aborted (Command.for_each_child body cs e) = false.
Proof.
  induction cs as [|[key c] cs IH]; intros e H; [reflexivity|].
  cbn [Command.for_each_child]. apply aborted_bind; [apply H|].
  intros e'. apply IH. exact H.
Qed.

Lemma makeArgs_loop_no_abort cmdLine : forall s m,
  aborted (Command.makeArgs_loop cmdLine s m) = false.
Proof.
  induction s as [|c s IH]; intros m; [reflexivity|].
  cbn [Command.makeArgs_loop]. apply aborted_bind; [|intros m'; apply IH].
  unfold Command.makeArgs_step.
  destruct (Command.state m); destruct (isspace c);
    destruct (Ascii.eqb c dquote); reflexivity.
Qed.

Lemma makeArgs_no_abort cmdLine : aborted (Command.makeArgs cmdLine) = false.
Proof.
  rewrite makeArgs_unfold. apply aborted_bind; [apply makeArgs_loop_no_abort|].
  intros m. unfold makeArgs_end. destruct (Command.state m); reflexivity.
Qed.

Section NoAbort.
Context {engine : RegexEngine}.

Lemma shellExpansion_rec_no_abort root : forall fuel node w e,
  aborted (Command.shellExpansion_rec fuel root node w e) = false.
Proof.
  induction fuel as [|fuel IH]; intros node w e; [reflexivity|].
  cbn [Command.shellExpansion_rec].
  destruct w as [|a w]; [apply makePath_no_abort|].
  destruct (Command.adjustPattern (String a w) TreeInfo.delim)
    as [[[tok wi] isPattern] hasDelim].
  destruct (negb (empty tok)); [|apply IH].
  destruct (negb isPattern).
  - destruct (String.eqb tok ".").
    + destruct wi; [reflexivity | apply IH].
    + destruct (node_at root node) as [n|]; [|reflexivity].
      destruct (String.eqb tok "..").
      * destruct (TreeInfo.parent (data n)); [apply IH | reflexivity].
      * destruct (map_find tok (children n)); [|reflexivity].
        apply aborted_bind; [apply IH | reflexivity].
  - destruct (regex_compile tok) as [re|]; [|reflexivity].
    destruct (node_at root node) as [n|]; [|reflexivity].
    apply for_each_child_no_abort. intros key e'.
    destruct (regex_match key re); [|reflexivity].
    apply aborted_bind; [apply IH | reflexivity].
Qed.

Lemma remove_quotes_no_abort w : aborted (Command.remove_quotes w) = false.
Proof. destruct w as [|a [|c w]]; reflexivity. Qed.

Lemma shellExpansion_no_abort root node : forall ws,
  Forall (fun w => empty w = false) ws ->
  aborted (Command.shellExpansion root node ws) = false.
Proof.
  induction ws as [|w ws IH]; intros H; [reflexivity|].
  inversion H as [|? ? Hw Hws]; subst.
  cbn [Command.shellExpansion]. rewrite Hw.
  destruct (Command.wordType w).
  - reflexivity.
  - apply aborted_bind; [exact (IH Hws) | reflexivity].
  - apply aborted_bind; [apply shellExpansion_rec_no_abort|]. intros e.
    apply aborted_bind; [exact (IH Hws) | reflexivity].
  - apply aborted_bind; [apply remove_quotes_no_abort|]. intros w'.
    apply aborted_bind; [exact (IH Hws) | reflexivity].
Qed.

End NoAbort.

(** The words of a line without NUL byte hold none. *)
Lemma makeArgs_step_nul_free cmdLine m c m' :
  Ascii.eqb c nul = false -> scanner_nul_free m ->
  Command.makeArgs_step cmdLine m c = Ok m' -> scanner_nul_free m'.
Proof.
  intros Hc [Hw Hs] H.
  assert (Hone : has_char nul (String c EmptyString) = false)
    by (cbn [has_char]; rewrite Hc; reflexivity).
  assert (Hpush : has_char nul (Command.push_back (Command.word m) c) = false).
  { unfold Command.push_back. rewrite has_char_app, Hs, Hone. reflexivity. }
  unfold Command.makeArgs_step in H.
  destruct (Command.state m).
  - destruct (isspace c); injection H as <-; split; cbn; assumption.
  - destruct (isspace c).
    + injection H as <-. split; cbn; [|exact Hs].
      apply Forall_app. split; [exact Hw | constructor; [exact Hs | constructor]].
    + destruct (Ascii.eqb c dquote); [discriminate|]. injection H as <-.
      split; cbn; assumption.
  - destruct (Ascii.eqb c dquote); injection H as <-; split; cbn;
      try assumption; try reflexivity.
    apply Forall_app. split; [exact Hw | constructor; [exact Hpush | constructor]].
  - destruct (isspace c); [|discriminate]. injection H as <-.
    split; cbn; assumption.
Qed.

Lemma makeArgs_loop_nul_free cmdLine : forall s m m',
  has_char nul s = false -> scanner_nul_free m ->
  Command.makeArgs_loop cmdLine s m = Ok m' -> scanner_nul_free m'.
Proof.
  induction s as [|c s IH]; intros m m' Hs Hm H.
  - injection H as <-. exact Hm.
  - cbn [has_char] in Hs. apply orb_false_iff in Hs. destruct Hs as [Hc Hs].
    cbn [Command.makeArgs_loop] in H.
    destruct (Command.makeArgs_step cmdLine m c) as [m1| | | |] eqn:E1;
      try discriminate.
    cbn [bind] in H.
    exact (IH m1 m' Hs (makeArgs_step_nul_free _ _ _ _ Hc Hm E1) H).
Qed.

Lemma makeArgs_words_nul_free cmdLine ws :
  has_char nul cmdLine = false ->
  Command.makeArgs cmdLine = Ok ws ->
  Forall (fun w => has_char nul w = false) ws.
Proof.
  rewrite makeArgs_unfold. intros Hn H.
  destruct (Command.makeArgs_loop cmdLine cmdLine Command.scanner0)
    as [m| | | |] eqn:El; try discriminate.
  cbn [bind] in H.
  assert (H0 : scanner_nul_free Command.scanner0) by (split; [constructor | reflexivity]).
  destruct (makeArgs_loop_nul_free _ _ _ _ Hn H0 El) as [Hw Hs].
  unfold makeArgs_end in H.
  destruct (Command.state m); try discriminate; injection H as <-;
    try exact Hw.
  destruct (empty (Command.word m)); [exact Hw|].
  apply Forall_app. split; [exact Hw | constructor; [exact Hs | constructor]].
Qed.

Lemma before_redirect_nul_free : forall l,
  has_char nul l = false -> has_char nul (Command.before_redirect l) = false.
Proof.
  induction l as [|c l IH]; intros H; [reflexivity|].
  cbn [has_char] in H. apply orb_false_iff in H. destruct H as [Hc Hl].
  cbn [Command.before_redirect].
  destruct (Ascii.eqb c ">"%char); [reflexivity|].
  cbn [has_char]. rewrite Hc, (IH Hl). reflexivity.
Qed.

(** X17.  On a command line that holds no NUL byte the assertion at the
    head of the loop of [shellExpansion] never fails in the constructor of
    a command: every word [makeArgs] hands on is not empty and its first
    byte is not NUL, and the construction does not end in a failed
    assert, whatever the tree and the current node. *)
Theorem construct_assert_holds {engine : RegexEngine}
    (root : Node) (current : option NodePtr) (cmdLine : string) :
  has_char nul cmdLine = false ->
  (forall args,
     Command.makeArgs (Command.before_redirect cmdLine) = Ok args ->
     Forall first_byte_set args)
  /\ aborted (Command.construct root current cmdLine) = false.
Proof.
  intros Hn. split.
  - intros args E.
    pose proof (makeArgs_words_nonempty _ _ E) as Hne.
    pose proof (makeArgs_words_nul_free _ _ (before_redirect_nul_free _ Hn) E)
      as Hnul.
    apply Forall_forall. intros w Hin.
    pose proof (proj1 (Forall_forall _ _) Hne w Hin) as He.
    pose proof (proj1 (Forall_forall _ _) Hnul w Hin) as Hw.
    destruct w as [|c w']; [discriminate|].
    exists c, w'. split; [reflexivity|].
    cbn [has_char] in Hw. apply orb_false_iff in Hw. destruct Hw as [Hc _].
    intros ->. discriminate.
  - unfold Command.construct.
    destruct (ofile cmdLine) as [file| | | |] eqn:Ef; try reflexivity.
    { cbn [bind].
      pose proof (makeArgs_no_abort (Command.before_redirect cmdLine)) as Hm.
      destruct (Command.makeArgs (Command.before_redirect cmdLine))
        as [ws| | | |] eqn:E; try reflexivity; [|discriminate].
      cbn [bind]. destruct current as [node|]; [|reflexivity].
      apply shellExpansion_no_abort. exact (makeArgs_words_nonempty _ _ E). }
    unfold ofile in Ef. destruct (after_redirect cmdLine); [|discriminate].
    destruct (Nat.leb _ _); discriminate.
Qed.

Lemma construct_assert_holds_witness :
  Forall first_byte_set ["ls"; "-l"; "A*"]
  /\ aborted (@Command.construct Command.literal_engine sample (Some ["A"])
                "ls -l A* > out")
     = false.
Proof.
  destruct (@construct_assert_holds Command.literal_engine sample (Some ["A"])
              "ls -l A* > out" eq_refl) as [Hw Ha].
  split; [exact (Hw _ eq_refl) | exact Ha].
Defined.

(** *** The classes of words *)

Lemma wordType_unquoted w :
  starts_with_quote w = false ->
  Command.wordType w = Command.wordType_scan w false false.
Proof.
  intros Hq. destruct w as [|c w]; [reflexivity|]. cbn in Hq.
  cbn [Command.wordType]. rewrite Hq. reflexivity.
Qed.

Lemma is_wildcard_brackets c :
  is_wildcard c = false ->
  Ascii.eqb c lbracket = false /\ Ascii.eqb c rbracket = false.
Proof.
  unfold is_wildcard. intros H.
  apply orb_false_iff in H. destruct H as [H Hr].
  apply orb_false_iff in H. destruct H as [_ Hl]. auto.
Qed.

Lemma brackets_plain : forall w, has_wildcard w = false -> brackets w = [].
Proof.
  induction w as [|c w IH]; intros H; [reflexivity|].
  cbn [has_wildcard] in H. apply orb_false_iff in H. destruct H as [Hc Hw].
  destruct (is_wildcard_brackets c Hc) as [Hl Hr].
  cbn [brackets]. rewrite Hl, Hr. exact (IH Hw).
Qed.

(** The scan of a word whose brackets match tells a pattern from a plain
    word by the wildcard characters. *)
Lemma wordType_scan_class : forall (w : string) (isPat hasRange : bool),
  (if hasRange
   then exists l, brackets w = false :: l /\ ranges_matched l
   else ranges_matched (brackets w)) ->
  Command.wordType_scan w isPat hasRange
  = if isPat || has_wildcard w then Command.pattern_ else Command.plain_.
Proof.
  induction w as [|c w IH]; intros isPat hasRange H.
  - cbn [Command.wordType_scan has_wildcard]. rewrite orb_false_r.
    destruct hasRange; [|reflexivity].
    destruct H as (l & Hl & _). discriminate.
  - cbn [Command.wordType_scan has_wildcard brackets] in *.
    assert (Hor : is_wildcard c || isPat || has_wildcard w
                  = isPat || (is_wildcard c || has_wildcard w)).
    { destruct (is_wildcard c), isPat, (has_wildcard w); reflexivity. }
    rewrite <- Hor.
    destruct (Ascii.eqb c lbracket).
    + destruct hasRange.
      * destruct H as (l & Hl & _). discriminate.
      * inversion H as [|l Hl E]; subst.
        apply IH. exists l. split; [symmetry; assumption | exact Hl].
    + destruct (Ascii.eqb c rbracket).
      * destruct hasRange; [|inversion H].
        destruct H as (l & Hl & Hm). injection Hl as <-.
        apply IH. exact Hm.
      * apply IH. exact H.
Qed.

Lemma wordType_plain w :
  starts_with_quote w = false -> has_wildcard w = false ->
  Command.wordType w = Command.plain_.
Proof.
  intros Hq Hw. rewrite (wordType_unquoted w Hq).
  rewrite (wordType_scan_class w false false).
  - rewrite Hw. reflexivity.
  - rewrite (brackets_plain w Hw). constructor.
Qed.

(** X18.  A word that does not start with a quote is classified by its
    wildcard characters and brackets alone: invalid exactly when its
    brackets do not match in pairs without nesting, plain exactly when it
    holds none of [*], [?] and the brackets, and a pattern exactly when it
    holds one of them and its brackets match. *)
Theorem wordType_classification (w : string) :
  starts_with_quote w = false ->
  (Command.wordType w = Command.invalid_ <-> ~ ranges_matched (brackets w))
  /\ (Command.wordType w = Command.plain_ <-> has_wildcard w = false)
  /\ (Command.wordType w = Command.pattern_
      <-> has_wildcard w = true /\ ranges_matched (brackets w)).
Proof.
  intros Hq.
  assert (Hm : ranges_matched (brackets w) ->
               Command.wordType w
               = if has_wildcard w then Command.pattern_ else Command.plain_).
  { intros H. rewrite (wordType_unquoted w Hq).
    exact (wordType_scan_class w false false H). }
  assert (Hv : Command.wordType w <> Command.invalid_ ->
               ranges_matched (brackets w)).
  { rewrite (wordType_unquoted w Hq).
    exact (wordType_scan_valid w false false). }
  split; [|split]; split.
  - intros E Hb. rewrite (Hm Hb) in E. destruct (has_wildcard w); discriminate.
  - exact (wordType_unmatched_brackets w Hq).
  - intros E. assert (Hb : ranges_matched (brackets w)).
    { apply Hv. rewrite E. discriminate. }
    rewrite (Hm Hb) in E. destruct (has_wildcard w); [discriminate | reflexivity].
  - exact (wordType_plain w Hq).
  - intros E. assert (Hb : ranges_matched (brackets w)).
    { apply Hv. rewrite E. discriminate. }
    rewrite (Hm Hb) in E. split; [|exact Hb].
    destruct (has_wildcard w); [reflexivity | discriminate].
  - intros [Hw Hb]. rewrite (Hm Hb), Hw. reflexivity.
Qed.

Lemma wordType_classification_witness :
  (Command.wordType "a[bc]*" = Command.invalid_
   <-> ~ ranges_matched (brackets "a[bc]*"))
  /\ (Command.wordType "a[bc]*" = Command.plain_
      <-> has_wildcard "a[bc]*" = false)
  /\ (Command.wordType "a[bc]*" = Command.pattern_
      <-> has_wildcard "a[bc]*" = true /\ ranges_matched (brackets "a[bc]*")).
Proof.
  apply (wordType_classification "a[bc]*"). reflexivity.
Defined.

(** *** Quoted words *)

Lemma wordType_quoted_body : forall body prev,
  has_char dquote body = false ->
  Command.wordType_quoted prev (body ++ String dquote EmptyString)
  = Command.quoted_.
Proof.
  induction body as [|c body IH]; intros prev H.
  - cbn. reflexivity.
  - cbn [has_char] in H. apply orb_false_iff in H. destruct H as [Hc Hb].
    cbn [append Command.wordType_quoted]. rewrite Hc. cbn [andb].
    exact (IH c Hb).
Qed.

Lemma wordType_in_quotes body :
  has_char dquote body = false ->
  Command.wordType (in_quotes body) = Command.quoted_.
Proof.
  intros H. unfold in_quotes. cbn [Command.wordType].
  rewrite Ascii.eqb_refl. exact (wordType_quoted_body body dquote H).
Qed.

Lemma substring_prefix : forall a b,
  String.substring 0 (String.length a) (a ++ b) = a.
Proof.
  induction a as [|c a IH]; intros b.
  - destruct b; reflexivity.
  - cbn [String.length append String.substring]. rewrite IH. reflexivity.
Qed.

Lemma remove_quotes_in_quotes body :
  Command.remove_quotes (in_quotes body) = Ok body.
Proof.
  unfold in_quotes. destruct body as [|c body]; [reflexivity|].
  cbn [append Command.remove_quotes].
  rewrite length_append. cbn [String.length].
  replace (String.length body + 1) with (S (String.length body)) by lia.
  cbn [String.substring]. rewrite substring_prefix. reflexivity.
Qed.

Lemma before_redirect_id : forall l,
  has_char ">"%char l = false -> Command.before_redirect l = l.
Proof.
  induction l as [|c l IH]; intros H; [reflexivity|].
  cbn [has_char] in H. apply orb_false_iff in H. destruct H as [Hc Hl].
  cbn [Command.before_redirect]. rewrite Hc, (IH Hl). reflexivity.
Qed.

Lemma token_word_unquoted w : token_word w -> starts_with_quote w = false
                                              /\ empty w = false.
Proof.
  intros [Hne Hall]. destruct w as [|c t]; [congruence|].
  cbn [all_chars] in Hall. apply andb_true_iff in Hall.
  destruct (token_char_inv c (proj1 Hall)) as [_ Hq]. split; [exact Hq | reflexivity].
Qed.

Section PlainAndQuoted.
Context {engine : RegexEngine}.
Variables (root : Node) (node : NodePtr).

Lemma shellExpansion_written : forall args,
  Forall well_written args -> Forall wildcard_free args ->
  Command.shellExpansion root node (map written args) = Ok (map meant args).
Proof.
  induction args as [|a args IH]; intros Hw Hf; [reflexivity|].
  inversion Hw as [|? ? Ha Hw']; subst. inversion Hf as [|? ? Hfa Hf']; subst.
  cbn [map Command.shellExpansion]. rewrite (IH Hw' Hf').
  destruct a as [w|body]; cbn [written meant well_written wildcard_free] in *.
  - destruct (token_word_unquoted w Ha) as [Hq He]. rewrite He.
    rewrite (wordType_plain w Hq Hfa). reflexivity.
  - rewrite (wordType_in_quotes body Ha), remove_quotes_in_quotes.
    reflexivity.
Qed.

End PlainAndQuoted.

(** X19.  A command line of bare words without wildcard characters and of
    texts between quotes, one blank between them and no redirection, gives
    the command exactly these words as its arguments, the quoted texts
    without their quotes and unexpanded whatever they hold; the tree is
    not consulted. *)
Theorem construct_plain_and_quoted {engine : RegexEngine}
    (root : Node) (node : NodePtr) (args : list Arg) :
  Forall well_written args -> Forall wildcard_free args ->
  has_char ">"%char (unwords (map written args)) = false ->
  Command.construct root (Some node) (unwords (map written args))
  = Ok (map meant args).
Proof.
  intros Hw Hf Hr. unfold Command.construct.
  rewrite (ofile_no_redirect _ Hr). cbn [bind].
  rewrite (before_redirect_id _ Hr), (makeArgs_unwords args Hw). cbn [bind].
  exact (shellExpansion_written root node args Hw Hf).
Qed.

Lemma construct_plain_and_quoted_witness :
  @Command.construct Command.literal_engine sample (Some ["A"])
    (unwords (map written [Bare "ls"; Bare "-l"; Quoted "A* b"; Bare "nowhere"]))
  = Ok ["ls"; "-l"; "A* b"; "nowhere"].
Proof.
  apply (@construct_plain_and_quoted Command.literal_engine sample ["A"]
           [Bare "ls"; Bare "-l"; Quoted "A* b"; Bare "nowhere"]).
  - repeat constructor; discriminate.
  - repeat constructor.
  - reflexivity.
Defined.

(** ** The recursive expander *)

Lemma extends_refl e : extends e e.
Proof. split; [reflexivity|]. exists []. rewrite app_nil_r. reflexivity. Qed.

Lemma extends_trans e1 e2 e3 : extends e1 e2 -> extends e2 e3 -> extends e1 e3.
Proof.
  intros [Hp1 [f1 Hf1]] [Hp2 [f2 Hf2]]. split; [congruence|].
  exists (f1 ++ f2). rewrite Hf2, Hf1, app_assoc. reflexivity.
Qed.

Lemma makePath_extends root e e' :
  Command.makePath root e = Ok e' -> extends e e'.
Proof.
  intros H. split; [exact (makePath_pathSoFar root e e' H)|].
  unfold Command.makePath in H.
  destruct (Command.pathSoFar e) as [|first rest].
  - injection H as <-. exists []. rewrite app_nil_r. reflexivity.
  - destruct (Command.name_of root first) as [nm| | | |]; try discriminate.
    cbn [bind] in H.
    destruct (Command.join_names root nm rest) as [path| | | |];
      try discriminate.
    cbn [bind] in H. injection H as <-. exists [path]. reflexivity.
Qed.

Lemma push_pop_extends x e e1 :
  extends (Command.push x e) e1 -> extends e (Command.pop e1).
Proof.
  intros [Hp [found Hf]]. split.
  - cbn [Command.pop Command.pathSoFar]. rewrite Hp.
    cbn [Command.push Command.pathSoFar]. apply removelast_last.
  - exists found. exact Hf.
Qed.

Lemma for_each_child_extends body : forall cs e e',
  (forall key e e', body key e = Ok e' -> extends e e') ->
  Command.for_each_child body cs e = Ok e' -> extends e e'.
Proof.
  induction cs as [|[key c] cs IH]; intros e e' Hb H.
  - injection H as <-. apply extends_refl.
  - cbn [Command.for_each_child] in H.
    destruct (body key e) as [e1| | | |] eqn:E1; try discriminate.
    cbn [bind] in H.
    exact (extends_trans _ _ _ (Hb _ _ _ E1) (IH _ _ Hb H)).
Qed.

Section Frame.
Context {engine : RegexEngine}.

Lemma shellExpansion_rec_extends root : forall fuel node w e e',
  Command.shellExpansion_rec fuel root node w e = Ok e' -> extends e e'.
Proof.
  induction fuel as [|fuel IH]; intros node w e e' H.
  - injection H as <-. apply extends_refl.
  - cbn [Command.shellExpansion_rec] in H.
    destruct w as [|a w]; [exact (makePath_extends root e e' H)|].
    destruct (Command.adjustPattern (String a w) TreeInfo.delim)
      as [[[tok wi] isPattern] hasDelim].
    assert (Hpush : forall x next e0 e0',
      (e1 <- Command.shellExpansion_rec fuel root x next (Command.push x e0) ;;
       Ok (Command.pop e1)) = Ok e0' -> extends e0 e0').
    { intros x next e0 e0' Hx.
      destruct (Command.shellExpansion_rec fuel root x next (Command.push x e0))
        as [e1| | | |] eqn:E1; try discriminate.
      cbn [bind] in Hx. injection Hx as <-.
      exact (push_pop_extends x e0 e1 (IH _ _ _ _ E1)). }
    destruct (negb (empty tok)); [|exact (IH _ _ _ _ H)].
    destruct (negb isPattern).
    + destruct (String.eqb tok ".").
      * destruct wi; [discriminate | exact (IH _ _ _ _ H)].
      * destruct (node_at root node) as [n|]; [|discriminate].
        destruct (String.eqb tok "..").
        -- destruct (TreeInfo.parent (data n)); [exact (IH _ _ _ _ H)|].
           injection H as <-. apply extends_refl.
        -- destruct (map_find tok (children n)); [exact (Hpush _ _ _ _ H)|].
           injection H as <-. apply extends_refl.
    + destruct (regex_compile tok) as [re|]; [|discriminate].
      destruct (node_at root node) as [n|]; [|discriminate].
      refine (for_each_child_extends _ _ _ _ _ H).
      intros key e0 e0' Hk. destruct (regex_match key re).
      * exact (Hpush _ _ _ _ Hk).
      * injection Hk as <-. apply extends_refl.
Qed.

End Frame.

(** X20.  A call of the recursive expander that returns leaves [pathSoFar]
    as it found it and only adds to the end of [paths]: what was recorded
    before stays, in its order. *)
Theorem expansion_keeps_recorded_paths {engine : RegexEngine}
    (root : Node) (node : NodePtr) (w : string) (e e' : Command.Expander) :
  Command.shellExpansion_word root node w e = Ok e' ->
  Command.pathSoFar e' = Command.pathSoFar e
  /\ exists found, Command.paths e' = Command.paths e ++ found.
Proof. exact (shellExpansion_rec_extends root _ node w e e'). Qed.

Lemma expansion_keeps_recorded_paths_witness :
  Command.pathSoFar
    {| Command.pathSoFar := [["B"]]; Command.paths := ["x"; "B/A1"] |}
  = [["B"]]
  /\ exists found, ["x"; "B/A1"] = ["x"] ++ found.
Proof.
  apply (@expansion_keeps_recorded_paths Command.literal_engine sample ["A"]
           "A1" {| Command.pathSoFar := [["B"]]; Command.paths := ["x"] |}).
  reflexivity.
Defined.

(** ** Words that lead downwards *)

Lemma ordered_at : forall p (root n : Node),
  ordered root -> node_at root p = Some n -> ordered n.
Proof.
  induction p as [|k p IH]; intros root n Ho Hn.
  - injection Hn as <-. exact Ho.
  - cbn [node_at] in Hn.
    destruct (map_find k (children root)) as [c|] eqn:Hf; [|discriminate].
    inversion Ho as [i cs Ha HF]; subst. cbn [children] in Hf.
    apply map_find_key in Hf.
    exact (IH c n (proj1 (Forall_forall _ _) HF _ Hf) Hn).
Qed.

Lemma ordered_children (n : Node) :
  ordered n ->
  ascending (children n) /\ Forall (fun kc => ordered (snd kc)) (children n).
Proof. intros Ho. inversion Ho; subst. split; assumption. Qed.

Lemma steps_snoc : forall ks cur k,
  steps cur (ks ++ [k]) = steps cur ks ++ [cur ++ ks ++ [k]].
Proof.
  induction ks as [|a ks IH]; intros cur k; [reflexivity|].
  cbn [app steps]. rewrite IH, <- app_assoc. reflexivity.
Qed.

Lemma flat_map_none {A B} (f : A -> list B) : forall l,
  (forall x, In x l -> f x = []) -> flat_map f l = [].
Proof.
  induction l as [|x l IH]; intros H; [reflexivity|].
  cbn [flat_map]. rewrite (H x (or_introl eq_refl)), IH; [reflexivity|].
  intros y Hy. apply H. right. exact Hy.
Qed.

Lemma eqb_compare_lt k s : String.compare s k = Lt -> String.eqb k s = false.
Proof.
  intros H. apply String.eqb_neq. intros ->. rewrite compare_refl in H.
  discriminate.
Qed.

(** In a map in key order at most one entry has a given key, the one
    [find] returns. *)
Lemma flat_map_key {B} (s : Key) (F : Key * Node -> list B) :
  forall cs : list (Key * Node),
  ascending cs ->
  flat_map (fun kc => if String.eqb (fst kc) s then F kc else []) cs
  = match map_find s cs with
    | Some c => F (s, c)
    | None => []
    end.
Proof.
  induction cs as [|[k c] cs IH]; intros Ha; [reflexivity|].
  cbn [flat_map map_find fst].
  assert (Hrest : String.compare s k <> Gt ->
    flat_map (fun kc => if String.eqb (fst kc) s then F kc else []) cs = []).
  { intros Hc. apply flat_map_none. intros [k' c'] Hin. cbn [fst].
    pose proof (ascending_tail_lt cs k c k' c' Ha Hin) as Hlt.
    rewrite eqb_compare_lt; [reflexivity|].
    destruct (String.compare s k) eqn:E; [| |congruence].
    - apply String.compare_eq_iff in E. subst k. exact Hlt.
    - exact (compare_lt_trans _ _ _ E Hlt). }
  destruct (String.compare s k) eqn:E.
  - apply String.compare_eq_iff in E. subst k. rewrite String.eqb_refl.
    rewrite Hrest by discriminate. apply app_nil_r.
  - rewrite (eqb_compare_lt k s E). rewrite Hrest by discriminate. reflexivity.
  - assert (Hne : String.eqb k s = false).
    { apply String.eqb_neq. intros ->. rewrite compare_refl in E. discriminate. }
    rewrite Hne. cbn [app]. apply IH. exact (proj2 Ha).
Qed.

Lemma glob_segment_facts s rest :
  glob_segment s ->
  empty (s ++ slashed rest) = false
  /\ segment TreeInfo.delim (s ++ slashed rest) = s
  /\ snd (first_token TreeInfo.delim (s ++ slashed rest)) = slashed rest
  /\ empty s = false.
Proof.
  intros (Hne & Hdelim & _).
  unfold segment. rewrite first_token_append by (auto using slashed_boundary).
  cbn [fst snd]. repeat split; auto.
  - destruct s; [congruence | reflexivity].
  - apply empty_false. exact Hne.
Qed.

Section Downwards.
Context {engine : RegexEngine}.
Variables (root : Node) (cur0 : NodePtr).
Hypothesis Hordered : ordered root.
Hypothesis Hkeyed : keyed_by_name root.

Lemma child_at ks n k c :
  node_at root (cur0 ++ ks) = Some n ->
  In (k, c) (children n) ->
  node_at root (cur0 ++ ks ++ [k]) = Some c.
Proof.
  intros Hn Hin. rewrite app_assoc, (node_at_snoc root n _ k Hn).
  apply map_find_in_ascending; [|exact Hin].
  exact (proj1 (ordered_children n (ordered_at _ _ _ Hordered Hn))).
Qed.

(** The expander on a word of such segments: it records the walks along
    answering keys, in the order of the child maps. *)
Lemma expansion_chains : forall segs ks n pths,
  Forall glob_segment segs -> Forall compiles segs ->
  node_at root (cur0 ++ ks) = Some n ->
  segs <> [] \/ ks <> [] ->
  Command.shellExpansion_word root (cur0 ++ ks) (join segs)
    {| Command.pathSoFar := steps cur0 ks; Command.paths := pths |}
  = Ok {| Command.pathSoFar := steps cur0 ks;
          Command.paths :=
            pths ++ map (fun tail => join (ks ++ tail)) (chains segs n) |}.
Proof.
  induction segs as [|s rest IH]; intros ks n pths Hg Hc Hn Hne.
  - destruct Hne as [Hne|Hne]; [congruence|].
    destruct ks as [|k ks]; [congruence|].
    cbn [join chains map]. rewrite shellExpansion_word_end.
    rewrite (makePath_steps root Hkeyed k ks cur0 pths n Hn).
    rewrite app_nil_r. reflexivity.
  - inversion Hg as [|? ? Hs Hrest]; subst.
    inversion Hc as [|? ? Hcs Hcrest]; subst.
    destruct (glob_segment_facts s rest Hs) as (Hnew & Hseg & Hwi & Hes).
    assert (Hchild : forall k c pths0,
      node_at root (cur0 ++ ks ++ [k]) = Some c ->
      (e' <- Command.shellExpansion_word root ((cur0 ++ ks) ++ [k]) (join rest)
               (Command.push ((cur0 ++ ks) ++ [k])
                  {| Command.pathSoFar := steps cur0 ks;
                     Command.paths := pths0 |}) ;;
       Ok (Command.pop e'))
      = Ok {| Command.pathSoFar := steps cur0 ks;
              Command.paths :=
                pths0 ++ map (fun tail => join (ks ++ tail))
                           (map (cons k) (chains rest c)) |}).
    { intros k c pths0 Hk. unfold Command.push.
      cbn [Command.pathSoFar Command.paths].
      rewrite <- (app_assoc cur0 ks [k]), <- steps_snoc.
      rewrite (IH (ks ++ [k]) c pths0 Hrest Hcrest Hk)
        by (right; destruct ks; discriminate).
      cbn [bind]. unfold Command.pop. cbn [Command.pathSoFar Command.paths].
      rewrite steps_snoc, removelast_last, map_map.
      do 3 f_equal. apply map_ext. intros tail.
      rewrite <- app_assoc. reflexivity. }
    cbn [join]. rewrite shellExpansion_word_step by exact Hnew.
    cbv zeta. rewrite Hseg, Hwi, Hes, Hn, next_of_slashed. cbn [negb].
    cbn [chains]. unfold seg_match.
    destruct (has_wildcard s) eqn:Hw; cbn [negb].
    + destruct (regex_compile (star_translation s)) as [re|] eqn:Hre;
        [|exfalso; exact (Hcs Hw Hre)].
      assert (Hloop : forall (l : list (Key * Node)) pths0,
        (forall k c, In (k, c) l -> In (k, c) (children n)) ->
        Command.for_each_child
          (fun key e =>
             if regex_match key re then
               e' <- Command.shellExpansion_word root ((cur0 ++ ks) ++ [key])
                       (join rest) (Command.push ((cur0 ++ ks) ++ [key]) e) ;;
               Ok (Command.pop e')
             else Ok e)
          l {| Command.pathSoFar := steps cur0 ks; Command.paths := pths0 |}
        = Ok {| Command.pathSoFar := steps cur0 ks;
                Command.paths :=
                  pths0 ++ map (fun tail => join (ks ++ tail))
                    (flat_map
                       (fun kc : Key * Node =>
                          if regex_match (fst kc) re
                          then map (cons (fst kc)) (chains rest (snd kc))
                          else [])
                       l) |}).
      { induction l as [|[k c] l IHl]; intros pths0 Hin.
        - cbn. rewrite app_nil_r. reflexivity.
        - cbn [Command.for_each_child flat_map fst snd].
          pose proof (child_at ks n k c Hn (Hin k c (or_introl eq_refl))) as Hk.
          destruct (regex_match k re).
          + rewrite (Hchild k c pths0 Hk). cbn [bind].
            rewrite IHl by (intros k' c' H'; apply Hin; right; exact H').
            rewrite map_app, app_assoc. reflexivity.
          + cbn [bind app]. apply IHl. intros k' c' H'. apply Hin. right.
            exact H'. }
      apply Hloop. auto.
    + destruct (proj2 (proj2 Hs) Hw) as [Hd Hdd].
      rewrite (star_translation_plain s Hw).
      apply String.eqb_neq in Hd, Hdd. rewrite Hd, Hdd.
      pose proof (ordered_children n (ordered_at _ _ _ Hordered Hn)) as [Ha _].
      rewrite (flat_map_key s
                 (fun kc => map (cons (fst kc)) (chains rest (snd kc)))
                 (children n) Ha).
      destruct (map_find s (children n)) as [c|] eqn:Hf.
      * cbn [fst snd]. apply Hchild.
        rewrite app_assoc, (node_at_snoc root n _ s Hn). exact Hf.
      * cbn [map]. rewrite app_nil_r. reflexivity.
Qed.

End Downwards.

Section ChainsSpec.
Context {engine : RegexEngine}.

(** The walks of [chains] are the addresses below the node whose keys
    answer the segments one by one. *)
Lemma chains_spec : forall segs (n : Node) ks,
  ordered n ->
  (In ks (chains segs n)
   <-> Forall2 (fun s k => seg_match s k = true) segs ks
       /\ node_at n ks <> None).
Proof.
  induction segs as [|s rest IH]; intros n ks Ho.
  - cbn [chains]. split.
    + intros [<-|[]]. split; [constructor | discriminate].
    + intros [H _]. inversion H. left. reflexivity.
  - cbn [chains]. rewrite in_flat_map.
    destruct (ordered_children n Ho) as [Ha HF].
    split.
    + intros ([k c] & Hin & Hks). cbn [fst snd] in Hks.
      destruct (seg_match s k) eqn:Hm; [|destruct Hks].
      apply in_map_iff in Hks. destruct Hks as (tail & <- & Htail).
      apply (IH c tail (proj1 (Forall_forall _ _) HF _ Hin)) in Htail.
      destruct Htail as [H2 Hnode]. split; [constructor; assumption|].
      cbn [node_at]. rewrite (map_find_in_ascending _ k c Ha Hin). exact Hnode.
    + intros [H2 Hnode]. inversion H2 as [|? k ? tail Hm Htail]; subst.
      cbn [node_at] in Hnode.
      destruct (map_find k (children n)) as [c|] eqn:Hf; [|congruence].
      apply map_find_key in Hf. exists (k, c). split; [exact Hf|].
      cbn [fst snd]. rewrite Hm. apply in_map.
      apply (IH c tail (proj1 (Forall_forall _ _) HF _ Hf)).
      split; assumption.
Qed.

End ChainsSpec.

(** X21.  A word [s1/s2/.../sn] whose segments are names or patterns the
    regex constructor accepts (none empty, [.] or [..]), expanded from a
    node of a tree whose child maps are in key order and whose nodes are
    stored under their names, records exactly the paths [k1/k2/.../kn] of
    the existing nodes below the start whose keys answer the segments one
    by one (equal to a name, matching a pattern), in the order of the child
    maps. *)
Theorem glob_expansion_downwards {engine : RegexEngine}
    (root : Node) (cur : NodePtr) (n : Node) (segs : list string) :
  ordered root -> keyed_by_name root ->
  node_at root cur = Some n ->
  segs <> [] ->
  Forall glob_segment segs -> Forall compiles segs ->
  Command.shellExpansion_word root cur (join segs) Command.cleared
  = Ok {| Command.pathSoFar := []; Command.paths := map join (chains segs n) |}
  /\ forall path,
       In path (map join (chains segs n))
       <-> exists ks, path = join ks
                      /\ Forall2 (fun s k => seg_match s k = true) segs ks
                      /\ node_at root (cur ++ ks) <> None.
Proof.
  intros Ho Hk Hn Hne Hg Hc. split.
  - pose proof (expansion_chains root cur Ho Hk segs [] n [] Hg Hc) as H.
    rewrite app_nil_r in H. exact (H Hn (or_introl Hne)).
  - intros path. rewrite in_map_iff. split.
    + intros (ks & <- & Hin). exists ks. split; [reflexivity|].
      apply (chains_spec segs n ks (ordered_at _ _ _ Ho Hn)) in Hin.
      destruct Hin as [H2 Hnode]. split; [exact H2|].
      rewrite node_at_app, Hn. exact Hnode.
    + intros (ks & -> & H2 & Hnode). exists ks. split; [reflexivity|].
      apply (chains_spec segs n ks (ordered_at _ _ _ Ho Hn)).
      split; [exact H2|]. rewrite node_at_app, Hn in Hnode. exact Hnode.
Qed.

Lemma glob_expansion_downwards_witness :
  @Command.shellExpansion_word prefix_engine sample [] "A/A*" Command.cleared
  = Ok {| Command.pathSoFar := []; Command.paths := ["A/A1"; "A/A2"] |}.
Proof.
  refine (proj1 (@glob_expansion_downwards prefix_engine sample [] sample
                   ["A"; "A*"] _ _ eq_refl _ _ _)).
  - exact (proj1 (proj2 (proj2 sample_wellformed))).
  - exact (proj2 (proj2 (proj2 sample_wellformed))).
  - discriminate.
  - repeat constructor; try discriminate; intros; discriminate.
  - repeat constructor; intros _; discriminate.
Defined.

(** ** BFS *)

Lemma tree_size_unfold {D} (d : D) cs :
  tree_size (mkTreeNode d cs) = S (tree_size_children cs).
Proof.
  cbn [tree_size]. f_equal.
  induction cs as [|[k c] cs IH]; [reflexivity|].
  cbn [tree_size_children]. rewrite <- IH. reflexivity.
Qed.

Lemma map_set_keys {V} k (v v0 : V) : forall m,
  map_find k m = Some v0 -> map fst (map_set k v m) = map fst m.
Proof.
  induction m as [|[k1 v1] m IH]; cbn [map_find map_set]; [discriminate|].
  destruct (String.compare k k1) eqn:E; intros H.
  - apply String.compare_eq_iff in E. subst k1. reflexivity.
  - discriminate.
  - cbn [map fst]. rewrite (IH H). reflexivity.
Qed.

(** Writing the data of a node changes no key and no address. *)
Lemma set_data_shape {D} : forall p (root : TreeNode D) d,
  same_shape root (set_data root p d).
Proof.
  unfold same_shape, keys_at.
  induction p as [|key p IH]; intros root d q.
  - cbn [set_data]. destruct q as [|k q]; reflexivity.
  - cbn [set_data].
    destruct (map_find key (children root)) as [child|] eqn:Hf; [|reflexivity].
    destruct q as [|k q].
    + cbn [node_at children]. rewrite (map_set_keys _ _ _ _ Hf). reflexivity.
    + cbn [node_at children].
      destruct (String.eqb_spec k key) as [->|Hne].
      * rewrite map_find_set, Hf. apply IH.
      * rewrite (map_find_set_other _ _ _ _ Hne). reflexivity.
Qed.

Lemma same_shape_trans {D} (a b c : TreeNode D) :
  same_shape a b -> same_shape b c -> same_shape a c.
Proof. intros H1 H2 q. rewrite H2. apply H1. Qed.

Lemma same_shape_refl {D} (a : TreeNode D) : same_shape a a.
Proof. intros q. reflexivity. Qed.

(** The node written has the new data. *)
Lemma set_data_at {D} : forall p (root n : TreeNode D) d,
  node_at root p = Some n -> data_at (set_data root p d) p = Some d.
Proof.
  unfold data_at.
  induction p as [|key p IH]; intros root n d Hn; [reflexivity|].
  cbn [node_at] in Hn. cbn [set_data].
  destruct (map_find key (children root)) as [child|] eqn:Hf; [|discriminate].
  cbn [node_at children]. rewrite map_find_set. exact (IH child n d Hn).
Qed.

(** Every other node keeps its data. *)
Lemma set_data_other {D} : forall p (root : TreeNode D) d q,
  q <> p -> data_at (set_data root p d) q = data_at root q.
Proof.
  unfold data_at.
  induction p as [|key p IH]; intros root d q Hne.
  - destruct q as [|k q]; [congruence | reflexivity].
  - cbn [set_data].
    destruct (map_find key (children root)) as [child|] eqn:Hf; [|reflexivity].
    destruct q as [|k q]; [reflexivity|].
    cbn [node_at children].
    destruct (String.eqb_spec k key) as [->|Hk].
    + rewrite map_find_set, Hf. apply IH. congruence.
    + rewrite (map_find_set_other _ _ _ _ Hk). reflexivity.
Qed.

(** Writing back what is there changes nothing. *)
Lemma set_data_same {D} : forall p (root n : TreeNode D),
  node_at root p = Some n -> set_data root p (data n) = root.
Proof.
  induction p as [|key p IH]; intros root n Hn.
  - injection Hn as <-. destruct root; reflexivity.
  - cbn [node_at] in Hn. cbn [set_data].
    destruct (map_find key (children root)) as [child|] eqn:Hf; [|discriminate].
    rewrite (IH child n Hn), (map_set_found _ _ _ Hf). destruct root; reflexivity.
Qed.

Lemma forest_size_app {D} (a b : list (NodePtr * TreeNode D)) :
  forest_size (a ++ b) = forest_size a + forest_size b.
Proof. unfold forest_size. rewrite map_app, list_sum_app. reflexivity. Qed.

Lemma forest_size_kids {D} (pn : NodePtr * TreeNode D) :
  S (forest_size (kids pn)) = tree_size (snd pn).
Proof.
  destruct pn as [p [d cs]]. cbn [snd]. rewrite tree_size_unfold. f_equal.
  unfold forest_size, kids. cbn [snd fst children]. rewrite map_map.
  cbn [snd].
  induction cs as [|[k c] cs IH]; [reflexivity|].
  cbn [map tree_size_children snd]. rewrite <- IH. reflexivity.
Qed.

Lemma forest_height_app {D} (a b : list (NodePtr * TreeNode D)) :
  forest_height (a ++ b) = Nat.max (forest_height a) (forest_height b).
Proof. unfold forest_height. rewrite map_app, list_max_app. reflexivity. Qed.

Lemma forest_height_kids {D} (pn : NodePtr * TreeNode D) :
  S (forest_height (kids pn)) = height (snd pn).
Proof.
  destruct pn as [p [d cs]]. cbn [snd]. rewrite height_unfold. f_equal.
  unfold forest_height, kids. cbn [snd fst children]. rewrite map_map.
  cbn [snd].
  induction cs as [|[k c] cs IH]; [reflexivity|].
  cbn [map height_children snd]. rewrite <- IH. reflexivity.
Qed.

Lemma forest_size_cons {D} (pn : NodePtr * TreeNode D) q :
  forest_size (pn :: q) = tree_size (snd pn) + forest_size q.
Proof. reflexivity. Qed.

Lemma forest_height_cons {D} (pn : NodePtr * TreeNode D) q :
  forest_height (pn :: q) = Nat.max (height (snd pn)) (forest_height q).
Proof. reflexivity. Qed.

Lemma forest_height_flat_kids {D} : forall ps : list (NodePtr * TreeNode D),
  forest_height (flat_map kids ps) <= pred (forest_height ps).
Proof.
  induction ps as [|pn ps IH]; [reflexivity|].
  cbn [flat_map]. rewrite forest_height_app.
  pose proof (forest_height_kids pn) as Hk.
  rewrite forest_height_cons. lia.
Qed.

Lemma levels_forest_nil {D} h : @levels_forest D h [] = [].
Proof. induction h as [|h IH]; [reflexivity|]. cbn. exact IH. Qed.

(** A queue gives out its nodes level by level. *)
Lemma bfs_forest_levels {D} : forall fuel (q1 q2 : list (NodePtr * TreeNode D)) h,
  forest_size (q1 ++ q2) <= fuel ->
  forest_height (q2 ++ flat_map kids q1) <= h ->
  bfs_forest fuel (q1 ++ q2)
  = map fst q1 ++ levels_forest h (q2 ++ flat_map kids q1).
Proof.
  induction fuel as [|fuel IH]; intros q1 q2 h Hs Hh.
  - destruct q1 as [|pn q1].
    + destruct q2 as [|pn q2].
      * cbn. rewrite levels_forest_nil. reflexivity.
      * exfalso. cbn [app] in Hs. rewrite forest_size_cons in Hs.
        pose proof (forest_size_kids pn). lia.
    + exfalso. cbn [app] in Hs. rewrite forest_size_cons in Hs.
      pose proof (forest_size_kids pn). lia.
  - destruct q1 as [|pn q1].
    + cbn [app map flat_map] in *. rewrite app_nil_r in *.
      destruct q2 as [|pn q2].
      * cbn. rewrite levels_forest_nil. reflexivity.
      * cbn [bfs_forest].
        pose proof (forest_size_kids pn) as Hk.
        pose proof (forest_height_kids pn) as Hhk.
        rewrite forest_size_cons in Hs. rewrite forest_height_cons in Hh.
        destruct h as [|h]; [lia|].
        cbn [levels_forest map flat_map app].
        f_equal.
        rewrite (IH q2 (kids pn) h).
        -- reflexivity.
        -- rewrite forest_size_app. lia.
        -- pose proof (forest_height_flat_kids (pn :: q2)) as Hf.
           cbn [flat_map] in Hf. rewrite forest_height_cons in Hf. lia.
    + cbn [app bfs_forest map flat_map].
      f_equal. rewrite <- app_assoc.
      rewrite (IH q1 (q2 ++ kids pn) h).
      * rewrite <- app_assoc. reflexivity.
      * pose proof (forest_size_kids pn) as Hk.
        cbn [app] in Hs. rewrite forest_size_cons in Hs.
        rewrite !forest_size_app in *. lia.
      * rewrite <- app_assoc. exact Hh.
Qed.

Lemma flat_map_single {A B} (f : A -> B) : forall l,
  flat_map (fun x => [f x]) l = map f l.
Proof. induction l as [|x l IH]; cbn; [reflexivity | rewrite IH; reflexivity]. Qed.

Lemma flat_map_map {A B C} (f : A -> B) (g : B -> list C) : forall l,
  flat_map g (map f l) = flat_map (fun x => g (f x)) l.
Proof. induction l as [|x l IH]; cbn; [reflexivity | rewrite IH; reflexivity]. Qed.

Lemma flat_map_nested {A B C} (f : A -> list B) (g : B -> list C) : forall l,
  flat_map g (flat_map f l) = flat_map (fun x => flat_map g (f x)) l.
Proof.
  induction l as [|x l IH]; cbn [flat_map]; [reflexivity|].
  rewrite flat_map_app, IH. reflexivity.
Qed.

(** The levels of a forest are its nodes 0, 1, 2, ... levels down. *)
Lemma levels_forest_at_depth {D} : forall h (ps : list (NodePtr * TreeNode D)),
  levels_forest h ps
  = flat_map
      (fun d => flat_map (fun pn => at_depth d (fst pn) (snd pn)) ps)
      (seq 0 h).
Proof.
  induction h as [|h IH]; intros ps; [reflexivity|].
  cbn [levels_forest]. rewrite IH.
  change (seq 0 (S h)) with (0 :: seq 1 h). cbn [flat_map at_depth].
  rewrite flat_map_single. f_equal.
  rewrite <- seq_shift, flat_map_map.
  apply flat_map_ext. intros d.
  rewrite flat_map_nested. apply flat_map_ext. intros pn.
  unfold kids. rewrite flat_map_map. reflexivity.
Qed.

Lemma level_order_levels {D} (root : TreeNode D) :
  level_order root = levels_forest (height root) [([], root)].
Proof.
  rewrite levels_forest_at_depth. unfold level_order.
  apply flat_map_ext. intros d. cbn [flat_map fst snd].
  rewrite app_nil_r. reflexivity.
Qed.

(** A queue that starts with the root gives out the nodes in level
    order. *)
Lemma bfs_forest_root {D} (root : TreeNode D) fuel :
  tree_size root <= fuel ->
  bfs_forest fuel [([], root)] = level_order root.
Proof.
  intros Hf. rewrite level_order_levels.
  pose proof (bfs_forest_levels fuel [] [([], root)] (height root)) as H.
  cbn [app map flat_map] in H. apply H.
  - rewrite forest_size_cons. cbn. lia.
  - rewrite forest_height_cons. cbn. lia.
Qed.

Lemma kids_valid (root0 n : Node) p :
  ordered root0 -> node_at root0 p = Some n ->
  Forall (fun pn => node_at root0 (fst pn) = Some (snd pn)) (kids (p, n)).
Proof.
  intros Ho Hn. apply Forall_forall. intros [p' c] Hin.
  unfold kids in Hin. apply in_map_iff in Hin.
  destruct Hin as ([k c'] & E & Hin). cbn [fst snd] in *.
  injection E as <- <-. rewrite (node_at_snoc root0 n p k Hn).
  apply map_find_in_ascending; [|exact Hin].
  exact (proj1 (ordered_children n (ordered_at _ _ _ Ho Hn))).
Qed.

Lemma bfs_forest_valid (root0 : Node) :
  ordered root0 ->
  forall fuel Q,
    Forall (fun pn => node_at root0 (fst pn) = Some (snd pn)) Q ->
    Forall (fun p => node_at root0 p <> None) (bfs_forest fuel Q).
Proof.
  intros Ho. induction fuel as [|fuel IH]; intros Q HQ.
  - destruct Q; constructor.
  - destruct Q as [|[p n] Q]; [constructor|].
    inversion HQ as [|? ? Hp HQ']; subst. cbn [fst snd] in Hp.
    cbn [bfs_forest fst]. constructor; [congruence|].
    apply IH. apply Forall_app. split; [exact HQ'|].
    exact (kids_valid root0 n p Ho Hp).
Qed.

Lemma same_shape_node {D} (r r' : TreeNode D) p n :
  same_shape r r' -> node_at r p = Some n ->
  exists n', node_at r' p = Some n'
             /\ map fst (children n') = map fst (children n).
Proof.
  intros Hs Hn. specialize (Hs p). unfold keys_at in Hs. rewrite Hn in Hs.
  destruct (node_at r' p) as [n'|]; [|discriminate].
  exists n'. split; [reflexivity | congruence].
Qed.

Lemma same_shape_valid {D} (r r' : TreeNode D) p :
  same_shape r r' -> node_at r p <> None -> node_at r' p <> None.
Proof.
  intros Hs Hn. destruct (node_at r p) as [n|] eqn:E; [|congruence].
  destruct (same_shape_node r r' p n Hs E) as (n' & -> & _). discriminate.
Qed.

Section Rounds.
Context {St : Type}.
Variable func : NodeFunction.t TreeInfo.t St.
Variable root0 : Node.
Hypothesis Hordered : ordered root0.
Hypothesis Hcont : always_continues func.

(** The loop of [BFS] goes through the queue order, one round a node. *)
Lemma BFS_loop_fold : forall fuel Q (root' : Node) s,
  forest_size Q <= fuel ->
  same_shape root0 root' ->
  Forall (fun pn => node_at root0 (fst pn) = Some (snd pn)) Q ->
  BFS_loop fuel func root' (map fst Q) s
  = Some (Ok (fold_left (visit func) (bfs_forest fuel Q) (root', s))).
Proof.
  induction fuel as [|fuel IH]; intros Q root' s Hs Hsh HQ.
  - destruct Q as [|pn Q]; [reflexivity|].
    rewrite forest_size_cons in Hs. pose proof (forest_size_kids pn). lia.
  - destruct Q as [|[p n0] Q]; [reflexivity|].
    inversion HQ as [|? ? Hp HQ']; subst. cbn [fst snd] in Hp.
    cbn [map fst BFS_loop bfs_forest fold_left].
    destruct (same_shape_node root0 root' p n0 Hsh Hp) as (node & Hnode & Hkeys).
    unfold visit at 2. cbn [fst snd]. rewrite Hnode.
    pose proof (Hcont p node s) as Hc.
    destruct (NodeFunction.call func p node s) as [[cont d] s'].
    cbn [fst] in Hc. subst cont.
    replace (Q ++ kids (p, n0)) with (Q ++ kids (p, n0)) by reflexivity.
    assert (Hq : map fst Q ++ map (fun kc : Key * Node => p ++ [fst kc])
                                (children node)
                 = map fst (Q ++ kids (p, n0))).
    { rewrite map_app. f_equal. unfold kids. rewrite map_map. cbn [fst snd].
      rewrite <- (map_map fst (fun k => p ++ [k]) (children node)).
      rewrite <- (map_map fst (fun k => p ++ [k]) (children n0)).
      rewrite Hkeys. reflexivity. }
    rewrite Hq. apply IH.
    + pose proof (forest_size_kids (p, n0)) as Hk. cbn [snd] in Hk.
      rewrite forest_size_cons in Hs. cbn [snd] in Hs.
      rewrite forest_size_app. lia.
    + exact (same_shape_trans _ _ _ Hsh (set_data_shape p root' d)).
    + apply Forall_app. split; [exact HQ'|].
      exact (kids_valid root0 n0 p Hordered Hp).
Qed.

Lemma BFS_fold fuel s :
  tree_size root0 <= fuel ->
  BFS fuel func root0 s
  = Some (Ok (fold_left (visit func) (level_order root0) (root0, s))).
Proof.
  intros Hf. unfold BFS.
  rewrite <- (bfs_forest_root root0 fuel Hf).
  apply (BFS_loop_fold fuel [([], root0)] root0 s).
  - rewrite forest_size_cons. cbn. lia.
  - apply same_shape_refl.
  - constructor; [reflexivity | constructor].
Qed.

End Rounds.

(** *** The level order *)

Lemma height_children_In {D} (k : Key) (c : TreeNode D) : forall cs,
  In (k, c) cs -> height c <= height_children cs.
Proof.
  induction cs as [|[k1 c1] cs IH]; intros H; [destruct H|].
  cbn [height_children]. destruct H as [E|H].
  - injection E as -> ->. lia.
  - specialize (IH H). lia.
Qed.

Lemma node_at_height {D} : forall t (n : TreeNode D),
  node_at n t <> None -> List.length t < height n.
Proof.
  induction t as [|k t IH]; intros [d cs] H.
  - rewrite height_unfold. cbn. lia.
  - cbn [node_at children] in H. rewrite height_unfold.
    destruct (map_find k cs) as [c|] eqn:Hf; [|congruence].
    apply map_find_key in Hf. pose proof (height_children_In k c cs Hf).
    specialize (IH c H). cbn [List.length]. lia.
Qed.

Lemma at_depth_spec : forall d (n : Node) p q,
  ordered n ->
  (In q (at_depth d p n)
   <-> exists t, q = p ++ t /\ List.length t = d /\ node_at n t <> None).
Proof.
  induction d as [|d IH]; intros n p q Ho.
  - cbn [at_depth]. split.
    + intros [<-|[]]. exists []. rewrite app_nil_r.
      repeat split. discriminate.
    + intros (t & -> & Hl & _). destruct t; [|discriminate].
      left. rewrite app_nil_r. reflexivity.
  - cbn [at_depth]. rewrite in_flat_map.
    destruct (ordered_children n Ho) as [Ha HF].
    split.
    + intros ([k c] & Hin & Hq). cbn [fst snd] in Hq.
      apply (IH c (p ++ [k]) q (proj1 (Forall_forall _ _) HF _ Hin)) in Hq.
      destruct Hq as (t & -> & Hl & Hn). exists (k :: t).
      rewrite <- app_assoc. repeat split; [cbn; lia|].
      cbn [node_at]. rewrite (map_find_in_ascending _ k c Ha Hin). exact Hn.
    + intros (t & -> & Hl & Hn). destruct t as [|k t]; [discriminate|].
      cbn [node_at] in Hn.
      destruct (map_find k (children n)) as [c|] eqn:Hf; [|congruence].
      apply map_find_key in Hf. exists (k, c). split; [exact Hf|].
      cbn [fst snd].
      apply (IH c (p ++ [k]) _ (proj1 (Forall_forall _ _) HF _ Hf)).
      exists t. rewrite <- app_assoc. repeat split; [|exact Hn].
      cbn in Hl. lia.
Qed.

(** The level order holds the addresses of the nodes of the tree. *)
Lemma level_order_nodes (root : Node) p :
  ordered root -> (In p (level_order root) <-> node_at root p <> None).
Proof.
  intros Ho. unfold level_order. rewrite in_flat_map. split.
  - intros (d & _ & Hin). apply (at_depth_spec d root [] p Ho) in Hin.
    destruct Hin as (t & -> & _ & Hn). exact Hn.
  - intros Hn. exists (List.length p). split.
    + apply in_seq. pose proof (node_at_height p root Hn). lia.
    + apply (at_depth_spec _ root [] p Ho). exists p. repeat split. exact Hn.
Qed.

Lemma NoDup_append {A} : forall l l' : list A,
  NoDup l -> NoDup l' -> (forall a, In a l -> In a l' -> False) ->
  NoDup (l ++ l').
Proof.
  induction l as [|x l IH]; intros l' Hl Hl' Hd; [exact Hl'|].
  inversion Hl as [|? ? Hx Hl0]; subst. cbn [app]. constructor.
  - intros Hin. apply in_app_or in Hin. destruct Hin as [Hin|Hin].
    + exact (Hx Hin).
    + exact (Hd x (or_introl eq_refl) Hin).
  - apply IH; [exact Hl0 | exact Hl'|].
    intros a Ha. apply Hd. right. exact Ha.
Qed.

Lemma NoDup_flat_map {A B} (f : A -> list B) : forall l,
  NoDup l ->
  (forall x, In x l -> NoDup (f x)) ->
  (forall x y b, In x l -> In y l -> In b (f x) -> In b (f y) -> x = y) ->
  NoDup (flat_map f l).
Proof.
  induction l as [|x l IH]; intros Hl Hf Hd; [constructor|].
  inversion Hl as [|? ? Hx Hl0]; subst. cbn [flat_map].
  apply NoDup_append.
  - apply Hf. left. reflexivity.
  - apply IH; [exact Hl0 | |].
    + intros y Hy. apply Hf. right. exact Hy.
    + intros y z b Hy Hz. apply Hd; right; assumption.
  - intros b Hb Hb'. apply in_flat_map in Hb'. destruct Hb' as (y & Hy & Hby).
    assert (x = y) by (apply (Hd x y b); [left; reflexivity | right; exact Hy | exact Hb | exact Hby]).
    subst y. exact (Hx Hy).
Qed.

Lemma ascending_NoDup {V} : forall m : list (Key * V), ascending m -> NoDup m.
Proof.
  induction m as [|[k v] m IH]; intros Ha; constructor.
  - intros Hin. pose proof (ascending_tail_lt m k v k v Ha Hin) as H.
    rewrite compare_refl in H. discriminate.
  - apply IH. exact (proj2 Ha).
Qed.

Lemma at_depth_NoDup : forall d (n : Node) p,
  ordered n -> NoDup (at_depth d p n).
Proof.
  induction d as [|d IH]; intros n p Ho.
  - cbn. constructor; [intros [] | constructor].
  - cbn [at_depth]. destruct (ordered_children n Ho) as [Ha HF].
    apply NoDup_flat_map.
    + exact (ascending_NoDup _ Ha).
    + intros [k c] Hin. apply IH. exact (proj1 (Forall_forall _ _) HF _ Hin).
    + intros [k c] [k' c'] b Hin Hin' Hb Hb'. cbn [fst snd] in *.
      apply (at_depth_spec d c (p ++ [k]) b
               (proj1 (Forall_forall _ _) HF _ Hin)) in Hb.
      apply (at_depth_spec d c' (p ++ [k']) b
               (proj1 (Forall_forall _ _) HF _ Hin')) in Hb'.
      destruct Hb as (t & -> & _). destruct Hb' as (t' & E & _).
      rewrite <- !app_assoc in E. apply app_inv_head in E.
      injection E as -> _.
      pose proof (map_find_in_ascending _ k' c Ha Hin) as H1.
      pose proof (map_find_in_ascending _ k' c' Ha Hin') as H2.
      congruence.
Qed.

(** No address comes twice in the level order. *)
Lemma level_order_NoDup (root : Node) : ordered root -> NoDup (level_order root).
Proof.
  intros Ho. unfold level_order. apply NoDup_flat_map.
  - apply seq_NoDup.
  - intros d _. apply at_depth_NoDup. exact Ho.
  - intros d d' b _ _ Hb Hb'.
    apply (at_depth_spec d root [] b Ho) in Hb.
    apply (at_depth_spec d' root [] b Ho) in Hb'.
    destruct Hb as (t & -> & <- & _). destruct Hb' as (t' & E & <- & _).
    cbn [app] in E. congruence.
Qed.

(** *** The visits of a traversal *)

Lemma visited_app log log' : visited (log ++ log') = visited log ++ visited log'.
Proof. unfold visited. apply flat_map_app. Qed.

Lemma fold_visit_traced {St} (func : NodeFunction.t TreeInfo.t St) :
  forall l (r : Node) s log,
    Forall (fun p => node_at r p <> None) l ->
    visited (snd (snd (fold_left (visit (traced func)) l (r, (s, log)))))
    = visited log ++ l.
Proof.
  induction l as [|p l IH]; intros r s log Hl.
  - cbn. rewrite app_nil_r. reflexivity.
  - inversion Hl as [|? ? Hp Hl']; subst.
    cbn [fold_left]. unfold visit at 2. cbn [fst snd].
    destruct (node_at r p) as [node|] eqn:Hnode; [|congruence].
    unfold traced at 2. cbn [NodeFunction.call fst snd].
    destruct (NodeFunction.call func p node s) as [[cont d] s'].
    rewrite IH.
    + rewrite visited_app. cbn. rewrite <- app_assoc. reflexivity.
    + apply Forall_forall. intros q Hq.
      apply (same_shape_valid r _ q (set_data_shape p r d)).
      exact (proj1 (Forall_forall _ _) Hl' q Hq).
Qed.

Lemma traced_continues {D St} (func : NodeFunction.t D St) :
  always_continues func -> always_continues (traced func).
Proof.
  intros H p n st. specialize (H p n (fst st)).
  unfold traced. cbn [NodeFunction.call].
  destruct (NodeFunction.call func p n (fst st)) as [[cont d] s']. exact H.
Qed.

(** X22.  [BFS] with a visitor that always returns true ends within as
    many rounds as the tree has nodes and calls the visitor on every node
    exactly once, level by level and each level from left to right (child
    maps in key order). *)
Theorem BFS_visits_level_order {St} (func : NodeFunction.t TreeInfo.t St)
    (root : Node) (s : St) (fuel : nat) :
  ordered root -> always_continues func ->
  tree_size root <= fuel ->
  exists r s' log,
    BFS fuel (traced func) root (s, []) = Some (Ok (r, (s', log)))
    /\ visited log = level_order root
    /\ NoDup (level_order root)
    /\ forall p, In p (level_order root) <-> node_at root p <> None.
Proof.
  intros Ho Hc Hf.
  rewrite (BFS_fold (traced func) root Ho (traced_continues func Hc) fuel _ Hf).
  destruct (fold_left (visit (traced func)) (level_order root) (root, (s, [])))
    as [r [s' log]] eqn:E.
  exists r, s', log. split; [reflexivity|]. split; [|split].
  - pose proof (fold_visit_traced func (level_order root) root s []) as H.
    rewrite E in H. cbn [snd visited flat_map app] in H. apply H.
    apply Forall_forall. intros p Hp.
    exact (proj1 (level_order_nodes root p Ho) Hp).
  - exact (level_order_NoDup root Ho).
  - intros p. exact (level_order_nodes root p Ho).
Qed.

Lemma BFS_visits_level_order_witness :
  exists r s' log,
    BFS 7 (traced (NodeFunction.base TreeInfo.t)) sample (NodeFunction.init, [])
    = Some (Ok (r, (s', log)))
    /\ visited log = [[]; ["A"]; ["B"]; ["A"; "A1"]; ["A"; "A2"]; ["B"; "B1"];
                      ["A"; "A1"; "A23"]]
    /\ NoDup (level_order sample)
    /\ forall p, In p (level_order sample) <-> node_at sample p <> None.
Proof.
  apply (BFS_visits_level_order (NodeFunction.base TreeInfo.t) sample
           NodeFunction.init 7).
  - exact (proj1 (proj2 (proj2 sample_wellformed))).
  - intros p n s. reflexivity.
  - cbn. lia.
Defined.

(** *** setIndex *)

Lemma fold_Index : forall l (r : Node) lv i0,
  NoDup l ->
  Forall (fun p => node_at r p <> None) l ->
  (i0 < SizeT.modulus)%N ->
  same_shape r (fst (fold_left (visit Index) l (r, NodeFunction.mkBase lv i0)))
  /\ (forall j p,
        nth_error l j = Some p ->
        exists n,
          node_at r p = Some n
          /\ data_at (fst (fold_left (visit Index) l (r, NodeFunction.mkBase lv i0))) p
             = Some (set_idx (data n) ((i0 + N.of_nat j) mod SizeT.modulus)%N))
  /\ (forall q,
        ~ In q l ->
        data_at (fst (fold_left (visit Index) l (r, NodeFunction.mkBase lv i0))) q
        = data_at r q).
Proof.
  induction l as [|p l IH]; intros r lv i0 Hnd Hv Hi.
  - cbn [fold_left fst]. split; [apply same_shape_refl|]. split.
    + intros [|j] p H; discriminate.
    + reflexivity.
  - inversion Hnd as [|? ? Hp Hnd']; subst.
    inversion Hv as [|? ? Hvp Hv']; subst.
    destruct (node_at r p) as [node|] eqn:Hnode; [|congruence].
    cbn [fold_left]. unfold visit at 2 4 6. cbn [fst snd]. rewrite Hnode.
    cbn [Index NodeFunction.call NodeFunction.idx_ NodeFunction.level_].
    set (r1 := set_data r p (set_idx (data node) i0)).
    assert (Hsh1 : same_shape r r1) by apply set_data_shape.
    assert (Hv1 : Forall (fun q => node_at r1 q <> None) l).
    { apply Forall_forall. intros q Hq.
      apply (same_shape_valid r r1 q Hsh1).
      exact (proj1 (Forall_forall _ _) Hv' q Hq). }
    assert (Hi1 : (SizeT.incr i0 < SizeT.modulus)%N).
    { unfold SizeT.incr. apply N.mod_lt. discriminate. }
    destruct (IH r1 lv (SizeT.incr i0) Hnd' Hv1 Hi1) as (Hsh & Hidx & Hothers).
    split; [exact (same_shape_trans _ _ _ Hsh1 Hsh)|]. split.
    + intros [|j] q Hq.
      * injection Hq as <-. exists node. split; [exact Hnode|].
        rewrite (Hothers p Hp). unfold r1.
        rewrite (set_data_at p r node _ Hnode).
        rewrite N.add_0_r, N.mod_small by exact Hi. reflexivity.
      * cbn [nth_error] in Hq. destruct (Hidx j q Hq) as (n1 & Hn1 & Hd).
        assert (Hqp : q <> p).
        { intros ->. apply Hp. exact (nth_error_In _ _ Hq). }
        pose proof (set_data_other p r (set_idx (data node) i0) q Hqp) as Ho.
        fold r1 in Ho. unfold data_at in Ho. rewrite Hn1 in Ho.
        destruct (node_at r q) as [n|]; [|discriminate].
        injection Ho as Ho. exists n. split; [reflexivity|].
        rewrite Hd, Ho. do 2 f_equal. unfold SizeT.incr.
        rewrite add_mod_step. f_equal. lia.
    + intros q Hq. rewrite Hothers by (intros H; apply Hq; right; exact H).
      apply set_data_other. intros ->. apply Hq. left. reflexivity.
Qed.

(** X23.  [setIndex] ends within as many rounds as the tree has nodes
    (child maps in key order) and numbers the nodes in breadth-first
    order: the node that comes [j]-th in the level order, counted from 0,
    gets the index [j] (as a [size_t]); its name, parent and level, and the
    keys and addresses of all nodes, stay as they are. *)
Theorem setIndex_breadth_first (root : Node) (fuel : nat) :
  ordered root -> tree_size root <= fuel ->
  exists r,
    setIndex fuel root = Some (Ok r)
    /\ same_shape root r
    /\ forall j p,
         nth_error (level_order root) j = Some p ->
         exists n,
           node_at root p = Some n
           /\ data_at r p
              = Some (set_idx (data n) (N.of_nat j mod SizeT.modulus)%N).
Proof.
  intros Ho Hf. unfold setIndex.
  rewrite (BFS_fold Index root Ho (fun _ _ _ => eq_refl) fuel _ Hf).
  cbn [bind].
  assert (Hv : Forall (fun p => node_at root p <> None) (level_order root)).
  { apply Forall_forall. intros p Hp.
    exact (proj1 (level_order_nodes root p Ho) Hp). }
  destruct (fold_Index (level_order root) root 0%N 0%N
              (level_order_NoDup root Ho) Hv eq_refl) as (Hsh & Hidx & _).
  eexists. split; [reflexivity|]. split; [exact Hsh|].
  intros j p Hj. destruct (Hidx j p Hj) as (n & Hn & Hd).
  exists n. split; [exact Hn|]. rewrite N.add_0_l in Hd. exact Hd.
Qed.

Lemma setIndex_breadth_first_witness :
  exists r,
    setIndex 7 sample = Some (Ok r)
    /\ same_shape sample r
    /\ forall j p,
         nth_error (level_order sample) j = Some p ->
         exists n,
           node_at sample p = Some n
           /\ data_at r p
              = Some (set_idx (data n) (N.of_nat j mod SizeT.modulus)%N).
Proof.
  apply (setIndex_breadth_first sample 7).
  - exact (proj1 (proj2 (proj2 sample_wellformed))).
  - cbn. lia.
Defined.

(** *** find *)

Section FindProofs.
Context {engine : RegexEngine}.

Lemma fold_Find re level : forall l (r : Node) b found,
  fold_left (visit (Find re level)) l (r, (b, found))
  = (r, (b, found ++ filter (is_found re level r) l)).
Proof.
  induction l as [|p l IH]; intros r b found.
  - cbn. rewrite app_nil_r. reflexivity.
  - cbn [fold_left filter].
    assert (Hvisit : visit (Find re level) (r, (b, found)) p
                     = (r, (b, if is_found re level r p
                               then found ++ [p] else found))).
    { unfold visit, is_found. cbn [fst snd].
      destruct (node_at r p) as [node|] eqn:Hnode; [|reflexivity].
      cbn [Find NodeFunction.call]. rewrite (set_data_same p r node Hnode).
      destruct (((level =? TreeInfo.anyLevel)%N
                 || (TreeInfo.level (data node) =? level)%N)
                && regex_match (TreeInfo.name (data node)) re); reflexivity. }
    rewrite Hvisit, IH.
    destruct (is_found re level r p); [|reflexivity].
    rewrite <- app_assoc. reflexivity.
Qed.

End FindProofs.

(** X24.  [find(root, name, exact, level)], when the regex constructor
    accepts [name], ends within as many rounds as the tree has nodes and
    returns, in breadth-first order, exactly the nodes whose name matches
    the expression as a whole and, unless [level] is [anyLevel], whose
    level field is [level]. *)
Theorem find_returns_matches {engine : RegexEngine}
    (root : Node) (name : string) (level : N) (re : regex) (fuel : nat) :
  ordered root -> tree_size root <= fuel ->
  regex_compile name = Some re ->
  find fuel root name level
  = Some (Ok (filter (is_found re level root) (level_order root))).
Proof.
  intros Ho Hf Hre. unfold find. rewrite Hre.
  rewrite (BFS_fold (Find re level) root Ho (fun _ _ _ => eq_refl) fuel _ Hf).
  rewrite fold_Find. reflexivity.
Qed.

Lemma find_returns_matches_witness :
  @find prefix_engine 7 sample "A.*" 2 = Some (Ok [["A"; "A1"]; ["A"; "A2"]]).
Proof.
  apply (@find_returns_matches prefix_engine sample "A.*" 2 "A.*" 7).
  - exact (proj1 (proj2 (proj2 sample_wellformed))).
  - cbn. lia.
  - reflexivity.
Defined.

(** ** makeTree *)

(** *** Writes that keep a tree well formed *)

Lemma data_set_data_cons {D} (c : TreeNode D) k p d :
  data (set_data c (k :: p) d) = data c.
Proof.
  cbn [set_data]. destruct (map_find k (children c)); reflexivity.
Qed.

Lemma set_data_ordered : forall p (root : Node) d,
  ordered root -> ordered (set_data root p d).
Proof.
  induction p as [|key p IH]; intros root d Ho.
  - destruct Ho as [i cs Ha HF]. constructor; assumption.
  - cbn [set_data].
    destruct (map_find key (children root)) as [child|] eqn:Hf; [|exact Ho].
    destruct Ho as [i cs Ha HF]. cbn [data children] in *.
    constructor; [apply map_set_ascending; exact Ha|].
    apply Forall_forall. intros x Hx. apply map_set_In in Hx.
    destruct Hx as [->|Hx]; [|exact (proj1 (Forall_forall _ _) HF x Hx)].
    cbn [snd]. apply IH. apply map_find_key in Hf.
    exact (proj1 (Forall_forall _ _) HF _ Hf).
Qed.

Lemma set_data_keyed : forall p (root : Node) d,
  keyed_by_name root ->
  (forall n, node_at root p = Some n ->
             TreeInfo.name d = TreeInfo.name (data n)) ->
  keyed_by_name (set_data root p d).
Proof.
  induction p as [|key p IH]; intros root d Hk Hd.
  - destruct Hk as [i cs HF]. constructor. exact HF.
  - cbn [set_data].
    destruct (map_find key (children root)) as [child|] eqn:Hf; [|exact Hk].
    destruct Hk as [i cs HF]. cbn [data children] in *.
    assert (Hd' : forall n, node_at child p = Some n ->
                            TreeInfo.name d = TreeInfo.name (data n)).
    { intros n Hn. apply Hd. cbn [node_at children]. rewrite Hf. exact Hn. }
    pose proof (map_find_key _ _ _ Hf) as Hin.
    destruct (proj1 (Forall_forall _ _) HF _ Hin) as [Hname Hkc].
    cbn [fst snd] in *.
    constructor. apply Forall_forall. intros x Hx. apply map_set_In in Hx.
    destruct Hx as [->|Hx]; [|exact (proj1 (Forall_forall _ _) HF x Hx)].
    cbn [fst snd]. split; [|exact (IH child d Hkc Hd')].
    destruct p as [|k p].
    + cbn [set_data data]. rewrite (Hd' child eq_refl). exact Hname.
    + rewrite data_set_data_cons. exact Hname.
Qed.

Lemma set_data_parents : forall p (root : Node) d q,
  parents_ok q root ->
  (forall n, node_at root p = Some n ->
             TreeInfo.parent d = TreeInfo.parent (data n)) ->
  parents_ok q (set_data root p d).
Proof.
  induction p as [|key p IH]; intros root d q Hk Hd.
  - destruct Hk as [q i cs HF]. constructor. exact HF.
  - cbn [set_data].
    destruct (map_find key (children root)) as [child|] eqn:Hf; [|exact Hk].
    destruct Hk as [q i cs HF]. cbn [data children] in *.
    assert (Hd' : forall n, node_at child p = Some n ->
                            TreeInfo.parent d = TreeInfo.parent (data n)).
    { intros n Hn. apply Hd. cbn [node_at children]. rewrite Hf. exact Hn. }
    pose proof (map_find_key _ _ _ Hf) as Hin.
    destruct (proj1 (Forall_forall _ _) HF _ Hin) as [Hpar Hkc].
    cbn [fst snd] in *.
    constructor. apply Forall_forall. intros x Hx. apply map_set_In in Hx.
    destruct Hx as [->|Hx]; [|exact (proj1 (Forall_forall _ _) HF x Hx)].
    cbn [fst snd]. split; [|exact (IH child d _ Hkc Hd')].
    destruct p as [|k p].
    + cbn [set_data data]. rewrite (Hd' child eq_refl). exact Hpar.
    + rewrite data_set_data_cons. exact Hpar.
Qed.

(** A write that leaves the name and the parent pointer of the node as
    they are keeps the tree well formed. *)
Lemma set_data_wellformed (root n : Node) p d :
  wellformed root -> node_at root p = Some n ->
  TreeInfo.name d = TreeInfo.name (data n) ->
  TreeInfo.parent d = TreeInfo.parent (data n) ->
  wellformed (set_data root p d).
Proof.
  intros (Hr & Hp & Ho & Hk) Hn Hname Hpar.
  split; [|split; [|split]].
  - destruct p as [|k p].
    + injection Hn as <-. cbn [set_data data]. congruence.
    + rewrite data_set_data_cons. exact Hr.
  - apply set_data_parents; [exact Hp|]. intros n' Hn'. congruence.
  - apply set_data_ordered. exact Ho.
  - apply set_data_keyed; [exact Hk|]. intros n' Hn'. congruence.
Qed.

Lemma fold_Index_wellformed : forall l (r : Node) s,
  wellformed r -> wellformed (fst (fold_left (visit Index) l (r, s))).
Proof.
  induction l as [|p l IH]; intros r s Hw; [exact Hw|].
  cbn [fold_left]. unfold visit at 2. cbn [fst snd].
  destruct (node_at r p) as [node|] eqn:Hnode; [|apply IH; exact Hw].
  cbn [Index NodeFunction.call]. apply IH.
  apply (set_data_wellformed r node p _ Hw Hnode); reflexivity.
Qed.

(** *** Level numbering keeps a tree well formed *)

Lemma relabel_children_In d k c' : forall cs,
  In (k, c') (relabel_children d cs) ->
  exists c, In (k, c) cs /\ c' = relabel d c.
Proof.
  induction cs as [|[k1 c1] cs IH]; cbn [relabel_children]; [intros []|].
  intros [E|H].
  - injection E as -> <-. exists c1. split; [left|]; reflexivity.
  - destruct (IH H) as (c & Hc & ->). exists c. split; [right; exact Hc | reflexivity].
Qed.

Lemma relabel_children_ascending d : forall cs,
  ascending cs -> ascending (relabel_children d cs).
Proof.
  induction cs as [|[k c] cs IH]; intros Ha; [exact I|].
  cbn [relabel_children]. destruct Ha as [Hh Ht]. split; [|exact (IH Ht)].
  destruct cs as [|[k' c'] cs]; [exact I | exact Hh].
Qed.

Lemma data_relabel d (n : Node) :
  data (relabel d n) = TreeInfo.set_level (data n) d.
Proof. destruct n as [i cs]. rewrite relabel_unfold. reflexivity. Qed.

Lemma relabel_ordered : forall (n : Node) d, ordered n -> ordered (relabel d n).
Proof.
  induction n as [i cs IH] using TreeNode_rect'. intros d Ho.
  inversion Ho as [? ? Ha HF]; subst. rewrite relabel_unfold.
  constructor; [apply relabel_children_ascending; exact Ha|].
  apply Forall_forall. intros [k c'] Hin.
  destruct (relabel_children_In _ _ _ _ Hin) as (c & Hc & ->). cbn [snd].
  apply (proj1 (Forall_forall _ _) IH _ Hc).
  exact (proj1 (Forall_forall _ _) HF _ Hc).
Qed.

Lemma relabel_keyed : forall (n : Node) d,
  keyed_by_name n -> keyed_by_name (relabel d n).
Proof.
  induction n as [i cs IH] using TreeNode_rect'. intros d Hk.
  inversion Hk as [? ? HF]; subst. rewrite relabel_unfold.
  constructor. apply Forall_forall. intros [k c'] Hin.
  destruct (relabel_children_In _ _ _ _ Hin) as (c & Hc & ->). cbn [fst snd].
  destruct (proj1 (Forall_forall _ _) HF _ Hc) as [Hname Hkc].
  cbn [fst snd] in *. split.
  - rewrite data_relabel. exact Hname.
  - exact (proj1 (Forall_forall _ _) IH _ Hc _ Hkc).
Qed.

Lemma relabel_parents : forall (n : Node) d q,
  parents_ok q n -> parents_ok q (relabel d n).
Proof.
  induction n as [i cs IH] using TreeNode_rect'. intros d q Hk.
  inversion Hk as [? ? ? HF]; subst. rewrite relabel_unfold.
  constructor. apply Forall_forall. intros [k c'] Hin.
  destruct (relabel_children_In _ _ _ _ Hin) as (c & Hc & ->). cbn [fst snd].
  destruct (proj1 (Forall_forall _ _) HF _ Hc) as [Hpar Hkc].
  cbn [fst snd] in *. split.
  - rewrite data_relabel. exact Hpar.
  - exact (proj1 (Forall_forall _ _) IH _ Hc _ _ Hkc).
Qed.

Lemma relabel_wellformed (n : Node) d : wellformed n -> wellformed (relabel d n).
Proof.
  intros (Hr & Hp & Ho & Hk). split; [|split; [|split]].
  - rewrite data_relabel. exact Hr.
  - apply relabel_parents. exact Hp.
  - apply relabel_ordered. exact Ho.
  - apply relabel_keyed. exact Hk.
Qed.

(** *** The paths inserted *)

Lemma insert_keeps_valid root path pdelim q :
  node_at root q <> None ->
  node_at (snd (insert root path pdelim)) q <> None.
Proof.
  intros Hq. destruct (node_at root q) as [n|] eqn:Hn; [|congruence].
  unfold insert. destruct (empty path); [cbn [snd]; congruence|].
  destruct (match getline path pdelim with
            | Some r => r
            | None => (EmptyString, EmptyString)
            end) as [tok InStr].
  destruct (empty (TreeInfo.name (data root))).
  - cbn [snd].
    set (root' := mkTreeNode _ (children root)).
    assert (Hq' : exists m, node_at root' q = Some m).
    { destruct q as [|k q']; [eexists; reflexivity|]. exists n. exact Hn. }
    destruct Hq' as (m & Hm).
    destruct (insert_loop_node_at pdelim (S (String.length InStr)) InStr [] root'
                q m Hm) as (n' & Hn' & _).
    congruence.
  - destruct (negb (empty tok) && _); cbn [snd]; [congruence|].
    destruct (insert_loop_node_at pdelim (S (String.length InStr)) InStr [] root
                q n Hn) as (n' & Hn' & _).
    congruence.
Qed.

Lemma insert_all_keeps_valid pdelim q : forall paths root,
  node_at root q <> None ->
  node_at (insert_all root paths pdelim) q <> None.
Proof.
  induction paths as [|path paths IH]; intros root Hq; [exact Hq|].
  cbn [insert_all fold_left]. apply IH. apply insert_keeps_valid. exact Hq.
Qed.

Lemma insert_makes_path root segs :
  segs <> [] -> Forall plain_name segs ->
  node_at (snd (insert root (slashed segs) TreeInfo.delim)) segs <> None.
Proof.
  intros Hne Hp.
  assert (Hs : Forall segment_name segs).
  { eapply Forall_impl; [|exact Hp]. intros s (H1 & _ & _ & H2 & _). split; auto. }
  destruct segs as [|s rest]; [congruence|].
  set (segs := s :: rest) in *.
  assert (Hpath : slashed segs = String TreeInfo.delim (join segs)) by reflexivity.
  assert (Hins : exists root',
    insert root (slashed segs) TreeInfo.delim
    = (true, insert_loop (S (String.length (join segs))) TreeInfo.delim
               (join segs) [] root')).
  { unfold insert. rewrite Hpath. cbn [empty getline getline_extract].
    rewrite Ascii.eqb_refl. cbn [empty negb andb].
    destruct (empty (TreeInfo.name (data root))); eauto. }
  destruct Hins as (root' & ->). cbn [snd].
  destruct (insert_loop_creates segs (S (String.length (join segs))) [] root' Hs
              ltac:(lia)) as (n & Hn).
  congruence.
Qed.

Lemma insert_all_makes_path segs : forall paths root,
  segs <> [] -> Forall plain_name segs ->
  In (slashed segs) paths ->
  node_at (insert_all root paths TreeInfo.delim) segs <> None.
Proof.
  induction paths as [|path paths IH]; intros root Hne Hp Hin; [destruct Hin|].
  cbn [insert_all fold_left]. destruct Hin as [->|Hin].
  - apply (insert_all_keeps_valid TreeInfo.delim segs paths).
    exact (insert_makes_path root segs Hne Hp).
  - exact (IH _ Hne Hp Hin).
Qed.

Lemma tree_size_relabel : forall (n : Node) d,
  tree_size (relabel d n) = tree_size n.
Proof.
  induction n as [i cs IH] using TreeNode_rect'. intros d.
  rewrite relabel_unfold, !tree_size_unfold. f_equal.
  induction cs as [|[k c] cs IHcs]; [reflexivity|].
  inversion IH as [|? ? Hc Hcs]; subst. cbn [snd] in Hc.
  cbn [relabel_children tree_size_children]. rewrite Hc, (IHcs Hcs).
  reflexivity.
Qed.

Lemma follow_slashed_nonempty root segs current :
  segs <> [] -> Forall plain_name segs ->
  node_at root segs <> None ->
  follow root (slashed segs) current = Ok (Some segs).
Proof.
  intros Hne Hp Hn. rewrite (follow_slashed root segs current Hp Hn).
  destruct segs; [congruence | reflexivity].
Qed.

(** X25.  [makeTree(paths, delim)] with the node delimiter builds, for
    every list of paths (the tree short of [2^64] levels), a well-formed
    tree in which the level field of every node is its depth and in which
    [follow] resolves every path [/s1/.../sn] of plain names that is among
    the paths given, from any current node, to the node at the address
    [s1, ..., sn]; [setIndex] ends within as many rounds as the tree has
    nodes. *)
Theorem makeTree_builds (paths : list string) (fuel : nat) :
  (N.of_nat (height (insert_all new_root paths TreeInfo.delim)) <= SizeT.npos)%N ->
  tree_size (insert_all new_root paths TreeInfo.delim) <= fuel ->
  exists r,
    makeTree fuel paths TreeInfo.delim = Some (Ok r)
    /\ wellformed r
    /\ (forall p n, node_at r p = Some n ->
                    TreeInfo.level (data n) = N.of_nat (List.length p))
    /\ (forall segs current,
          segs <> [] -> Forall plain_name segs -> In (slashed segs) paths ->
          follow r (slashed segs) current = Ok (Some segs)).
Proof.
  intros Hh Hf.
  set (t := insert_all new_root paths TreeInfo.delim) in *.
  assert (Hwt : wellformed t)
    by (apply insert_all_wellformed, new_root_wellformed).
  assert (Hlevel : setLevel t = relabel 0 t).
  { unfold setLevel, NodeFunction.init.
    rewrite DFS_Level_relabel by (rewrite N.add_0_l; exact Hh). reflexivity. }
  set (t1 := setLevel t).
  assert (Hw1 : wellformed t1).
  { unfold t1. rewrite Hlevel. apply relabel_wellformed. exact Hwt. }
  assert (Ho1 : ordered t1) by exact (proj1 (proj2 (proj2 Hw1))).
  assert (Hsize : tree_size t1 <= fuel).
  { unfold t1. rewrite Hlevel. rewrite tree_size_relabel. exact Hf. }
  unfold makeTree. fold t t1. unfold setIndex.
  rewrite (BFS_fold Index t1 Ho1 (fun _ _ _ => eq_refl) fuel _ Hsize).
  cbn [bind]. change NodeFunction.init with (NodeFunction.mkBase 0 0).
  set (r := fst (fold_left (visit Index) (level_order t1)
                   (t1, NodeFunction.mkBase 0 0))).
  assert (Hv : Forall (fun p => node_at t1 p <> None) (level_order t1)).
  { apply Forall_forall. intros p Hp.
    exact (proj1 (level_order_nodes t1 p Ho1) Hp). }
  destruct (fold_Index (level_order t1) t1 0%N 0%N
              (level_order_NoDup t1 Ho1) Hv eq_refl) as (Hsh & Hidx & _).
  fold r in Hsh, Hidx.
  exists r. split; [reflexivity|]. split; [|split].
  - apply fold_Index_wellformed. exact Hw1.
  - intros p n Hn.
    assert (Hp1 : node_at t1 p <> None).
    { apply (same_shape_valid r t1 p); [|congruence].
      intros q. symmetry. apply Hsh. }
    apply (level_order_nodes t1 p Ho1) in Hp1.
    apply In_nth_error in Hp1. destruct Hp1 as (j & Hj).
    destruct (Hidx j p Hj) as (n1 & Hn1 & Hd).
    unfold data_at in Hd. rewrite Hn in Hd. injection Hd as ->.
    cbn [set_idx TreeInfo.level].
    unfold t1 in Hn1. rewrite Hlevel, node_at_relabel in Hn1.
    destruct (node_at t p) as [n0|]; [|discriminate].
    injection Hn1 as <-. rewrite data_relabel. cbn. reflexivity.
  - intros segs current Hne Hp Hin.
    apply follow_slashed_nonempty; [exact Hne | exact Hp|].
    apply (same_shape_valid t1 r segs Hsh).
    unfold t1. rewrite Hlevel, node_at_relabel.
    pose proof (insert_all_makes_path segs paths new_root Hne Hp Hin) as Hn.
    fold t in Hn. destruct (node_at t segs); [discriminate | congruence].
Qed.

Lemma makeTree_builds_witness :
  exists r,
    makeTree 7 ["/A/A1/A23"; "/A/A2"; "/B/B1"] TreeInfo.delim = Some (Ok r)
    /\ wellformed r
    /\ (forall p n, node_at r p = Some n ->
                    TreeInfo.level (data n) = N.of_nat (List.length p))
    /\ (forall segs current,
          segs <> [] -> Forall plain_name segs ->
          In (slashed segs) ["/A/A1/A23"; "/A/A2"; "/B/B1"] ->
          follow r (slashed segs) current = Ok (Some segs)).
Proof.
  apply (makeTree_builds ["/A/A1/A23"; "/A/A2"; "/B/B1"] 7).
  - apply N.leb_le. reflexivity.
  - cbn. lia.
Defined.

(** ** The output file of a command *)

Lemma after_redirect_app : forall cmd rest,
  has_char ">"%char cmd = false ->
  after_redirect (cmd ++ String ">"%char rest) = Some rest.
Proof.
  induction cmd as [|c cmd IH]; intros rest H.
  - reflexivity.
  - cbn [has_char] in H. apply orb_false_iff in H. destruct H as [Hc Hcmd].
    cbn [append after_redirect]. rewrite Hc. exact (IH rest Hcmd).
Qed.

Lemma after_redirect_none : forall cmd,
  has_char ">"%char cmd = false -> after_redirect cmd = None.
Proof.
  induction cmd as [|c cmd IH]; intros H; [reflexivity|].
  cbn [has_char] in H. apply orb_false_iff in H. destruct H as [Hc Hcmd].
  cbn [after_redirect]. rewrite Hc. exact (IH Hcmd).
Qed.

Lemma first_nonspace_blank : forall l s,
  all_chars isspace l = true ->
  first_nonspace (l ++ s) = String.length l + first_nonspace s.
Proof.
  induction l as [|c l IH]; intros s H; [reflexivity|].
  cbn [all_chars] in H. apply andb_true_iff in H. destruct H as [Hc Hl].
  cbn [append first_nonspace String.length]. rewrite Hc, (IH s Hl). reflexivity.
Qed.

Lemma after_last_nonspace_blank : forall t,
  all_chars isspace t = true -> after_last_nonspace t = 0.
Proof.
  induction t as [|c t IH]; intros H; [reflexivity|].
  cbn [all_chars] in H. apply andb_true_iff in H. destruct H as [Hc Ht].
  cbn [after_last_nonspace]. rewrite (IH Ht), Hc. reflexivity.
Qed.

Lemma after_last_nonspace_end : forall x z t,
  isspace z = false -> all_chars isspace t = true ->
  after_last_nonspace (x ++ String z t) = S (String.length x).
Proof.
  induction x as [|c x IH]; intros z t Hz Ht.
  - cbn [append after_last_nonspace String.length].
    rewrite (after_last_nonspace_blank t Ht), Hz. reflexivity.
  - cbn [append after_last_nonspace String.length].
    rewrite (IH z t Hz Ht). reflexivity.
Qed.

Lemma substring_skip : forall l n m s,
  String.substring (String.length l + n) m (l ++ s) = String.substring n m s.
Proof.
  induction l as [|c l IH]; intros n m s; [reflexivity|].
  cbn [String.length append Nat.add String.substring]. apply IH.
Qed.

Lemma ofile_of_text cmd l body t :
  has_char ">"%char cmd = false ->
  all_chars isspace l = true -> all_chars isspace t = true ->
  trimmed body ->
  ofile (cmd ++ String ">"%char (l ++ body ++ t)) = Ok body.
Proof.
  intros Hcmd Hl Ht (a & mid & z & Ha & Hz & Hbody).
  unfold ofile. rewrite (after_redirect_app cmd _ Hcmd). cbv zeta.
  assert (Hfirst : first_nonspace (l ++ body ++ t) = String.length l).
  { rewrite (first_nonspace_blank l _ Hl).
    destruct Hbody as [->| ->]; cbn [append first_nonspace]; rewrite Ha; lia. }
  assert (Hlast : after_last_nonspace (l ++ body ++ t)
                  = String.length l + String.length body).
  { destruct Hbody as [->| ->].
    - change (l ++ String a EmptyString ++ t)%string with (l ++ String a t)%string.
      rewrite (after_last_nonspace_end l a t Ha Ht). cbn. lia.
    - replace (l ++ String a (mid ++ String z EmptyString) ++ t)%string
        with ((l ++ String a mid) ++ String z t)%string.
      + rewrite (after_last_nonspace_end _ z t Hz Ht).
        rewrite !length_append. cbn [String.length]. rewrite length_append.
        cbn [String.length]. lia.
      + rewrite !append_assoc. cbn [append]. rewrite append_assoc. reflexivity. }
  rewrite Hfirst, Hlast.
  replace (Nat.leb (String.length l) (String.length l + String.length body)) with true
    by (symmetry; apply Nat.leb_le; lia).
  replace (String.length l + String.length body - String.length l)
    with (String.length body) by lia.
  rewrite <- (Nat.add_0_r (String.length l)) at 1.
  rewrite substring_skip, substring_prefix. reflexivity.
Qed.

Lemma ofile_of_blanks cmd c sp :
  has_char ">"%char cmd = false ->
  isspace c = true -> all_chars isspace sp = true ->
  ofile (cmd ++ String ">"%char (String c sp)) = Undefined.
Proof.
  intros Hcmd Hc Hsp. unfold ofile. rewrite (after_redirect_app cmd _ Hcmd).
  cbv zeta.
  assert (Hall : all_chars isspace (String c sp) = true)
    by (cbn [all_chars]; rewrite Hc, Hsp; reflexivity).
  rewrite (after_last_nonspace_blank _ Hall).
  cbn [first_nonspace]. rewrite Hc. reflexivity.
Qed.

(** X26.  The output file of a command is the text after the first [>]
    without the white space around it; it is empty when the command line
    has no [>] or ends with it.  When the [>] is followed by white space
    only, the constructor builds the name from a range that ends before
    it starts, which is undefined. *)
Theorem ofile_after_redirect (cmd l body t sp : string) (c : ascii) :
  has_char ">"%char cmd = false ->
  all_chars isspace l = true -> all_chars isspace t = true ->
  trimmed body ->
  isspace c = true -> all_chars isspace sp = true ->
  ofile cmd = Ok EmptyString
  /\ ofile (cmd ++ ">") = Ok EmptyString
  /\ ofile (cmd ++ String ">"%char (l ++ body ++ t)) = Ok body
  /\ ofile (cmd ++ String ">"%char (String c sp)) = Undefined.
Proof.
  intros Hcmd Hl Ht Hbody Hc Hsp. split; [|split; [|split]].
  - unfold ofile. rewrite (after_redirect_none cmd Hcmd). reflexivity.
  - unfold ofile. rewrite (after_redirect_app cmd _ Hcmd). reflexivity.
  - exact (ofile_of_text cmd l body t Hcmd Hl Ht Hbody).
  - exact (ofile_of_blanks cmd c sp Hcmd Hc Hsp).
Qed.

Lemma ofile_after_redirect_witness :
  ofile "tree -l" = Ok EmptyString
  /\ ofile "tree -l>" = Ok EmptyString
  /\ ofile "tree -l>  out.txt " = Ok "out.txt"
  /\ ofile "tree -l>  " = Undefined.
Proof.
  apply (ofile_after_redirect "tree -l" "  " "out.txt" " " " " " ");
    try reflexivity.
  exists "o"%char, "ut.tx", "t"%char. repeat split. right. reflexivity.
Defined.

(** ** printTree *)

Lemma listing_unfold cfg d i cs :
  listing cfg d (mkTreeNode i cs)
  = ((if (PrintNode.minLevel cfg <=? d)%N && (d <? PrintNode.maxLevel cfg)%N
      then PrintNode.line cfg d (mkTreeNode i cs) else EmptyString)
     ++ listing_children cfg (d + 1) cs)%string.
Proof.
  cbn [listing]. f_equal. induction cs as [|[k c] cs IH]; [reflexivity|].
  cbn [listing_children]. rewrite <- IH. reflexivity.
Qed.

(** Below the levels asked for there is nothing to list. *)
Lemma listing_below cfg : forall (node : Node) d,
  (PrintNode.maxLevel cfg <= d)%N -> listing cfg d node = EmptyString.
Proof.
  induction node as [i cs IH] using TreeNode_rect'. intros d Hd.
  rewrite listing_unfold.
  replace (d <? PrintNode.maxLevel cfg)%N with false
    by (symmetry; apply N.ltb_ge; exact Hd).
  rewrite andb_false_r. cbn [append].
  induction cs as [|[k c] cs IHcs]; [reflexivity|].
  inversion IH as [|? ? Hc Hcs]; subst. cbn [snd] in Hc.
  cbn [listing_children]. rewrite (Hc (d + 1)%N) by lia.
  cbn [append]. exact (IHcs Hcs).
Qed.

Lemma listing_children_below cfg d : forall cs,
  (PrintNode.maxLevel cfg <= d)%N -> listing_children cfg d cs = EmptyString.
Proof.
  induction cs as [|[k c] cs IH]; intros Hd; [reflexivity|].
  cbn [listing_children]. rewrite (listing_below cfg c d Hd), (IH Hd).
  reflexivity.
Qed.

(** One run of [DFS] with [PrintNode] on a subtree that hangs at depth
    [d]: the tree is as it was, the level counter is back at [d], and the
    lines of the subtree have been written. *)
Lemma DFS_PrintNode cfg : forall (node : Node) d i out p,
  (d + N.of_nat (height node) <= SizeT.npos)%N ->
  DFS PrintNode.func SizeT.npos p node
    (PrintNode.mk (NodeFunction.mkBase d i) cfg out)
  = (node,
     PrintNode.mk (NodeFunction.mkBase d i) cfg (out ++ listing cfg d node)).
Proof.
  induction node as [info cs IH] using TreeNode_rect'. intros d i out p Hh.
  rewrite height_unfold in Hh. rewrite listing_unfold.
  rewrite DFS_unfold.
  cbn [NodeFunction.level PrintNode.func PrintNode.base NodeFunction.level_].
  assert (Hd : (d < SizeT.npos)%N) by lia.
  apply N.ltb_lt in Hd as Hb. rewrite Hb.
  assert (E : forall l out0,
    Forall (fun kc : Key * Node => forall d i out p,
              (d + N.of_nat (height (snd kc)) <= SizeT.npos)%N ->
              DFS PrintNode.func SizeT.npos p (snd kc)
                (PrintNode.mk (NodeFunction.mkBase d i) cfg out)
              = (snd kc,
                 PrintNode.mk (NodeFunction.mkBase d i) cfg
                   (out ++ listing cfg d (snd kc)))) l ->
    (d + 1 + N.of_nat (height_children l) <= SizeT.npos)%N ->
    DFS_children PrintNode.func SizeT.npos p l
      (PrintNode.mk (NodeFunction.mkBase (d + 1) i) cfg out0)
    = (l, PrintNode.mk (NodeFunction.mkBase (d + 1) i) cfg
            (out0 ++ listing_children cfg (d + 1) l))).
  { induction l as [|[k c] l IHl]; intros out0 HF Hl.
    - cbn. rewrite append_nil_r. reflexivity.
    - inversion HF as [|? ? Hc HF']; subst. cbn [snd] in Hc.
      cbn [height_children] in Hl. cbn [DFS_children listing_children].
      rewrite Hc by lia. rewrite IHl by (assumption || lia).
      rewrite append_assoc. reflexivity. }
  cbn [NodeFunction.call PrintNode.func PrintNode.base PrintNode.config
       NodeFunction.level_].
  destruct ((PrintNode.minLevel cfg <=? d)%N && (d <? PrintNode.maxLevel cfg)%N)
    eqn:Hband; cbn [negb].
  - unfold PrintNode.up.
    cbn [PrintNode.base PrintNode.config PrintNode.Out NodeFunction.level_
         NodeFunction.idx_ children data].
    rewrite incr_small by exact Hd.
    rewrite (E cs _ IH) by lia.
    cbn [NodeFunction.onExit PrintNode.func PrintNode.base PrintNode.config
         PrintNode.Out NodeFunction.level_ NodeFunction.idx_ data].
    rewrite decr_succ by exact Hd. rewrite append_assoc. reflexivity.
  - unfold PrintNode.up.
    cbn [PrintNode.base PrintNode.config PrintNode.Out NodeFunction.level_
         NodeFunction.idx_ children data append].
    rewrite incr_small by exact Hd.
    destruct (d <? PrintNode.minLevel cfg)%N eqn:Hlo.
    + rewrite (E cs _ IH) by lia.
      cbn [NodeFunction.onExit PrintNode.func PrintNode.base PrintNode.config
           PrintNode.Out NodeFunction.level_ NodeFunction.idx_ data].
      rewrite decr_succ by exact Hd. reflexivity.
    + cbn [NodeFunction.onExit PrintNode.func PrintNode.base PrintNode.config
           PrintNode.Out NodeFunction.level_ NodeFunction.idx_ data].
      rewrite decr_succ by exact Hd.
      rewrite listing_children_below, append_nil_r; [reflexivity|].
      apply N.ltb_ge in Hlo. apply andb_false_iff in Hband.
      destruct Hband as [H|H].
      * apply N.leb_gt in H. lia.
      * apply N.ltb_ge in H. lia.
Qed.

(** X27.  [printTree] writes one line for every node whose depth below
    the start node lies within [minLevel] (included) and [maxLevel]
    (excluded), in depth-first order of the child maps, on every tree with
    at most [2^64-1] levels: the indentation is the depth, a node with
    children is put between the two colour strings, and the long form
    puts the level and index fields in front.  Cutting the walk at
    [maxLevel] loses no line. *)
Theorem printTree_lists_band (root : Node) (cfg : PrintNode.Config) :
  (N.of_nat (height root) <= SizeT.npos)%N ->
  printTree root cfg = listing cfg 0 root.
Proof.
  intros Hh. unfold printTree, NodeFunction.init.
  rewrite DFS_PrintNode by lia. reflexivity.
Qed.

Lemma printTree_lists_band_witness :
  printTree sample
    {| PrintNode.long_ := true; PrintNode.indentChar := "*"%char;
       PrintNode.minLevel := 1; PrintNode.maxLevel := 2;
       PrintNode.nonLeafColor := "<"; PrintNode.endColor := ">" |}
  = ("* 1: 0: <A>" ++ PrintNode.endl ++ "* 1: 0: <B>" ++ PrintNode.endl)%string.
Proof.
  apply (printTree_lists_band sample).
  apply N.leb_le. reflexivity.
Defined.

(** ** The order of insertions *)

Lemma compare_Lt_Gt a b : String.compare a b = Lt -> String.compare b a = Gt.
Proof. intros H. rewrite String.compare_antisym, H. reflexivity. Qed.

Lemma compare_neq a b : a <> b -> String.compare a b <> Eq.
Proof. intros Hne E. apply String.compare_eq_iff in E. contradiction. Qed.

Lemma map_set_set {V} k (v v' : V) : forall m,
  map_set k v (map_set k v' m) = map_set k v m.
Proof.
  induction m as [|[k1 v1] m IH]; cbn [map_set].
  - rewrite compare_refl. reflexivity.
  - destruct (String.compare k k1) eqn:E; cbn [map_set].
    + rewrite compare_refl. reflexivity.
    + rewrite compare_refl. reflexivity.
    + rewrite E, IH. reflexivity.
Qed.

(** Entries under different keys are set in either order. *)
Lemma map_set_comm {V} k1 k2 (v1 v2 : V) : forall m,
  k1 <> k2 ->
  map_set k1 v1 (map_set k2 v2 m) = map_set k2 v2 (map_set k1 v1 m).
Proof.
  intros m Hne.
  assert (H12 : String.compare k1 k2 <> Eq) by (apply compare_neq; exact Hne).
  assert (H21 : String.compare k2 k1 <> Eq)
    by (apply compare_neq; congruence).
  induction m as [|[k v] m IH].
  - cbn [map_set]. destruct (String.compare k1 k2) eqn:E; [congruence| |].
    + rewrite (compare_Lt_Gt _ _ E). reflexivity.
    + rewrite (compare_Gt_Lt _ _ E). reflexivity.
  - destruct (String.compare k1 k) eqn:E1; destruct (String.compare k2 k) eqn:E2.
    + apply String.compare_eq_iff in E1, E2. congruence.
    + apply String.compare_eq_iff in E1. subst k.
      pose proof (compare_Lt_Gt _ _ E2) as G.
      repeat (cbn [map_set]; rewrite ?E2, ?G, ?compare_refl). reflexivity.
    + apply String.compare_eq_iff in E1. subst k.
      repeat (cbn [map_set]; rewrite ?E2, ?compare_refl). reflexivity.
    + apply String.compare_eq_iff in E2. subst k.
      pose proof (compare_Lt_Gt _ _ E1) as G.
      repeat (cbn [map_set]; rewrite ?E1, ?G, ?compare_refl). reflexivity.
    + destruct (String.compare k1 k2) eqn:E; [congruence| |].
      * pose proof (compare_Lt_Gt _ _ E) as G.
        repeat (cbn [map_set]; rewrite ?E, ?G, ?E1, ?E2). reflexivity.
      * pose proof (compare_Gt_Lt _ _ E) as G.
        repeat (cbn [map_set]; rewrite ?E, ?G, ?E1, ?E2). reflexivity.
    + pose proof (compare_Lt_Gt _ _
                    (compare_lt_trans _ _ _ E1 (compare_Gt_Lt _ _ E2))) as G.
      repeat (cbn [map_set]; rewrite ?G, ?E1, ?E2). reflexivity.
    + apply String.compare_eq_iff in E2. subst k.
      repeat (cbn [map_set]; rewrite ?E1, ?compare_refl). reflexivity.
    + pose proof (compare_Lt_Gt _ _
                    (compare_lt_trans _ _ _ E2 (compare_Gt_Lt _ _ E1))) as G.
      repeat (cbn [map_set]; rewrite ?G, ?E1, ?E2). reflexivity.
    + repeat (cbn [map_set]; rewrite ?E1, ?E2). rewrite IH. reflexivity.
Qed.

(** Two walks of the loop of [insert] give the same tree in either
    order. *)
Lemma insert_loop_comm pdelim : forall f1 f2 s1 s2 p (node : Node),
  insert_loop f1 pdelim s1 p (insert_loop f2 pdelim s2 p node)
  = insert_loop f2 pdelim s2 p (insert_loop f1 pdelim s1 p node).
Proof.
  induction f1 as [|f1 IH]; intros f2 s1 s2 p node; [reflexivity|].
  destruct f2 as [|f2]; [reflexivity|].
  cbn [insert_loop].
  destruct (getline s1 pdelim) as [[tok1 s1']|] eqn:G1;
    destruct (getline s2 pdelim) as [[tok2 s2']|] eqn:G2;
    try reflexivity.
  destruct (empty tok1) eqn:E1; destruct (empty tok2) eqn:E2;
    cbn [data children]; try rewrite G1; try rewrite G2;
    try rewrite E1; try rewrite E2; try reflexivity.
  destruct (String.eqb_spec tok1 tok2) as [->|Hne].
  - rewrite !map_find_set, !map_set_set. f_equal. f_equal. apply IH.
  - rewrite (map_find_set_other tok2 tok1 _ _ Hne).
    rewrite (map_find_set_other tok1 tok2 _ _ (not_eq_sym Hne)).
    f_equal. apply map_set_comm. exact Hne.
Qed.

(** On a root that has a name, [insert] is a walk of its loop that
    depends on the root through that name only, or nothing at all. *)
Lemma insert_named path pdelim nm :
  empty nm = false ->
  exists f s, forall root : Node,
    TreeInfo.name (data root) = nm ->
    snd (insert root path pdelim) = insert_loop f pdelim s [] root.
Proof.
  intros Hnm. unfold insert.
  destruct (empty path).
  - exists 0, EmptyString. reflexivity.
  - destruct (match getline path pdelim with
              | Some r => r
              | None => (EmptyString, EmptyString)
              end) as [tok InStr].
    destruct (negb (empty tok) && negb (String.eqb nm tok)) eqn:Hrej.
    + exists 0, EmptyString. intros root ->. rewrite Hnm, Hrej. reflexivity.
    + exists (S (String.length InStr)), InStr. intros root ->.
      rewrite Hnm, Hrej. reflexivity.
Qed.

Lemma insert_name_kept root path pdelim :
  empty (TreeInfo.name (data root)) = false ->
  TreeInfo.name (data (snd (insert root path pdelim)))
  = TreeInfo.name (data root).
Proof.
  intros Hnm. unfold insert. destruct (empty path); [reflexivity|].
  destruct (match getline path pdelim with
            | Some r => r
            | None => (EmptyString, EmptyString)
            end) as [tok InStr].
  rewrite Hnm. destruct (negb (empty tok) && _); cbn [snd]; [reflexivity|].
  rewrite insert_loop_data. reflexivity.
Qed.

Lemma insert_comm_named (root : Node) p1 p2 pdelim :
  empty (TreeInfo.name (data root)) = false ->
  snd (insert (snd (insert root p1 pdelim)) p2 pdelim)
  = snd (insert (snd (insert root p2 pdelim)) p1 pdelim).
Proof.
  intros Hnm.
  destruct (insert_named p1 pdelim _ Hnm) as (f1 & s1 & H1).
  destruct (insert_named p2 pdelim _ Hnm) as (f2 & s2 & H2).
  rewrite (H2 (snd (insert root p1 pdelim)) (insert_name_kept root p1 pdelim Hnm)).
  rewrite (H1 (snd (insert root p2 pdelim)) (insert_name_kept root p2 pdelim Hnm)).
  rewrite (H1 root eq_refl), (H2 root eq_refl).
  apply insert_loop_comm.
Qed.

(** On a root without a name, [insert] of a path that is not empty names
    the root after the leading segment and walks its loop on the rest. *)
Lemma insert_unnamed (root : Node) c path pdelim :
  empty (TreeInfo.name (data root)) = true ->
  snd (insert root (String c path) pdelim)
  = insert_loop
      (S (String.length (snd (getline_extract pdelim (String c path)))))
      pdelim (snd (getline_extract pdelim (String c path))) []
      (mkTreeNode
         (TreeInfo.set_name (data root)
            (if empty (leading_segment pdelim (String c path))
             then String TreeInfo.delim EmptyString
             else leading_segment pdelim (String c path)))
         (children root)).
Proof.
  intros Hnm. unfold insert, leading_segment. cbn [empty getline].
  destruct (getline_extract pdelim (String c path)) as [tok InStr].
  rewrite Hnm. reflexivity.
Qed.

(** On a root named after the leading segment of the path, [insert] walks
    its loop on the rest. *)
Lemma insert_same_lead (root : Node) c path pdelim :
  TreeInfo.name (data root)
  = (if empty (leading_segment pdelim (String c path))
     then String TreeInfo.delim EmptyString
     else leading_segment pdelim (String c path)) ->
  snd (insert root (String c path) pdelim)
  = insert_loop
      (S (String.length (snd (getline_extract pdelim (String c path)))))
      pdelim (snd (getline_extract pdelim (String c path))) [] root.
Proof.
  intros Hname. unfold insert, leading_segment in *. cbn [empty getline].
  destruct (getline_extract pdelim (String c path)) as [tok InStr].
  cbn [fst snd] in *. rewrite Hname.
  destruct (empty tok) eqn:E.
  - reflexivity.
  - rewrite E, String.eqb_refl. reflexivity.
Qed.

Lemma insert_comm_unnamed (root : Node) p1 p2 pdelim :
  empty (TreeInfo.name (data root)) = true ->
  leading_segment pdelim p1 = leading_segment pdelim p2 ->
  snd (insert (snd (insert root p1 pdelim)) p2 pdelim)
  = snd (insert (snd (insert root p2 pdelim)) p1 pdelim).
Proof.
  intros Hnm Hlead.
  destruct p1 as [|c1 p1]; [reflexivity|].
  destruct p2 as [|c2 p2]; [reflexivity|].
  rewrite (insert_unnamed root c1 p1 pdelim Hnm).
  rewrite (insert_unnamed root c2 p2 pdelim Hnm).
  rewrite <- Hlead.
  rewrite (insert_same_lead _ c2 p2 pdelim)
    by (rewrite insert_loop_data, <- Hlead; reflexivity).
  rewrite (insert_same_lead _ c1 p1 pdelim)
    by (rewrite insert_loop_data; reflexivity).
  apply insert_loop_comm.
Qed.

Lemma insert_all_permutation pdelim lead : forall paths paths',
  Permutation paths paths' ->
  forall root : Node,
    empty (TreeInfo.name (data root)) = false
    \/ Forall (fun p => leading_segment pdelim p = lead) paths ->
    insert_all root paths pdelim = insert_all root paths' pdelim.
Proof.
  assert (Hstep : forall (root : Node) x l,
    empty (TreeInfo.name (data root)) = false
    \/ Forall (fun p => leading_segment pdelim p = lead) (x :: l) ->
    empty (TreeInfo.name (data (snd (insert root x pdelim)))) = false
    \/ Forall (fun p => leading_segment pdelim p = lead) l).
  { intros root x l [Hn|HF].
    - left. rewrite (insert_name_kept root x pdelim Hn). exact Hn.
    - right. inversion HF. assumption. }
  induction 1 as [|x l l' Hp IH|x y l|l l' l'' Hp1 IH1 Hp2 IH2]; intros root Hc.
  - reflexivity.
  - cbn [insert_all fold_left]. apply IH. exact (Hstep root x l Hc).
  - cbn [insert_all fold_left]. f_equal.
    destruct (empty (TreeInfo.name (data root))) eqn:Hn.
    + destruct Hc as [Hc|HF]; [discriminate|].
      apply insert_comm_unnamed; [exact Hn|].
      inversion HF as [|? ? Hy HF']; subst. inversion HF' as [|? ? Hx _]; subst.
      congruence.
    + apply insert_comm_named. exact Hn.
  - rewrite (IH1 root Hc). apply IH2.
    destruct Hc as [Hn|HF]; [left; exact Hn | right].
    exact (Permutation_Forall Hp1 HF).
Qed.

(** X28.  The tree does not depend on the order of the paths: when the
    root has a name, or the paths all lead with the same segment (such as
    absolute paths do, whose leading segment is empty), inserting the paths
    in any order gives the same tree; so [makeTree] returns the same tree
    for a list of paths with the same leading segment and for any
    rearrangement of it. *)
Theorem insert_order_irrelevant (root : Node) (paths paths' : list string)
    (pdelim : ascii) (lead : string) (fuel : nat) :
  Permutation paths paths' ->
  empty (TreeInfo.name (data root)) = false
  \/ Forall (fun p => leading_segment pdelim p = lead) paths ->
  insert_all root paths pdelim = insert_all root paths' pdelim
  /\ (Forall (fun p => leading_segment pdelim p = lead) paths ->
      makeTree fuel paths pdelim = makeTree fuel paths' pdelim).
Proof.
  intros Hp Hc. split.
  - exact (insert_all_permutation pdelim lead paths paths' Hp root Hc).
  - intros HF. unfold makeTree.
    rewrite (insert_all_permutation pdelim lead paths paths' Hp new_root
               (or_intror HF)).
    reflexivity.
Qed.

Lemma insert_order_irrelevant_witness :
  insert_all new_root ["/A/A1/A23"; "/A/A2"; "/B/B1"] "/"%char
  = insert_all new_root ["/B/B1"; "/A/A1/A23"; "/A/A2"] "/"%char
  /\ makeTree 7 ["/A/A1/A23"; "/A/A2"; "/B/B1"] "/"%char
     = makeTree 7 ["/B/B1"; "/A/A1/A23"; "/A/A2"] "/"%char.
Proof.
  assert (HF : Forall (fun p => leading_segment "/"%char p = EmptyString)
                 ["/A/A1/A23"; "/A/A2"; "/B/B1"])
    by (repeat constructor).
  destruct (insert_order_irrelevant new_root
              ["/A/A1/A23"; "/A/A2"; "/B/B1"] ["/B/B1"; "/A/A1/A23"; "/A/A2"]
              "/"%char EmptyString 7) as [H1 H2].
  - apply Permutation_sym.
    apply (Permutation_cons_app ["/A/A1/A23"; "/A/A2"] [] "/B/B1").
    rewrite app_nil_r. apply Permutation_refl.
  - right. exact HF.
  - split; [exact H1 | exact (H2 HF)].
Defined.

(** ** Expanded paths and follow *)

Lemma plain_keys_at : forall ks (n m : Node),
  plain_keys n -> node_at n ks = Some m ->
  Forall plain_name ks
  /\ match ks with
     | [] => True
     | k :: _ => starts_with_space k = false
     end.
Proof.
  induction ks as [|k ks IH]; intros n m Hp Hn; [split; [constructor | exact I]|].
  cbn [node_at] in Hn.
  destruct (map_find k (children n)) as [c|] eqn:Hf; [|discriminate].
  apply map_find_key in Hf. inversion Hp as [i cs HF]; subst.
  cbn [children] in Hf.
  destruct (proj1 (Forall_forall _ _) HF _ Hf) as (Hk & Hs & Hc).
  cbn [fst snd] in *. destruct (IH c m Hc Hn) as [Hks _].
  split; [constructor; assumption | exact Hs].
Qed.

Lemma starts_with_space_join s rest :
  s <> EmptyString ->
  starts_with_space (join (s :: rest)) = starts_with_space s.
Proof. intros Hne. destruct s; [congruence | reflexivity]. Qed.

(** X29.  What glob expansion returns, [follow] finds: on a tree whose
    keys are plain names (child maps in key order, nodes stored under
    their names), every path the expansion of a downward word records
    from a node is resolved by [follow], from that node, to the node the
    path names. *)
Theorem expanded_paths_resolve {engine : RegexEngine}
    (root : Node) (cur : NodePtr) (n : Node) (segs : list string) :
  ordered root -> keyed_by_name root ->
  node_at root cur = Some n ->
  plain_keys n ->
  segs <> [] ->
  Forall glob_segment segs -> Forall compiles segs ->
  exists e,
    Command.shellExpansion_word root cur (join segs) Command.cleared = Ok e
    /\ forall path,
         In path (Command.paths e) ->
         exists ks,
           path = join ks
           /\ node_at root (cur ++ ks) <> None
           /\ follow root path (Some cur) = Ok (Some (cur ++ ks)).
Proof.
  intros Ho Hk Hn Hp Hne Hg Hc.
  pose proof (expansion_chains root cur Ho Hk segs [] n [] Hg Hc) as H.
  rewrite app_nil_r in H. specialize (H Hn (or_introl Hne)).
  eexists. split; [exact H|].
  cbn [Command.paths app steps]. intros path Hin.
  apply in_map_iff in Hin. destruct Hin as (ks & <- & Hks).
  cbn [app] in *.
  apply (chains_spec segs n ks (ordered_at _ _ _ Ho Hn)) in Hks.
  destruct Hks as [H2 Hnode].
  assert (Hvalid : node_at root (cur ++ ks) <> None)
    by (rewrite node_at_app, Hn; exact Hnode).
  exists ks. split; [reflexivity|]. split; [exact Hvalid|].
  destruct (node_at n ks) as [m|] eqn:Hm; [|congruence].
  destruct (plain_keys_at ks n m Hp Hm) as [Hplain Hspace].
  destruct ks as [|k ks'].
  - inversion H2; subst. congruence.
  - inversion Hplain as [|? ? Hkp _]; subst.
    rewrite (follow_plain root cur n k ks' Hn Hplain).
    + destruct (node_at root (cur ++ k :: ks')); [reflexivity | congruence].
    + rewrite starts_with_space_join; [exact Hspace | exact (proj1 Hkp)].
Qed.

Lemma expanded_paths_resolve_witness :
  exists e,
    @Command.shellExpansion_word prefix_engine sample [] "A/A*" Command.cleared
    = Ok e
    /\ forall path,
         In path (Command.paths e) ->
         exists ks,
           path = join ks
           /\ node_at sample ([] ++ ks) <> None
           /\ follow sample path (Some []) = Ok (Some ([] ++ ks)).
Proof.
  apply (@expanded_paths_resolve prefix_engine sample [] sample ["A"; "A*"]).
  - exact (proj1 (proj2 (proj2 sample_wellformed))).
  - exact (proj2 (proj2 (proj2 sample_wellformed))).
  - reflexivity.
  - repeat (constructor; cbn [fst snd]);
      repeat split; try discriminate; try reflexivity.
  - discriminate.
  - repeat constructor; try discriminate; intros; discriminate.
  - repeat constructor; intros _; discriminate.
Defined.
(** ** Words without wildcards, in general: the expander against [follow] *)

Lemma segments_nonempty w : segments w <> [].
Proof.
  destruct w as [|c w]; cbn [segments]; [discriminate|].
  destruct (Ascii.eqb c TreeInfo.delim); [discriminate|].
  destruct (segments w); discriminate.
Qed.

(** A path is its segments with one delimiter between them. *)
Lemma segments_join : forall w, join (segments w) = w.
Proof.
  induction w as [|c w IH]; [reflexivity|]. cbn [segments].
  pose proof (segments_nonempty w) as Hne.
  destruct (Ascii.eqb c TreeInfo.delim) eqn:E.
  - apply Ascii.eqb_eq in E. subst c.
    destruct (segments w) as [|s rest]; [congruence|].
    change (join (EmptyString :: s :: rest))
      with (String TreeInfo.delim (join (s :: rest))).
    rewrite IH. reflexivity.
  - destruct (segments w) as [|s rest]; [congruence|].
    cbn [join append] in *. rewrite IH. reflexivity.
Qed.

Lemma segments_path_segment w :
  has_wildcard w = false -> Forall path_segment (segments w).
Proof.
  induction w as [|c w IH]; intros Hw.
  - repeat constructor.
  - cbn [has_wildcard] in Hw. apply orb_false_iff in Hw. destruct Hw as [Hc Hw].
    specialize (IH Hw). cbn [segments].
    destruct (Ascii.eqb c TreeInfo.delim) eqn:E.
    + constructor; [split; reflexivity | exact IH].
    + destruct (segments w) as [|s rest].
      * constructor; [|constructor]. split; cbn [has_char has_wildcard].
        -- rewrite E. reflexivity.
        -- rewrite Hc. reflexivity.
      * inversion IH as [|? ? [Hd Hs] Hrest]; subst.
        constructor; [|exact Hrest]. split; cbn [has_char has_wildcard].
        -- rewrite E, Hd. reflexivity.
        -- rewrite Hc, Hs. reflexivity.
Qed.

(** A segment is empty, [.], [..] or the name of a child. *)
Lemma path_segment_cases s :
  path_segment s ->
  s = EmptyString \/ s = "." \/ s = ".." \/ plain_name s.
Proof.
  intros [Hd Hw].
  destruct (String.eqb_spec s EmptyString) as [|H0]; [auto|].
  destruct (String.eqb_spec s ".") as [|H1]; [auto|].
  destruct (String.eqb_spec s "..") as [|H2]; [auto|].
  right. right. right. repeat split; assumption.
Qed.

Lemma ends_with_dot_cons s rest :
  s <> "." -> ends_with_dot (s :: rest) = ends_with_dot rest.
Proof.
  intros Hs. destruct rest as [|s2 r]; [|reflexivity].
  unfold ends_with_dot. cbn [last].
  apply String.eqb_neq in Hs. rewrite Hs. reflexivity.
Qed.

Section WildcardFree.
Context {engine : RegexEngine}.
Variable root : Node.

(** *** The steps of the expander *)

Lemma expander_delim node w e :
  Command.shellExpansion_word root node (String TreeInfo.delim w) e
  = Command.shellExpansion_word root node w e.
Proof.
  rewrite shellExpansion_word_step by reflexivity. cbv zeta.
  unfold segment. cbn [first_token]. rewrite Ascii.eqb_refl. reflexivity.
Qed.

Lemma expander_dot node rest e :
  Command.shellExpansion_word root node ("." ++ slashed rest) e
  = match rest with
    | [] => Undefined
    | _ :: _ => Command.shellExpansion_word root node (join rest) e
    end.
Proof.
  rewrite shellExpansion_word_step by reflexivity. cbv zeta.
  unfold segment.
  rewrite first_token_append by (auto using slashed_boundary).
  cbn [fst snd]. destruct rest; reflexivity.
Qed.

Lemma expander_dotdot node n rest e :
  node_at root node = Some n ->
  Command.shellExpansion_word root node (".." ++ slashed rest) e
  = match TreeInfo.parent (data n) with
    | Some up => Command.shellExpansion_word root up (join rest) e
    | None => Ok e
    end.
Proof.
  intros Hn. rewrite shellExpansion_word_step by reflexivity. cbv zeta.
  unfold segment.
  rewrite first_token_append by (auto using slashed_boundary).
  cbn [fst snd]. rewrite next_of_slashed.
  change (negb (empty "..")) with true.
  change (negb (has_wildcard "..")) with true.
  change (String.eqb (star_translation "..") ".") with false.
  change (String.eqb (star_translation "..") "..") with true.
  cbv iota. rewrite Hn. reflexivity.
Qed.

Lemma expander_name node n s rest e :
  plain_name s -> node_at root node = Some n ->
  Command.shellExpansion_word root node (s ++ slashed rest) e
  = match map_find s (children n) with
    | Some _ =>
      e' <- Command.shellExpansion_word root (node ++ [s]) (join rest)
              (Command.push (node ++ [s]) e) ;;
      Ok (Command.pop e')
    | None => Ok e
    end.
Proof.
  intros Hs Hn.
  destruct (plain_name_facts s rest Hs)
    as (Hne & Hseg & Hwi & Hes & Hw & Hst & Hd & Hdd).
  rewrite shellExpansion_word_step by exact Hne.
  cbv zeta. rewrite Hseg, Hwi, Hes, Hw, Hst, Hd, Hn, Hdd, next_of_slashed.
  reflexivity.
Qed.

(** *** The steps of [follow] *)

Lemma follow_loop_step fuel s rest cwd :
  s <> EmptyString -> has_char TreeInfo.delim s = false ->
  String.length (join rest) < fuel ->
  follow_loop (S fuel) root (s ++ slashed rest) cwd
  = if String.eqb s "." then follow_loop fuel root (join rest) cwd
    else
      match node_at root cwd with
      | None => Undefined
      | Some node =>
        if String.eqb s ".." then
          match TreeInfo.parent (data node) with
          | Some up => follow_loop fuel root (join rest) up
          | None => follow_loop fuel root (join rest) cwd
          end
        else
          match map_find s (children node) with
          | None => Ok None
          | Some _ => follow_loop fuel root (join rest) (cwd ++ [s])
          end
      end.
Proof.
  intros Hne Hd Hf. destruct s as [|a s']; [congruence|].
  pose proof Hd as Hd'. cbn [has_char] in Hd'. apply orb_false_iff in Hd'.
  destruct Hd' as [Ha _].
  cbn [follow_loop append skip_delims]. rewrite Ha.
  change (String a (s' ++ slashed rest))%string
    with (String a s' ++ slashed rest)%string.
  rewrite first_token_append by (auto using slashed_boundary).
  destruct (String.eqb (String a s') ".");
    [exact (follow_loop_slashed fuel root rest cwd Hf)|].
  destruct (node_at root cwd) as [node|]; [|reflexivity].
  destruct (String.eqb (String a s') "..").
  - destruct (TreeInfo.parent (data node)) as [up|];
      exact (follow_loop_slashed fuel root rest _ Hf).
  - destruct (map_find (String a s') (children node)); [|reflexivity].
    exact (follow_loop_slashed fuel root rest _ Hf).
Qed.

Lemma join_length_tail s rest :
  s <> EmptyString ->
  String.length (join rest) < String.length (join (s :: rest)).
Proof.
  intros Hs. cbn [join]. rewrite length_append.
  destruct s as [|a s']; [congruence|]. cbn [String.length].
  destruct rest as [|s2 r]; cbn [join slashed String.length]; lia.
Qed.


(** *** Paths without [..] *)

Lemma is_name_plain s : plain_name s -> is_name s = true.
Proof.
  intros (H0 & H1 & _). unfold is_name.
  apply empty_false in H0. apply String.eqb_neq in H1. rewrite H0, H1.
  reflexivity.
Qed.

Lemma names_plain segs :
  Forall path_segment segs -> ~ In ".." segs ->
  Forall plain_name (filter is_name segs).
Proof.
  intros Hp Hdd. apply Forall_forall. intros s Hin.
  apply filter_In in Hin. destruct Hin as [Hin Hs].
  destruct (path_segment_cases s (proj1 (Forall_forall _ _) Hp s Hin))
    as [->|[->|[->|H]]]; [discriminate | discriminate | contradiction | exact H].
Qed.

(** The expander on a path without [..]: it steps over delimiters and
    [.], walks down as far as the names lead, and at the end records the
    nodes it went through; a [.] at the very end takes the pointer past
    the end of the word. *)
Lemma shellExpansion_segments : forall segs cur n ps pths,
  Forall path_segment segs -> ~ In ".." segs ->
  node_at root cur = Some n ->
  Command.shellExpansion_word root cur (join segs)
    {| Command.pathSoFar := ps; Command.paths := pths |}
  = match node_at root (cur ++ filter is_name segs) with
    | Some _ =>
      if ends_with_dot segs then Undefined
      else
        e' <- Command.makePath root
                {| Command.pathSoFar := ps ++ steps cur (filter is_name segs);
                   Command.paths := pths |} ;;
        Ok {| Command.pathSoFar := ps; Command.paths := Command.paths e' |}
    | None => Ok {| Command.pathSoFar := ps; Command.paths := pths |}
    end.
Proof.
  induction segs as [|s rest IH]; intros cur n ps pths Hp Hdd Hn.
  - cbn [join filter steps]. rewrite !app_nil_r, Hn, shellExpansion_word_end.
    change (ends_with_dot []) with false. cbv iota.
    destruct (Command.makePath root _) as [e'| | | |] eqn:E; cbn [bind];
      try reflexivity.
    apply makePath_pathSoFar in E. cbn in E. destruct e' as [ps' pths'].
    cbn in *. congruence.
  - inversion Hp as [|? ? Hs Hrest]; subst.
    assert (Hdd' : ~ In ".." rest) by (intros H; apply Hdd; right; exact H).
    destruct (path_segment_cases s Hs) as [->|[->|[->|Hname]]].
    + change (filter is_name (EmptyString :: rest)) with (filter is_name rest).
      rewrite (ends_with_dot_cons EmptyString rest) by discriminate.
      destruct rest as [|s2 r].
      * exact (IH cur n ps pths Hrest Hdd' Hn).
      * change (join (EmptyString :: s2 :: r))
          with (String TreeInfo.delim (join (s2 :: r))).
        rewrite expander_delim. exact (IH cur n ps pths Hrest Hdd' Hn).
    + change (filter is_name ("." :: rest)) with (filter is_name rest).
      change (join ("." :: rest)) with ("." ++ slashed rest)%string.
      rewrite expander_dot. destruct rest as [|s2 r].
      * cbn [filter]. rewrite app_nil_r, Hn. reflexivity.
      * change (ends_with_dot ("." :: s2 :: r)) with (ends_with_dot (s2 :: r)).
        exact (IH cur n ps pths Hrest Hdd' Hn).
    + exfalso. apply Hdd. left. reflexivity.
    + cbn [filter]. rewrite (is_name_plain s Hname).
      rewrite (ends_with_dot_cons s rest) by exact (proj1 (proj2 Hname)).
      change (join (s :: rest)) with (s ++ slashed rest)%string.
      rewrite (expander_name cur n s rest _ Hname Hn).
      cbn [steps].
      replace (cur ++ s :: filter is_name rest)
        with ((cur ++ [s]) ++ filter is_name rest)
        by (rewrite <- app_assoc; reflexivity).
      rewrite (node_at_app (cur ++ [s]) _), (node_at_snoc root n cur s Hn).
      destruct (map_find s (children n)) as [c|] eqn:Hf; [|reflexivity].
      unfold Command.push. cbn [Command.pathSoFar Command.paths].
      rewrite (IH (cur ++ [s]) c (ps ++ [cur ++ [s]]) pths Hrest Hdd')
        by (rewrite (node_at_snoc root n cur s Hn); exact Hf).
      rewrite (node_at_app (cur ++ [s]) _), (node_at_snoc root n cur s Hn), Hf.
      destruct (node_at c (filter is_name rest)) as [d|].
      * destruct (ends_with_dot rest); [reflexivity|].
        rewrite <- app_assoc. cbn [app].
        destruct (Command.makePath root _) as [e'| | | |]; cbn [bind];
          try reflexivity.
        unfold Command.pop. cbn [Command.pathSoFar Command.paths].
        rewrite removelast_last. reflexivity.
      * cbn [bind]. unfold Command.pop. cbn [Command.pathSoFar Command.paths].
        rewrite removelast_last. reflexivity.
Qed.

(** [follow] on a path without [..]: down the names, stepping over
    delimiters and [.]. *)
Lemma follow_loop_segments : forall segs cur fuel n,
  String.length (join segs) < fuel ->
  Forall path_segment segs -> ~ In ".." segs ->
  node_at root cur = Some n ->
  follow_loop fuel root (join segs) cur
  = match node_at root (cur ++ filter is_name segs) with
    | Some _ => Ok (Some (cur ++ filter is_name segs))
    | None => Ok None
    end.
Proof.
  induction segs as [|s rest IH]; intros cur fuel n Hf Hp Hdd Hn.
  - cbn [join filter]. rewrite follow_loop_end, app_nil_r, Hn. reflexivity.
  - inversion Hp as [|? ? Hs Hrest]; subst.
    assert (Hdd' : ~ In ".." rest) by (intros H; apply Hdd; right; exact H).
    destruct fuel as [|fuel]; [lia|].
    destruct (path_segment_cases s Hs) as [->|[->|[->|Hname]]].
    + change (filter is_name (EmptyString :: rest)) with (filter is_name rest).
      destruct rest as [|s2 r].
      * exact (IH cur (S fuel) n Hf Hrest Hdd' Hn).
      * change (join (EmptyString :: s2 :: r))
          with (String TreeInfo.delim (join (s2 :: r))) in *.
        rewrite follow_loop_leading_delim.
        apply (IH cur (S fuel) n); try assumption.
        cbn [String.length] in Hf. lia.
    + change (filter is_name ("." :: rest)) with (filter is_name rest).
      pose proof (join_length_tail "." rest ltac:(discriminate)) as Hl.
      change (join ("." :: rest)) with ("." ++ slashed rest)%string in *.
      rewrite follow_loop_step by (try discriminate; try reflexivity; lia).
      change (String.eqb "." ".") with true. cbv iota.
      apply (IH cur fuel n); try assumption. lia.
    + exfalso. apply Hdd. left. reflexivity.
    + cbn [filter]. rewrite (is_name_plain s Hname).
      pose proof (join_length_tail s rest (proj1 Hname)) as Hl.
      destruct Hname as (H0 & H1 & H2 & H3 & H4).
      change (join (s :: rest)) with (s ++ slashed rest)%string in *.
      rewrite follow_loop_step by (try assumption; lia).
      apply String.eqb_neq in H1, H2. rewrite H1, H2, Hn.
      replace (cur ++ s :: filter is_name rest)
        with ((cur ++ [s]) ++ filter is_name rest)
        by (rewrite <- app_assoc; reflexivity).
      rewrite (node_at_app (cur ++ [s]) _), (node_at_snoc root n cur s Hn).
      destruct (map_find s (children n)) as [c|] eqn:Hc; [|reflexivity].
      rewrite (IH (cur ++ [s]) fuel c) by
        (try assumption; try lia;
         rewrite (node_at_snoc root n cur s Hn); exact Hc).
      rewrite (node_at_app (cur ++ [s]) _), (node_at_snoc root n cur s Hn), Hc.
      reflexivity.
Qed.

(** *** Paths with [..] *)

(** On a well-formed tree the expander walks where [follow] walks, and
    stops where [follow] stops: when [follow] returns the null pointer,
    the expander has recorded nothing. *)
Lemma expansion_fails_with_follow :
  wellformed root ->
  forall segs cur fuel n ps pths,
    String.length (join segs) < fuel ->
    Forall path_segment segs ->
    node_at root cur = Some n ->
    follow_loop fuel root (join segs) cur = Ok None ->
    Command.shellExpansion_word root cur (join segs)
      {| Command.pathSoFar := ps; Command.paths := pths |}
    = Ok {| Command.pathSoFar := ps; Command.paths := pths |}.
Proof.
  intros Hwf.
  induction segs as [|s rest IH]; intros cur fuel n ps pths Hf Hp Hn Hfail.
  - cbn [join] in Hfail. rewrite follow_loop_end in Hfail. discriminate.
  - inversion Hp as [|? ? Hs Hrest]; subst.
    destruct fuel as [|fuel]; [lia|].
    destruct (path_segment_cases s Hs) as [->|[->|[->|Hname]]].
    + destruct rest as [|s2 r].
      * exact (IH cur (S fuel) n ps pths Hf Hrest Hn Hfail).
      * change (join (EmptyString :: s2 :: r))
          with (String TreeInfo.delim (join (s2 :: r))) in *.
        rewrite follow_loop_leading_delim in Hfail. rewrite expander_delim.
        apply (IH cur (S fuel) n); try assumption.
        cbn [String.length] in Hf. lia.
    + pose proof (join_length_tail "." rest ltac:(discriminate)) as Hl.
      change (join ("." :: rest)) with ("." ++ slashed rest)%string in *.
      rewrite follow_loop_step in Hfail
        by (try discriminate; try reflexivity; lia).
      change (String.eqb "." ".") with true in Hfail. cbv iota in Hfail.
      rewrite expander_dot. destruct rest as [|s2 r].
      * cbn [join] in Hfail. rewrite follow_loop_end in Hfail. discriminate.
      * apply (IH cur fuel n); try assumption. lia.
    + pose proof (join_length_tail ".." rest ltac:(discriminate)) as Hl.
      change (join (".." :: rest)) with (".." ++ slashed rest)%string in *.
      rewrite follow_loop_step in Hfail
        by (try discriminate; try reflexivity; lia).
      change (String.eqb ".." ".") with false in Hfail.
      change (String.eqb ".." "..") with true in Hfail.
      cbv iota in Hfail. rewrite Hn in Hfail.
      rewrite (expander_dotdot cur n rest _ Hn).
      pose proof (parent_at root n cur Hwf Hn) as Hpar.
      destruct (TreeInfo.parent (data n)) as [up|]; [|reflexivity].
      destruct cur as [|k p]; [discriminate|]. injection Hpar as ->.
      assert (Hup : node_at root (removelast (k :: p)) <> None).
      { apply node_at_removelast. rewrite Hn. discriminate. }
      destruct (node_at root (removelast (k :: p))) as [u|] eqn:Eu;
        [|congruence].
      apply (IH (removelast (k :: p)) fuel u); try assumption. lia.
    + pose proof (join_length_tail s rest (proj1 Hname)) as Hl.
      pose proof Hname as (H0 & H1 & H2 & H3 & H4).
      change (join (s :: rest)) with (s ++ slashed rest)%string in *.
      rewrite follow_loop_step in Hfail by (try assumption; lia).
      apply String.eqb_neq in H1, H2. rewrite H1, H2, Hn in Hfail.
      rewrite (expander_name cur n s rest _ Hname Hn).
      destruct (map_find s (children n)) as [c|] eqn:Hc; [|reflexivity].
      unfold Command.push. cbn [Command.pathSoFar Command.paths].
      rewrite (IH (cur ++ [s]) fuel c (ps ++ [cur ++ [s]]) pths) by
        (try assumption; try lia;
         rewrite (node_at_snoc root n cur s Hn); exact Hc).
      cbn [bind]. unfold Command.pop. cbn [Command.pathSoFar Command.paths].
      rewrite removelast_last. reflexivity.
Qed.

End WildcardFree.

(** C2, as far as it holds.  On a tree whose nodes are stored under their
    names, from any node, for every word without wildcard characters that
    has no white space in front and, when it starts with the delimiter, is
    expanded from the root.  If no segment of the word is [..]: when
    [follow] finds the destination and the word does not end in a segment
    [.] and has a name (a segment that is neither empty nor [.]), the
    expander returns exactly one result, the names of the word with one
    delimiter between them, which is the path from the start node to that
    destination, and [follow] resolves this result to the same destination
    unless it starts with white space; when [follow] returns the null
    pointer, the expander returns no result; and [follow] does one or the
    other.  Doubled, leading and trailing delimiters and segments [.]
    before the end are stepped over by both.  With segments [..], on a
    well-formed tree: when [follow] returns the null pointer, the expander
    returns no result. *)
Theorem wildcard_free_path_expansion {engine : RegexEngine}
    (root : Node) (cur : NodePtr) (n : Node) (w : string) :
  keyed_by_name root ->
  node_at root cur = Some n ->
  has_wildcard w = false ->
  starts_with_space w = false ->
  (starts_with_delim w = true -> cur = []) ->
  (~ In ".." (segments w) ->
   match follow root w (Some cur) with
   | Ok (Some dest) =>
     ends_with_dot (segments w) = false -> names w <> [] ->
     dest = cur ++ names w
     /\ Command.shellExpansion_word root cur w Command.cleared
        = Ok {| Command.pathSoFar := []; Command.paths := [join (names w)] |}
     /\ (starts_with_space (join (names w)) = false ->
         follow root (join (names w)) (Some cur) = Ok (Some dest))
   | Ok None =>
     Command.shellExpansion_word root cur w Command.cleared
     = Ok Command.cleared
   | _ => False
   end)
  /\ (wellformed root ->
      follow root w (Some cur) = Ok None ->
      Command.shellExpansion_word root cur w Command.cleared
      = Ok Command.cleared).
Proof.
  intros Hk Hn Hw Hsp Habs.
  pose proof (segments_path_segment w Hw) as Hseg.
  pose proof (segments_join w) as Hj.
  assert (Hfollow : follow root w (Some cur)
                    = follow_loop (S (String.length w)) root w cur).
  { unfold follow. rewrite (skip_spaces_id w Hsp).
    destruct w as [|c w']; [reflexivity|].
    cbn [starts_with_delim] in Habs.
    destruct (Ascii.eqb c TreeInfo.delim); [rewrite (Habs eq_refl)|];
      reflexivity. }
  split.
  - intros Hdd. rewrite Hfollow.
    pose proof (follow_loop_segments root (segments w) cur
                  (S (String.length w)) n) as Hloop.
    rewrite Hj in Hloop.
    rewrite (Hloop ltac:(lia) Hseg Hdd Hn).
    pose proof (shellExpansion_segments root (segments w) cur n [] []
                  Hseg Hdd Hn) as Hexp.
    rewrite Hj in Hexp. unfold Command.cleared. rewrite Hexp.
    pose proof (names_plain (segments w) Hseg Hdd) as Hplain.
    fold (names w) in *.
    destruct (node_at root (cur ++ names w)) as [d|] eqn:Hd; [|reflexivity].
    intros Hdot Hnames. rewrite Hdot. split; [reflexivity|].
    destruct (names w) as [|s rest]; [congruence|].
    cbn [app]. rewrite (makePath_steps root Hk s rest cur [] d Hd).
    split; [reflexivity|].
    intros Hsp'. rewrite (follow_plain root cur n s rest Hn Hplain Hsp'), Hd.
    reflexivity.
  - intros Hwf Hfail. rewrite Hfollow in Hfail.
    pose proof (expansion_fails_with_follow root Hwf (segments w) cur
                  (S (String.length w)) n [] []) as HB.
    rewrite Hj in HB. exact (HB ltac:(lia) Hseg Hn Hfail).
Qed.

Lemma wildcard_free_path_expansion_witness :
  follow sample "./A//A1/" (Some []) = Ok (Some ["A"; "A1"])
  /\ @Command.shellExpansion_word Command.literal_engine sample [] "./A//A1/"
       Command.cleared
     = Ok {| Command.pathSoFar := []; Command.paths := ["A/A1"] |}
  /\ follow sample "A/A1" (Some []) = Ok (Some ["A"; "A1"])
  /\ follow sample "A/../X" (Some ["B"]) = Ok None
  /\ @Command.shellExpansion_word Command.literal_engine sample ["B"] "A/../X"
       Command.cleared
     = Ok Command.cleared.
Proof.
  assert (Hk : keyed_by_name sample)
    by exact (proj2 (insert_all_keeps_shape _ _ _ new_root_shape)).
  destruct (@wildcard_free_path_expansion Command.literal_engine sample []
              sample "./A//A1/" Hk eq_refl eq_refl eq_refl (fun _ => eq_refl))
    as [HA _].
  assert (Hdd : ~ In ".." (segments "./A//A1/")).
  { cbn. intros [H|[H|[H|[H|[H|[]]]]]]; discriminate. }
  specialize (HA Hdd).
  change (follow sample "./A//A1/" (Some []))
    with (@Ok (option (list string)) (Some ["A"; "A1"])) in HA.
  cbv iota in HA.
  destruct (HA eq_refl ltac:(discriminate)) as (_ & He & Hf).
  destruct (@wildcard_free_path_expansion Command.literal_engine sample ["B"]
              (mkTreeNode (TreeInfo.mk "B" (Some []) 1%N 0%N)
                 [("B1", mkTreeNode (TreeInfo.mk "B1" (Some ["B"]) 2%N 0%N) [])])
              "A/../X" Hk eq_refl eq_refl eq_refl
              ltac:(discriminate)) as [_ HB].
  split; [reflexivity|]. split; [exact He|]. split; [exact (Hf eq_refl)|].
  split; [reflexivity|]. exact (HB sample_wellformed eq_refl).
Defined.

(** The four shapes at work: a doubled delimiter, a delimiter at the end,
    segments [.] before the end, and an absolute path from the root. *)
Example expansion_doubled_delimiter :
  follow sample "A//A1" (Some []) = Ok (Some ["A"; "A1"])
  /\ @Command.shellExpansion_word Command.literal_engine sample [] "A//A1"
       Command.cleared
     = Ok {| Command.pathSoFar := []; Command.paths := ["A/A1"] |}.
Proof. split; reflexivity. Qed.

Example expansion_trailing_delimiter :
  follow sample "A/A1/" (Some []) = Ok (Some ["A"; "A1"])
  /\ @Command.shellExpansion_word Command.literal_engine sample [] "A/A1/"
       Command.cleared
     = Ok {| Command.pathSoFar := []; Command.paths := ["A/A1"] |}.
Proof. split; reflexivity. Qed.

Example expansion_inner_dots :
  follow sample "./A/./A1" (Some []) = Ok (Some ["A"; "A1"])
  /\ @Command.shellExpansion_word Command.literal_engine sample [] "./A/./A1"
       Command.cleared
     = Ok {| Command.pathSoFar := []; Command.paths := ["A/A1"] |}.
Proof. split; reflexivity. Qed.

Example expansion_absolute_from_root :
  follow sample "/A/A1" (Some []) = Ok (Some ["A"; "A1"])
  /\ @Command.shellExpansion_word Command.literal_engine sample [] "/A/A1"
       Command.cleared
     = Ok {| Command.pathSoFar := []; Command.paths := ["A/A1"] |}.
Proof. split; reflexivity. Qed.

(** What the conditions keep out.  An absolute path expanded from a node
    below the root is looked up under that node; a path of delimiters and
    [.] alone has no name to record; a name behind [..] is recorded as if
    the [..] were not there. *)
Example expansion_absolute_from_below :
  follow sample "/B" (Some ["A"]) = Ok (Some ["B"])
  /\ @Command.shellExpansion_word Command.literal_engine sample ["A"] "/B"
       Command.cleared
     = Ok Command.cleared.
Proof. split; reflexivity. Qed.

Example expansion_without_name :
  follow sample "./" (Some ["A"]) = Ok (Some ["A"])
  /\ @Command.shellExpansion_word Command.literal_engine sample ["A"] "./"
       Command.cleared
     = Ok Command.cleared.
Proof. split; reflexivity. Qed.

Example expansion_name_behind_dotdot :
  follow sample "A1/../A2" (Some ["A"]) = Ok (Some ["A"; "A2"])
  /\ @Command.shellExpansion_word Command.literal_engine sample ["A"] "A1/../A2"
       Command.cleared
     = Ok {| Command.pathSoFar := []; Command.paths := ["A1/A2"] |}.
Proof. split; reflexivity. Qed.
